(** * post-explainer: the explanation pipeline, embedded and verified

    A shallow embedding of the core of the backend
    (services/query_extractor.py, services/search.py, services/llm.py,
    services/cache.py, services/explainer.py, api/routes.py) together with
    the properties the specification states about it.

    Conventions of the embedding:
    - a Python [str] is the list of its code points ([pystr]); [len] is
      [length], [s[:n]] is [firstn n s] for a literal [n >= 0];
    - the interpreter's Unicode database is exact on what is fixed
      (white space, the ASCII range) and a parameter beyond
      ([UnicodeTables]);
    - code that raises, reads the clock or talks to the network is written
      in a state-and-exception monad over an explicit environment. *)

From Stdlib Require Import ZArith NArith List String Ascii Bool Lia.
From Stdlib Require Import QArith Qminmax Lqa Sorted Permutation DecimalString.
From stdpp Require Import gmap.

Import ListNotations.
Close Scope Q_scope.
Local Open Scope nat_scope.

(** ** Python strings *)

Module PyStr.

(** A character is its code point; a string is the list of its
    characters. *)
Abbreviation char := N (only parsing).
Abbreviation pystr := (list N) (only parsing).

(** An ASCII literal of the source, as code points. *)
Definition lit (s : string) : pystr :=
  List.map N_of_ascii (list_ascii_of_string s).

Definition char_eqb (a b : char) : bool := N.eqb a b.

Fixpoint str_eqb (a b : pystr) : bool :=
  match a, b with
  | [], [] => true
  | x :: a', y :: b' => char_eqb x y && str_eqb a' b'
  | _, _ => false
  end.

(** [x in l] for a list of strings. *)
Definition str_in (x : pystr) (l : list pystr) : bool :=
  existsb (str_eqb x) l.

(** Truth value of a string or of a list: non-empty. *)
Definition truthy_list {A} (l : list A) : bool :=
  match l with [] => false | _ :: _ => true end.

Definition truthy (s : pystr) : bool :=
  match s with [] => false | _ :: _ => true end.

(** [str.isspace] on one character, which is also the class [\s] of [re]
    on [str] patterns: the code points of bidirectional type WS, B or S
    and of category Zs. *)
Definition isspace (c : char) : bool :=
  ((9 <=? c) && (c <=? 13) || (28 <=? c) && (c <=? 32)
   || (c =? 0x85) || (c =? 0xA0) || (c =? 0x1680)
   || (0x2000 <=? c) && (c <=? 0x200A)
   || (c =? 0x2028) || (c =? 0x2029) || (c =? 0x202F)
   || (c =? 0x205F) || (c =? 0x3000))%N.

(** The part of the Unicode database that depends on the interpreter's
    Unicode version: decimal digits, alphanumerics and lower-casing
    outside ASCII. *)
Class UnicodeTables := {
  uni_decimal : char -> option N;
  uni_alnum : char -> bool;
  uni_lower : pystr -> pystr
}.

(** The tables of an interpreter that knows ASCII only; the closed
    examples below run on ASCII text, where every table agrees. *)
Definition ascii_only : UnicodeTables :=
  {| uni_decimal := fun _ => None;
     uni_alnum := fun _ => false;
     uni_lower := fun s => s |}.

Section Classes.
Context {U : UnicodeTables}.

Definition is_ascii (c : char) : bool := (c <? 128)%N.

(** Value of a decimal digit (category Nd): what [\d] matches and what
    [int] reads. *)
Definition decimal_value (c : char) : option N :=
  if is_ascii c
  then (if (48 <=? c) && (c <=? 57) then Some (c - 48) else None)%N
  else uni_decimal c.

Definition is_decimal (c : char) : bool :=
  match decimal_value c with Some _ => true | None => false end.

Definition is_upper_az (c : char) : bool := ((65 <=? c) && (c <=? 90))%N.
Definition is_lower_az (c : char) : bool := ((97 <=? c) && (c <=? 122))%N.

(** The class [\w] of [re] on [str] patterns: alphanumeric or underscore. *)
Definition is_word (c : char) : bool :=
  if is_ascii c
  then is_upper_az c || is_lower_az c
       || ((48 <=? c) && (c <=? 57))%N || (c =? 95)%N
  else uni_alnum c.

Definition lower_ascii_char (c : char) : char :=
  if is_upper_az c then (c + 32)%N else c.

(** [str.lower]. *)
Definition lower (s : pystr) : pystr :=
  if forallb is_ascii s then List.map lower_ascii_char s else uni_lower s.

End Classes.

(** [str.lstrip], [str.rstrip] and [str.strip] with no argument. *)
Fixpoint lstrip (s : pystr) : pystr :=
  match s with
  | [] => []
  | c :: s' => if isspace c then lstrip s' else s
  end.

Fixpoint rstrip (s : pystr) : pystr :=
  match s with
  | [] => []
  | c :: s' =>
      match rstrip s' with
      | [] => if isspace c then [] else [c]
      | r => c :: r
      end
  end.

Definition strip (s : pystr) : pystr := rstrip (lstrip s).

(** [s.split(sep)] for a one-character separator: never empty. *)
Fixpoint split_on (sep : char) (s : pystr) : list pystr :=
  match s with
  | [] => [[]]
  | c :: s' =>
      if char_eqb c sep then [] :: split_on sep s'
      else match split_on sep s' with
           | [] => [[c]]
           | l :: ls => (c :: l) :: ls
           end
  end.

Definition newline : char := 10%N.

(** The lines of a text that are not blank, each one trimmed. *)
Definition live_lines (s : pystr) : list pystr :=
  List.filter truthy (List.map strip (split_on newline s)).

(** [s.startswith(p)]. *)
Fixpoint startswith (p s : pystr) : bool :=
  match p, s with
  | [], _ => true
  | _ :: _, [] => false
  | x :: p', y :: s' => char_eqb x y && startswith p' s'
  end.

(** [p in s] for strings. *)
Fixpoint contains (p s : pystr) : bool :=
  startswith p s || match s with [] => false | _ :: s' => contains p s' end.

(** Longest prefix of [s] whose characters satisfy [f], and the rest. *)
Fixpoint span (f : char -> bool) (s : pystr) : pystr * pystr :=
  match s with
  | [] => ([], [])
  | c :: s' =>
      if f c then let (a, b) := span f s' in (c :: a, b) else ([], s)
  end.

End PyStr.
Import PyStr.

(** ** hashlib.sha256 and str.encode *)

Module Hashlib.

Local Open Scope Z_scope.

(** [str.encode()]: UTF-8. On a [str] that holds a lone surrogate
    [encode] raises UnicodeEncodeError: [encodable] tells the texts on
    which it returns, and [encode] is what it returns on those. *)
Definition encodable (s : pystr) : bool :=
  forallb (fun c => negb ((0xD800 <=? c) && (c <=? 0xDFFF))%N) s.

Definition encode_char (c : char) : list Z :=
  let c := Z.of_N c in
  if c <? 0x80 then [c]
  else if c <? 0x800 then
    [Z.lor 0xC0 (Z.shiftr c 6); Z.lor 0x80 (Z.land c 0x3F)]
  else if c <? 0x10000 then
    [Z.lor 0xE0 (Z.shiftr c 12);
     Z.lor 0x80 (Z.land (Z.shiftr c 6) 0x3F);
     Z.lor 0x80 (Z.land c 0x3F)]
  else
    [Z.lor 0xF0 (Z.shiftr c 18);
     Z.lor 0x80 (Z.land (Z.shiftr c 12) 0x3F);
     Z.lor 0x80 (Z.land (Z.shiftr c 6) 0x3F);
     Z.lor 0x80 (Z.land c 0x3F)].

Definition encode (s : pystr) : list Z := flat_map encode_char s.

Definition w32 (x : Z) : Z := x mod 2 ^ 32.

Definition rotr (x n : Z) : Z :=
  w32 (Z.lor (Z.shiftr x n) (Z.shiftl x (32 - n))).

(** The primes below 312: the first 64 of them. *)
Definition is_prime (n : Z) : bool :=
  forallb (fun d => negb (n mod d =? 0) || (n <? d * d))
          (List.map Z.of_nat (seq 2 16)).

Definition first_primes : list Z :=
  List.filter is_prime (List.map Z.of_nat (seq 2 310)).

(** The integer part of the [k]-th root of [x], one bit at a time from
    bit [bits - 1] down. *)
Fixpoint root_bits (k x : Z) (bits : nat) (r : Z) : Z :=
  match bits with
  | O => r
  | S b =>
      let r' := r + 2 ^ Z.of_nat b in
      root_bits k x b (if r' ^ k <=? x then r' else r)
  end.

(** The first 32 bits of the fractional part of the [k]-th root of [p]. *)
Definition frac_root (k p : Z) : Z :=
  w32 (root_bits k (p * 2 ^ (32 * k)) 40 0).

(** The round constants come from the cube roots of the first 64 primes,
    the initial hash value from the square roots of the first 8. *)
Definition round_constants : list Z :=
  Eval vm_compute in List.map (frac_root 3) first_primes.

Definition initial_hash : list Z :=
  Eval vm_compute in List.map (frac_root 2) (firstn 8 first_primes).

(** Big-endian bytes of [x], [n] of them. *)
Fixpoint be_bytes (n : nat) (x : Z) : list Z :=
  match n with
  | O => []
  | S n' => be_bytes n' (Z.shiftr x 8) ++ [Z.land x 0xFF]
  end.

Definition pad (msg : list Z) : list Z :=
  let l := Z.of_nat (length msg) in
  let zeros := Z.to_nat ((55 - l) mod 64) in
  msg ++ [0x80] ++ repeat 0 zeros ++ be_bytes 8 (8 * l).

Fixpoint be_words (n : nat) (bytes : list Z) : list Z :=
  match n, bytes with
  | S n', a :: b :: c :: d :: rest =>
      (Z.shiftl a 24 + Z.shiftl b 16 + Z.shiftl c 8 + d) :: be_words n' rest
  | _, _ => []
  end.

(** The message schedule, kept newest word first while it grows. *)
Fixpoint schedule (n : nat) (rev_w : list Z) : list Z :=
  match n with
  | O => rev_w
  | S n' =>
      let w2 := nth 1 rev_w 0 in
      let w7 := nth 6 rev_w 0 in
      let w15 := nth 14 rev_w 0 in
      let w16 := nth 15 rev_w 0 in
      let s0 := Z.lxor (Z.lxor (rotr w15 7) (rotr w15 18)) (Z.shiftr w15 3) in
      let s1 := Z.lxor (Z.lxor (rotr w2 17) (rotr w2 19)) (Z.shiftr w2 10) in
      schedule n' (w32 (w16 + s0 + w7 + s1) :: rev_w)
  end.

Definition round (st : list Z) (kw : Z * Z) : list Z :=
  match st with
  | [a; b; c; d; e; f; g; h] =>
      let S1 := Z.lxor (Z.lxor (rotr e 6) (rotr e 11)) (rotr e 25) in
      let ch := Z.lxor (Z.land e f) (Z.land (Z.lxor e 0xFFFFFFFF) g) in
      let t1 := w32 (h + S1 + ch + fst kw + snd kw) in
      let S0 := Z.lxor (Z.lxor (rotr a 2) (rotr a 13)) (rotr a 22) in
      let maj := Z.lxor (Z.lxor (Z.land a b) (Z.land a c)) (Z.land b c) in
      let t2 := w32 (S0 + maj) in
      [w32 (t1 + t2); a; b; c; w32 (d + t1); e; f; g]
  | _ => st
  end.

Definition compress (h : list Z) (block : list Z) : list Z :=
  let w := rev (schedule 48 (rev (be_words 16 block))) in
  let st := fold_left round (combine round_constants w) h in
  List.map (fun p => w32 (fst p + snd p)) (combine h st).

Fixpoint blocks (n : nat) (bytes : list Z) : list (list Z) :=
  match n with
  | O => []
  | S n' =>
      match bytes with
      | [] => []
      | _ => firstn 64 bytes :: blocks n' (skipn 64 bytes)
      end
  end.

Definition sha256 (msg : list Z) : list Z :=
  let m := pad msg in
  let h := fold_left compress (blocks (length m) m) initial_hash in
  flat_map (be_bytes 4) h.

Definition hex_digit (x : Z) : char :=
  Z.to_N (if x <? 10 then 48 + x else 87 + x).

(** [hashlib.sha256(data).hexdigest()]. *)
Definition hexdigest (msg : list Z) : pystr :=
  flat_map (fun b => [hex_digit (Z.shiftr b 4); hex_digit (Z.land b 0xF)])
           (sha256 msg).

End Hashlib.

(** ** The data model (models/schemas.py) *)

(** A float, as the JSON of a provider may hold it: a finite number, held
    exactly, an infinity, or NaN (the parser of Python reads the literals
    Infinity and NaN). *)
Module Score.

Inductive t : Type :=
| Finite (q : Q)
| Inf (positive : bool)
| NaN.

Definition is_nan (a : t) : bool :=
  match a with NaN => true | _ => false end.

(** [bool(a)]: only zero is false. *)
Definition truthy (a : t) : bool :=
  match a with
  | Finite q => negb (Qeq_bool q 0)
  | _ => true
  end.

(** [a < b]; every comparison with NaN is false. *)
Definition ltb (a b : t) : bool :=
  match a, b with
  | NaN, _ => false
  | _, NaN => false
  | Finite p, Finite q => negb (Qle_bool q p)
  | Finite _, Inf positive => positive
  | Inf positive, Finite _ => negb positive
  | Inf p, Inf q => negb p && q
  end.

End Score.

(** Modelled from the spec: models/schemas.py is not part of the sources;
    the records follow section 3 of the specification and the fields the
    code reads and writes. *)
Module SearchResult.
Record t := mk {
  title : pystr;
  url : pystr;
  snippet : pystr;
  score : option Score.t
}.
End SearchResult.

Module Source.
Record t := mk {
  id : nat;
  title : pystr;
  url : pystr;
  snippet : option pystr
}.
End Source.

Module ExplainResponse.
Record t := mk {
  bullets : list pystr;
  sources : list Source.t;
  cached : bool
}.
End ExplainResponse.

(** ** re.findall, for patterns that cannot match the empty string *)

Module Re.

(** A pattern is given by its matcher at one position: from the character
    before the position (for [\b]) and the text from the position on, the
    captured group and the length of the match (at least 1). *)
Definition matcher := option char -> pystr -> option (pystr * nat).

(** The scan of [re.findall]: a match is tried at every position from
    left to right; after a match the scan resumes behind it, so [skip]
    counts the characters of the last match still to pass. *)
Fixpoint scan (m : matcher) (skip : nat) (prev : option char) (s : pystr)
  : list pystr :=
  match s with
  | [] => []
  | c :: rest =>
      match skip with
      | S k => scan m k (Some c) rest
      | O =>
          match m prev s with
          | Some (group, len) => group :: scan m (len - 1) (Some c) rest
          | None => scan m 0 (Some c) rest
          end
      end
  end.

Definition findall (m : matcher) (s : pystr) : list pystr := scan m 0 None s.

End Re.

(** ** services/query_extractor.py *)

Module QueryExtractor.
Section QueryExtractor.
Context {U : UnicodeTables}.

Definition is_sentence_end (c : char) : bool :=
  char_eqb c 46%N || char_eqb c 33%N || char_eqb c 63%N.

Definition is_quote (c : char) : bool := char_eqb c 34%N || char_eqb c 39%N.

(** The pattern of the quoted phrases: one quote character (single or
    double), a captured greedy run of one or more characters that are not
    quotes, one quote character. *)
Definition match_quoted : Re.matcher := fun _ s =>
  match s with
  | q :: rest =>
      if is_quote q then
        match span (fun c => negb (is_quote c)) rest with
        | ((_ :: _) as phrase, _ :: _) => Some (phrase, length phrase + 2)
        | _ => None
        end
      else None
  | [] => None
  end.

(** The patterns #(\w+) and @(\w+). *)
Definition match_tag (sigil : char) : Re.matcher := fun _ s =>
  match s with
  | c :: rest =>
      if char_eqb c sigil then
        match span is_word rest with
        | ((_ :: _) as name, _) => Some (name, length name + 1)
        | _ => None
        end
      else None
  | [] => None
  end.

(** One capitalized word [A-Z][a-z]+ at the start of [s], and the rest. *)
Definition cap_word (s : pystr) : option (pystr * pystr) :=
  match s with
  | c :: rest =>
      if is_upper_az c then
        match span is_lower_az rest with
        | ((_ :: _) as low, rest') => Some (c :: low, rest')
        | _ => None
        end
      else None
  | [] => None
  end.

(** The greedy repetitions of (?:\s+[A-Z][a-z]+): after each one, the
    text matched so far and the character that follows it. Each turn
    consumes at least three characters. *)
Fixpoint cap_reps (fuel : nat) (matched s : pystr)
  : list (pystr * option char) :=
  match fuel with
  | O => []
  | S fuel' =>
      match span isspace s with
      | ((_ :: _) as ws, rest) =>
          match cap_word rest with
          | Some (w, rest') =>
              let matched' := matched ++ ws ++ w in
              (matched', head rest') :: cap_reps fuel' matched' rest'
          | None => []
          end
      | _ => []
      end
  end.

(** [\b] behind a word character: the end of the text or a character that
    is not of the class [\w]. *)
Definition boundary_after (next : option char) : bool :=
  match next with
  | None => true
  | Some c => negb (is_word c)
  end.

(** The pattern \b([A-Z][a-z]+(?:\s+[A-Z][a-z]+)+)\b: the repetition is
    greedy and gives back one turn at a time until the closing [\b]
    holds. *)
Definition match_cap_phrase : Re.matcher := fun prev s =>
  if boundary_after prev then
    match cap_word s with
    | Some (w, rest) =>
        match List.filter (fun r => boundary_after (snd r))
                          (rev (cap_reps (length rest) w rest)) with
        | (phrase, _) :: _ => Some (phrase, length phrase)
        | [] => None
        end
    | None => None
    end
  else None.

(** [sep.join(parts)]. *)
Fixpoint join (sep : pystr) (parts : list pystr) : pystr :=
  match parts with
  | [] => []
  | [p] => p
  | p :: ps => p ++ sep ++ join sep ps
  end.

(** The candidate queries, in the order the five steps append them. *)
Definition candidates (text : pystr) : list pystr :=
  let queries := [] in
  let queries :=
    if length text <=? 200 then queries ++ [text]
    else
      let first_sentence := fst (span (fun c => negb (is_sentence_end c)) text) in
      if length first_sentence <=? 200 then queries ++ [first_sentence]
      else queries ++ [firstn 200 text] in
  let quoted_phrases := Re.findall match_quoted text in
  let queries :=
    fold_left (fun queries phrase =>
                 if (3 <? length phrase) && negb (str_in phrase queries)
                 then queries ++ [phrase] else queries)
              (firstn 2 quoted_phrases) queries in
  let hashtags := Re.findall (match_tag 35%N) text in
  let queries :=
    if truthy_list hashtags then
      let hashtag_query := join (lit " ") (firstn 3 hashtags) in
      if negb (str_in hashtag_query queries)
      then queries ++ [hashtag_query] else queries
    else queries in
  let cap_phrases := Re.findall match_cap_phrase text in
  let queries :=
    fold_left (fun queries phrase =>
                 if negb (str_in phrase queries) && (5 <? length phrase)
                 then queries ++ [phrase] else queries)
              (firstn 2 cap_phrases) queries in
  let mentions := Re.findall (match_tag 64%N) text in
  fold_left (fun queries mention =>
               if 3 <? length mention
               then queries ++ [mention ++ lit " social media"]
               else queries)
            (firstn 1 mentions) queries.

(** One turn of the deduplication loop: the set [seen] and the list
    [unique_queries]. *)
Definition dedup_step (st : gset pystr * list pystr) (q : pystr)
  : gset pystr * list pystr :=
  let (seen, unique_queries) := st in
  let q_lower := strip (lower q) in
  if bool_decide (q_lower ∉ seen) && (3 <? length q_lower)
  then ({[q_lower]} ∪ seen, unique_queries ++ [q])
  else st.

Definition dedup (queries : list pystr) : list pystr :=
  snd (fold_left dedup_step queries (∅, [])).

(** The form under which the loop compares two queries. *)
Definition normalized (q : pystr) : pystr := strip (lower q).

(** What the deduplication loop maintains: [seen] holds the normalized
    forms of the queries kept so far, which are pairwise distinct and
    longer than 3. *)
Definition dedup_inv (st : gset pystr * list pystr) : Prop :=
  (forall x, x ∈ fst st <-> In x (List.map normalized (snd st)))
  /\ List.NoDup (List.map normalized (snd st))
  /\ (forall q, In q (snd st) -> 3 < length (normalized q)).

Definition extract_search_queries (post_text : pystr) : list pystr :=
  let text := strip post_text in
  let unique_queries := dedup (candidates text) in
  if truthy_list unique_queries then firstn 3 unique_queries
  else [firstn 200 text].

End QueryExtractor.
End QueryExtractor.

(** ** Effects: exceptions, the outside world, and the state of the services *)

Module Effects.

(** The outcome of a call: a value, or an exception [e] given by its
    message [str(e)]. *)
Inductive result (A : Type) : Type :=
| Ok (a : A)
| Raise (e : pystr).
Arguments Ok {A} a.
Arguments Raise {A} e.

(** What a request does besides computing, in the order it does it. *)
Inductive Event : Type :=
| EvImage (url : pystr)
| EvExtract (text : pystr)
| EvSearch (fallback : bool) (query : pystr)
| EvGenerate (prompt : pystr)
| EvStream (prompt : pystr)
| EvAnthropic (streaming : bool) (model : pystr).

(** The vision payload handed to a model: the data URL and the detail
    level. *)
Record Image := { image_url_url : pystr; image_url_detail : pystr }.

(** How a streamed completion goes: it may fail before the first chunk
    ([StreamFailed]); once open it delivers chunks and ends normally or
    with an exception. *)
Inductive StreamOutcome : Type :=
| StreamFailed (e : pystr)
| Streamed (chunks : list pystr) (ending : option pystr).

(** What [response.content[0].text] gives on the response of a call of
    the Anthropic API that returned: the text, or the exception it raises
    when the response has no first block or the block has no text. *)
Inductive FirstText : Type :=
| Text (text : pystr)
| NoText (e : pystr).

(** The settings (config.py) and the collaborators outside the process.
    [World] is the state of everything outside; every call to the outside
    may change it. [now] is [datetime.now()] in microseconds. *)
Record Env := {
  World : Type;
  now : World -> Z;
  max_search_results : Z;
  cache_ttl : Z;
  brave_api_key : bool;
  tavily_search : pystr -> Z -> World -> result (list SearchResult.t) * World;
  brave_search : pystr -> Z -> World -> result (list SearchResult.t) * World;
  prepare_image_for_vision : pystr -> World -> option Image * World;
  (* The body of the try of [OpenAIProvider.generate]: the request and the
     reading of [response.choices[0].message.content], None when the
     message has no content. *)
  openai_create : pystr -> option Image -> World -> result (option pystr) * World;
  openai_create_stream : pystr -> option Image -> World -> StreamOutcome * World;
  anthropic_create :
    pystr -> pystr -> option Image -> World -> result FirstText * World;
  anthropic_stream :
    pystr -> pystr -> option Image -> World -> StreamOutcome * World;
  (* [sys.get_int_max_str_digits()], 0 for no limit, and [str(e)] of the
     ValueError that [int] raises on a numeral of that many digits. *)
  int_max_str_digits : nat;
  int_limit_error : nat -> pystr;
  (* What [list.sort] leaves of a list whose keys are not totally
     ordered: some permutation of it. *)
  sort_inconsistent : list SearchResult.t -> list SearchResult.t;
  sort_inconsistent_perm :
    forall l, Permutation (sort_inconsistent l) l
}.

(** A cached value: the dict with the keys bullets and sources. *)
Record CacheValue := {
  cv_bullets : list pystr;
  cv_sources : list Source.t
}.

(** The fields of an AnthropicProvider instance. *)
Record AnthropicSelf := {
  available : bool;
  model : option pystr
}.

Section Monad.
Variable E : Env.

(** The state of the process: the world, the dict of the cache service,
    the Anthropic provider, and the events so far. *)
Record State := {
  world : World E;
  _cache : gmap pystr (CacheValue * Z);
  anthropic : AnthropicSelf;
  log : list Event
}.

Definition set_world (w : World E) (s : State) : State :=
  {| world := w; _cache := _cache s; anthropic := anthropic s; log := log s |}.
Definition set_cache (c : gmap pystr (CacheValue * Z)) (s : State) : State :=
  {| world := world s; _cache := c; anthropic := anthropic s; log := log s |}.
Definition set_anthropic (a : AnthropicSelf) (s : State) : State :=
  {| world := world s; _cache := _cache s; anthropic := a; log := log s |}.
Definition add_log (ev : Event) (s : State) : State :=
  {| world := world s; _cache := _cache s; anthropic := anthropic s;
     log := log s ++ [ev] |}.

(** Computations that may raise and that read and write the state. *)
Definition M (A : Type) : Type := State -> result A * State.

Definition ret {A} (a : A) : M A := fun s => (Ok a, s).
Definition raise {A} (e : pystr) : M A := fun s => (Raise e, s).
Definition bind {A B} (m : M A) (k : A -> M B) : M B := fun s =>
  match m s with
  | (Ok a, s') => k a s'
  | (Raise e, s') => (Raise e, s')
  end.

(** [try: m  except Exception as e: h e]. *)
Definition try_except {A} (m : M A) (h : pystr -> M A) : M A := fun s =>
  match m s with
  | (Ok a, s') => (Ok a, s')
  | (Raise e, s') => h e s'
  end.

Definition tell (ev : Event) : M unit := fun s => (Ok tt, add_log ev s).

(** A computation that may raise and does not touch the state. *)
Definition lift {A} (r : result A) : M A := fun s => (r, s).

(** A call to the outside world. *)
Definition call {A} (f : World E -> result A * World E) : M A := fun s =>
  let (r, w) := f (world s) in (r, set_world w s).

(** Generators, run by a consumer that takes every item: the items
    yielded in order, and how the generator ended. *)
Definition Gen (Y A : Type) : Type := State -> (list Y * result A) * State.

Definition gret {Y A} (a : A) : Gen Y A := fun s => (([], Ok a), s).
Definition gyield {Y} (y : Y) : Gen Y unit := fun s => (([y], Ok tt), s).
Definition glift {Y A} (m : M A) : Gen Y A := fun s =>
  let (r, s') := m s in (([], r), s').
Definition gbind {Y A B} (g : Gen Y A) (k : A -> Gen Y B) : Gen Y B := fun s =>
  match g s with
  | ((ys, Ok a), s') =>
      match k a s' with
      | ((ys', r), s'') => ((ys ++ ys', r), s'')
      end
  | ((ys, Raise e), s') => ((ys, Raise e), s')
  end.

(** [try: g  except Exception as e: h e] inside a generator. *)
Definition gtry_except {Y A} (g : Gen Y A) (h : pystr -> Gen Y A) : Gen Y A :=
  fun s =>
    match g s with
    | ((ys, Ok a), s') => ((ys, Ok a), s')
    | ((ys, Raise e), s') =>
        match h e s' with
        | ((ys', r), s'') => ((ys ++ ys', r), s'')
        end
    end.

(** [for y in g: yield from body y], for a body that yields and neither
    raises nor touches the state. *)
Definition gfor {Y Y' A} (g : Gen Y A) (body : Y -> list Y') : Gen Y' A :=
  fun s =>
    match g s with
    | ((ys, r), s') => ((flat_map body ys, r), s')
    end.

End Monad.

Arguments world {E} s.
Arguments _cache {E} s.
Arguments anthropic {E} s.
Arguments log {E} s.
Arguments set_world {E} w s.
Arguments set_cache {E} c s.
Arguments set_anthropic {E} a s.
Arguments add_log {E} ev s.
Arguments ret {E A} a.
Arguments raise {E A} e.
Arguments bind {E A B} m k.
Arguments try_except {E A} m h.
Arguments tell {E} ev.
Arguments lift {E A} r.
Arguments call {E A} f.
Arguments gret {E Y A} a.
Arguments gyield {E Y} y.
Arguments glift {E Y A} m.
Arguments gbind {E Y A B} g k.
Arguments gtry_except {E Y A} g h.
Arguments gfor {E Y Y' A} g body.

Declare Scope effects_scope.
Delimit Scope effects_scope with eff.
Notation "x <- m ;; k" := (bind m (fun x => k))
  (at level 20, m at level 99, k at level 200, only parsing) : effects_scope.
Notation "m ;; k" := (bind m (fun _ => k))
  (at level 100, k at level 200, right associativity, only parsing)
  : effects_scope.
Notation "x <~ g ;; k" := (gbind g (fun x => k))
  (at level 20, g at level 99, k at level 200, only parsing) : effects_scope.
Notation "g ~~ k" := (gbind g (fun _ => k))
  (at level 100, k at level 200, right associativity, only parsing)
  : effects_scope.

End Effects.
Import Effects.

(** ** services/search.py: the search orchestrator *)

Module SearchService.
Section SearchService.
Variable E : Env.
Local Open Scope effects_scope.

(** The primary provider is always there; the fallback provider only when
    a Brave key is configured. *)
Definition primary_provider (query : pystr) (max_results : Z)
  : M E (list SearchResult.t) :=
  tell (EvSearch false query) ;; call (tavily_search E query max_results).

Definition fallback_provider
  : option (pystr -> Z -> M E (list SearchResult.t)) :=
  if brave_api_key E
  then Some (fun query max_results =>
               tell (EvSearch true query) ;;
               call (brave_search E query max_results))
  else None.

(** One turn of the loop over the queries. *)
Definition search_query (max_results_per_query : Z)
    (all_results : list SearchResult.t) (query : pystr)
  : M E (list SearchResult.t) :=
  try_except
    (results <- primary_provider query max_results_per_query ;;
     ret (all_results ++ results))
    (fun e =>
       match fallback_provider with
       | Some fallback =>
           try_except
             (results <- fallback query max_results_per_query ;;
              ret (all_results ++ results))
             (fun fallback_error => ret all_results)
       | None => ret all_results
       end).

Fixpoint search_loop (max_results_per_query : Z) (queries : list pystr)
    (all_results : list SearchResult.t) : M E (list SearchResult.t) :=
  match queries with
  | [] => ret all_results
  | query :: rest =>
      all_results' <- search_query max_results_per_query all_results query ;;
      search_loop max_results_per_query rest all_results'
  end.

(** One turn of the deduplication loop: the set [seen_urls] and the list
    [unique_results]. *)
Definition dedup_step (st : gset pystr * list SearchResult.t)
    (result : SearchResult.t) : gset pystr * list SearchResult.t :=
  let (seen_urls, unique_results) := st in
  if bool_decide (SearchResult.url result ∉ seen_urls)
  then ({[SearchResult.url result]} ∪ seen_urls, unique_results ++ [result])
  else st.

Definition dedup (all_results : list SearchResult.t) : list SearchResult.t :=
  snd (fold_left dedup_step all_results (∅, [])).

(** The sort key [x.score or 0]. *)
Definition sort_key (x : SearchResult.t) : Score.t :=
  match SearchResult.score x with
  | Some a => if Score.truthy a then a else Score.Finite 0
  | None => Score.Finite 0
  end.

(** A stable sort in descending order that compares keys with [<] only:
    an element passes the elements of a strictly greater key, so elements
    with equal keys keep the order they had. *)
Fixpoint insert_desc (x : SearchResult.t) (l : list SearchResult.t)
  : list SearchResult.t :=
  match l with
  | [] => [x]
  | y :: l' =>
      if Score.ltb (sort_key x) (sort_key y) then y :: insert_desc x l'
      else x :: l
  end.

(** [list.sort(key=..., reverse=True)]. When the keys are totally
    ordered the outcome is fixed: descending and stable. With a NaN among
    the keys it depends on the algorithm of the interpreter, and is some
    permutation of the list. *)
Definition sort_desc (l : list SearchResult.t) : list SearchResult.t :=
  if existsb (fun x => Score.is_nan (sort_key x)) l
  then sort_inconsistent E l
  else fold_right insert_desc [] l.

(** The slice [l[:n]] for an integer [n]; a negative [n] counts from the
    end. *)
Definition slice_to {A} (n : Z) (l : list A) : list A :=
  if (0 <=? n)%Z then firstn (Z.to_nat n) l
  else firstn (length l - Z.to_nat (- n)) l.

(** What [search] does with the accumulated results. *)
Definition rank (all_results : list SearchResult.t) : list SearchResult.t :=
  let unique_results := dedup all_results in
  let unique_results := sort_desc unique_results in
  slice_to (max_search_results E) unique_results.

Definition search (queries : list pystr) (max_results_per_query : Z)
  : M E (list SearchResult.t) :=
  all_results <- search_loop max_results_per_query queries [] ;;
  ret (rank all_results).

End SearchService.
End SearchService.

(** ** services/cache.py *)

Module CacheService.
Section CacheService.
Variable E : Env.

(** [timedelta(seconds=settings.cache_ttl)], in microseconds. *)
Definition ttl : Z := (cache_ttl E * 1000000)%Z.

(** The test [datetime.now() - timestamp > self.ttl]. *)
Definition expired (now_ timestamp : Z) : bool := (ttl <? now_ - timestamp)%Z.

Context {U : UnicodeTables}.

Definition _generate_key (text : pystr) : pystr :=
  let normalized := strip (lower text) in
  lit "explain:" ++ firstn 16 (Hashlib.hexdigest (Hashlib.encode normalized)).

Definition get (text : pystr) : M E (option CacheValue) := fun s =>
  let key := _generate_key text in
  match _cache s !! key with
  | None => (Ok None, s)
  | Some (value, timestamp) =>
      if expired (now E (world s)) timestamp
      then (Ok None, set_cache (delete key (_cache s)) s)
      else (Ok (Some value), s)
  end.

Definition set (text : pystr) (value : CacheValue) : M E unit := fun s =>
  let key := _generate_key text in
  (Ok tt, set_cache (<[key := (value, now E (world s))]> (_cache s)) s).

Definition clear : M E unit := fun s => (Ok tt, set_cache ∅ s).

Definition cleanup_expired : M E nat := fun s =>
  let now_ := now E (world s) in
  let expired_keys :=
    List.map fst
      (List.filter (fun kv => expired now_ (snd (snd kv)))
                   (map_to_list (_cache s))) in
  (Ok (length expired_keys),
   set_cache (fold_left (fun c key => delete key c) expired_keys (_cache s)) s).

End CacheService.
End CacheService.

(** ** prompts.py *)

Module Prompts.

(** [str(i)] for a natural number. *)
Definition str_of_nat (i : nat) : pystr :=
  lit (DecimalString.NilEmpty.string_of_uint (Nat.to_uint i)).

Definition quote_char : char := 34%N.

Fixpoint context_parts (i : nat) (search_results : list SearchResult.t)
  : list pystr :=
  match search_results with
  | [] => []
  | result :: rest =>
      (lit "[" ++ str_of_nat i ++ lit "] " ++ SearchResult.title result
       ++ lit "
    URL: " ++ SearchResult.url result
       ++ lit "
    Content: " ++ SearchResult.snippet result)
      :: context_parts (S i) rest
  end.

(** The template EXPLANATION_PROMPT with its two fields filled in. *)
Definition EXPLANATION_PROMPT (post_text search_context : pystr) : pystr :=
  lit "You are explaining a social media post to someone who is unfamiliar with its context or references.

ORIGINAL POST:
" ++ [quote_char] ++ post_text ++ [quote_char] ++ lit "

SEARCH RESULTS FOR CONTEXT:
" ++ search_context ++ lit "

INSTRUCTIONS:
1. Generate 3-5 bullet points explaining what this post is about
2. Each bullet should be concise (1-2 sentences max)
3. Focus on:
   - What is being referenced? (terms, people, events, memes)
   - Why does it matter or why is it interesting?
   - Key background context needed to understand the post
4. Add citation numbers [1], [2], etc. at the end of statements, referencing the sources above
5. Only include information that is supported by the search results
6. If search results don't provide enough context, acknowledge this honestly

RESPONSE FORMAT:
Return ONLY the bullet points in this exact format:
" ++ [0x2022%N] ++ lit " [First explanation point] [1]
" ++ [0x2022%N] ++ lit " [Second explanation point] [2]  
" ++ [0x2022%N] ++ lit " [Third explanation point] [1][3]
(etc.)

Do NOT include any preamble, headers, or additional text. Start directly with the first bullet point.".

Definition build_explanation_prompt (post_text : pystr)
    (search_results : list SearchResult.t) : pystr :=
  let context_parts := context_parts 1 search_results in
  let search_context :=
    if truthy_list context_parts
    then QueryExtractor.join (lit "

") context_parts
    else lit "No relevant search results found." in
  EXPLANATION_PROMPT post_text search_context.

End Prompts.

(** ** services/llm.py *)

Module OpenAIProvider.
Section OpenAIProvider.
Variable E : Env.
Local Open Scope effects_scope.

(** The exception of the API call is logged and raised again; a missing
    content is the empty string. *)
Definition generate (prompt : pystr) (image_data : option Image) : M E pystr :=
  tell (EvGenerate prompt) ;;
  try_except
    (content <- call (openai_create E prompt image_data) ;;
     ret (match content with Some text => text | None => [] end))
    (fun e => raise e).

(** Only chunks with a non-empty content are yielded. *)
Definition stream (prompt : pystr) (image_data : option Image)
  : Gen E pystr unit := fun s =>
  let s := add_log (EvStream prompt) s in
  let (outcome, w) := openai_create_stream E prompt image_data (world s) in
  let s := set_world w s in
  match outcome with
  | StreamFailed e => (([], Raise e), s)
  | Streamed chunks ending =>
      (List.filter truthy chunks,
       match ending with Some e => Raise e | None => Ok tt end, s)
  end.

End OpenAIProvider.
End OpenAIProvider.

(** ** services/llm.py: the content sent to Claude *)

Module AnthropicContent.

Inductive ContentBlock : Type :=
| ImageBlock (media_type data : pystr)
| TextBlock (text : pystr).

(** [l[i]], which raises IndexError out of range. *)
Definition index {A} (l : list A) (i : nat) : result A :=
  match nth_error l i with
  | Some x => Ok x
  | None => Raise (lit "list index out of range")
  end.

Definition _build_content (prompt : pystr) (image_data : option Image)
  : result (list ContentBlock) :=
  let content := [] in
  match
    (match image_data with
     | Some image =>
         if startswith (lit "data:") (image_url_url image) then
           let data_url := image_url_url image in
           match index (split_on 59%N data_url) 0 with
           | Raise e => Raise e
           | Ok head =>
               match index (split_on 58%N head) 1 with
               | Raise e => Raise e
               | Ok media_type =>
                   match index (split_on 44%N data_url) 1 with
                   | Raise e => Raise e
                   | Ok base64_data =>
                       Ok (content ++ [ImageBlock media_type base64_data])
                   end
               end
           end
         else Ok content
     | None => Ok content
     end)
  with
  | Raise e => Raise e
  | Ok content => Ok (content ++ [TextBlock prompt])
  end.

End AnthropicContent.

Module AnthropicProvider.
Section AnthropicProvider.
Variable E : Env.
Context {U : UnicodeTables}.
Local Open Scope effects_scope.

Definition MODEL_FALLBACKS : list pystr :=
  [lit "claude-3-5-sonnet-20241022";
   lit "claude-3-5-sonnet-20240620";
   lit "claude-3-opus-20240229";
   lit "claude-3-sonnet-20240229";
   lit "claude-3-haiku-20240307"].

(** The test of the except clause: the message names a missing model. *)
Definition is_not_found (e : pystr) : bool :=
  contains (lit "404") e || contains (lit "not_found") (lower e).

(** [str(last_error)] in the final message. *)
Definition str_of_error (last_error : option pystr) : pystr :=
  match last_error with Some e => e | None => lit "None" end.

Definition set_model (m : pystr) : M E unit := fun s =>
  (Ok tt,
   set_anthropic {| available := available (anthropic s); model := Some m |} s).

(** One attempt of [generate] with model [m]: the body of the try. The
    call of the API stands for the request made with the content built
    from the prompt and the image data. When the call returns the model
    is recorded, and then the text is read from the response. *)
Definition generate_attempt (m prompt : pystr) (image_data : option Image)
  : M E pystr :=
  tell (EvAnthropic false m) ;;
  response <- call (anthropic_create E m prompt image_data) ;;
  set_model m ;;
  match response with
  | Text text => ret text
  | NoText e => raise e
  end.

(** The loop of [generate] over the models still to try: a success
    returns, an exception that is not of the not-found class is raised
    again, any other one moves on to the next model. *)
Fixpoint generate_loop (models : list pystr) (last_error : option pystr)
    (prompt : pystr) (image_data : option Image) : M E pystr :=
  match models with
  | [] =>
      raise (lit "Failed to generate with any Claude model: "
             ++ str_of_error last_error)
  | m :: rest =>
      try_except
        (generate_attempt m prompt image_data)
        (fun e =>
           if negb (is_not_found e) then raise e
           else generate_loop rest (Some e) prompt image_data)
  end.

(** The state with another model recorded in the provider. *)
Definition forget (m : option pystr) (s : State E) : State E :=
  set_anthropic {| available := available (anthropic s); model := m |} s.

Definition generate (prompt : pystr) (image_data : option Image) : M E pystr :=
  fun s =>
    if negb (available (anthropic s))
    then raise (lit "Anthropic provider not available") s
    else
      match AnthropicContent._build_content prompt image_data with
      | Raise e => raise e s
      | Ok content => generate_loop MODEL_FALLBACKS None prompt image_data s
      end.

(** One attempt of [stream] with model [m]: once the stream is open the
    model is recorded and the chunks are yielded. *)
Definition stream_attempt (m prompt : pystr) (image_data : option Image)
  : Gen E pystr unit := fun s =>
  let s := add_log (EvAnthropic true m) s in
  let (outcome, w) := anthropic_stream E m prompt image_data (world s) in
  let s := set_world w s in
  match outcome with
  | StreamFailed e => (([], Raise e), s)
  | Streamed chunks ending =>
      (chunks, match ending with Some e => Raise e | None => Ok tt end,
       snd (set_model m s))
  end.

Fixpoint stream_loop (models : list pystr) (last_error : option pystr)
    (prompt : pystr) (image_data : option Image) : Gen E pystr unit :=
  match models with
  | [] =>
      glift (raise (lit "Failed to stream with any Claude model: "
                    ++ str_of_error last_error))
  | m :: rest =>
      gtry_except
        (stream_attempt m prompt image_data)
        (fun e =>
           if negb (is_not_found e) then glift (raise e)
           else stream_loop rest (Some e) prompt image_data)
  end.

Definition stream (prompt : pystr) (image_data : option Image)
  : Gen E pystr unit :=
  fun s =>
    if negb (available (anthropic s))
    then glift (raise (lit "Anthropic provider not available")) s
    else
      match AnthropicContent._build_content prompt image_data with
      | Raise e => glift (raise e) s
      | Ok content => stream_loop MODEL_FALLBACKS None prompt image_data s
      end.

End AnthropicProvider.
End AnthropicProvider.

Module LLMService.
Section LLMService.
Variable E : Env.

(** The default provider is the OpenAI one. *)
Definition generate (prompt : pystr) (image_data : option Image) : M E pystr :=
  OpenAIProvider.generate E prompt image_data.

Definition stream (prompt : pystr) (image_data : option Image)
  : Gen E pystr unit :=
  gfor (OpenAIProvider.stream E prompt image_data) (fun chunk => [chunk]).

End LLMService.
End LLMService.

(** ** services/explainer.py: the pipeline orchestrator *)

Module PostExplainer.
Section PostExplainer.
Variable E : Env.
Context {U : UnicodeTables}.
Local Open Scope effects_scope.

(** *** [_parse_bullets] *)

Definition bullet_char : char := 0x2022%N.

(** The character class of the first pattern: a bullet, a hyphen or a star. *)
Definition is_bullet_marker (c : char) : bool :=
  char_eqb c bullet_char || char_eqb c 45%N || char_eqb c 42%N.

(** [re.sub(r'^[•\-\*]\s*', '', line)]: the pattern is anchored at the
    start and consumes one character, so at most one replacement is made. *)
Definition sub_bullet_marker (line : pystr) : pystr :=
  match line with
  | c :: rest => if is_bullet_marker c then lstrip rest else line
  | [] => []
  end.

(** [re.sub(r'^\d+[\.\)]\s*', '', cleaned)]: the greedy run of digits
    must be followed by a dot or a closing parenthesis. *)
Definition sub_number_marker (cleaned : pystr) : pystr :=
  match span is_decimal cleaned with
  | (_ :: _, c :: rest) =>
      if char_eqb c 46%N || char_eqb c 41%N then lstrip rest else cleaned
  | _ => cleaned
  end.

(** One turn of the loop over the lines. *)
Definition bullets_step (bullets : list pystr) (line : pystr) : list pystr :=
  let line := strip line in
  if negb (truthy line) then bullets
  else
    let cleaned := sub_bullet_marker line in
    let cleaned := sub_number_marker cleaned in
    if truthy cleaned && (10 <? length cleaned)
    then bullets ++ [cleaned]
    else bullets.

Definition _parse_bullets (raw_response : pystr) : list pystr :=
  let lines := split_on newline (strip raw_response) in
  let bullets := fold_left bullets_step lines [] in
  let bullets :=
    if negb (truthy_list bullets) && truthy (strip raw_response)
    then [strip raw_response] else bullets in
  firstn 5 bullets.

(** *** [_build_sources] *)

(** The pattern \[(\d+)\]: an opening bracket, a captured greedy run of
    one or more decimal digits, a closing bracket. *)
Definition match_citation : Re.matcher := fun _ s =>
  match s with
  | c :: rest =>
      if char_eqb c 91%N then
        match span is_decimal rest with
        | ((_ :: _) as digits, c' :: _) =>
            if char_eqb c' 93%N then Some (digits, length digits + 2) else None
        | _ => None
        end
      else None
  | [] => None
  end.

(** The number that a run of decimal digits writes. *)
Definition int_value (digits : pystr) : N :=
  fold_left (fun acc c =>
               (10 * acc + match decimal_value c with Some d => d | None => 0 end)%N)
            digits 0%N.

(** [int(m)] on a run of decimal digits. Python integers are unbounded,
    but the interpreter refuses to convert a numeral of more digits than
    its limit, when a limit is set; a numeral of up to 640 digits is never
    refused. *)
Definition int (digits : pystr) : result N :=
  if (640 <? length digits) && (0 <? int_max_str_digits E)
     && (int_max_str_digits E <? length digits)
  then Raise (int_limit_error E (length digits))
  else Ok (int_value digits).

(** [int(m) for m in matches], which stops at the first numeral that is
    refused. *)
Fixpoint ints (matches : list pystr) : result (list N) :=
  match matches with
  | [] => Ok []
  | m :: rest =>
      match int m with
      | Raise e => Raise e
      | Ok n =>
          match ints rest with
          | Raise e => Raise e
          | Ok ns => Ok (n :: ns)
          end
      end
  end.

Definition citations (response : pystr) : result (gset N) :=
  match ints (Re.findall match_citation response) with
  | Raise e => Raise e
  | Ok ns => Ok (list_to_set ns)
  end.

(** [snippet[:200] if snippet else None]. *)
Definition short_snippet (snippet : pystr) : option pystr :=
  if truthy snippet then Some (firstn 200 snippet) else None.

Definition to_source (i : nat) (result : SearchResult.t) : Source.t :=
  Source.mk i (SearchResult.title result) (SearchResult.url result)
            (short_snippet (SearchResult.snippet result)).

(** The loop over [enumerate(search_results, 1)], from index [i] on. *)
Fixpoint build_sources_from (i : nat) (cited : gset N)
    (search_results : list SearchResult.t) : list Source.t :=
  match search_results with
  | [] => []
  | result :: rest =>
      (if bool_decide (N.of_nat i ∈ cited) || (i <=? 3)
       then [to_source i result] else [])
      ++ build_sources_from (S i) cited rest
  end.

Definition _build_sources (search_results : list SearchResult.t)
    (response : pystr) : result (list Source.t) :=
  match citations response with
  | Raise e => Raise e
  | Ok citations => Ok (build_sources_from 1 citations search_results)
  end.

(** *** [explain] *)

(** [image_url or ''] and the truth value of [image_url]. *)
Definition or_empty (image_url : option pystr) : pystr :=
  match image_url with Some u => u | None => [] end.

Definition process_image (image_url : option pystr) : M E (option Image) :=
  if truthy (or_empty image_url) then
    tell (EvImage (or_empty image_url)) ;;
    call (fun w =>
            let (image_data, w') :=
              prepare_image_for_vision E (or_empty image_url) w in
            (Ok image_data, w'))
  else ret None.

(** The extraction of the queries is pure; the event records that it
    took place. *)
Definition extract_queries (post_text : pystr) : M E (list pystr) :=
  tell (EvExtract post_text) ;;
  ret (QueryExtractor.extract_search_queries post_text).

(** The key under which a request is cached: the f-string made of the
    post text, a colon, and the image URL or the empty string. *)
Definition cache_key (post_text : pystr) (image_url : option pystr) : pystr :=
  post_text ++ lit ":" ++ or_empty image_url.

(** The key of the cache dict that [get] and [set] derive from it. *)
Definition request_key (post_text : pystr) (image_url : option pystr)
  : pystr :=
  CacheService._generate_key (cache_key post_text image_url).

Definition explain (post_text : pystr) (image_url : option pystr)
    (use_cache : bool) : M E ExplainResponse.t :=
  let cache_key := cache_key post_text image_url in
  cached <- (if use_cache then CacheService.get E cache_key else ret None) ;;
  match cached with
  | Some cached =>
      ret (ExplainResponse.mk (cv_bullets cached) (cv_sources cached) true)
  | None =>
      image_data <- process_image image_url ;;
      queries <- extract_queries post_text ;;
      search_results <- SearchService.search E queries 5 ;;
      let prompt := Prompts.build_explanation_prompt post_text search_results in
      raw_response <- LLMService.generate E prompt image_data ;;
      let bullets := _parse_bullets raw_response in
      sources <- lift (_build_sources search_results raw_response) ;;
      let response := ExplainResponse.mk bullets sources false in
      (if use_cache
       then CacheService.set E cache_key
              {| cv_bullets := bullets; cv_sources := sources |}
       else ret tt) ;;
      ret response
  end.

(** The same pipeline cut in two at the call of the model: where a
    request stands when the first part is done, and what is left to do
    with the reply. *)
Inductive Reached : Type :=
| Hit (response : ExplainResponse.t)
| AtGenerate (image_data : option Image)
             (search_results : list SearchResult.t) (prompt : pystr).

Definition explain_to_generate (post_text : pystr) (image_url : option pystr)
    (use_cache : bool) : M E Reached :=
  let cache_key := cache_key post_text image_url in
  cached <- (if use_cache then CacheService.get E cache_key else ret None) ;;
  match cached with
  | Some cached =>
      ret (Hit (ExplainResponse.mk (cv_bullets cached) (cv_sources cached) true))
  | None =>
      image_data <- process_image image_url ;;
      queries <- extract_queries post_text ;;
      search_results <- SearchService.search E queries 5 ;;
      ret (AtGenerate image_data search_results
             (Prompts.build_explanation_prompt post_text search_results))
  end.

Definition explain_from_reply (post_text : pystr) (image_url : option pystr)
    (use_cache : bool) (search_results : list SearchResult.t)
    (raw_response : pystr) : M E ExplainResponse.t :=
  let bullets := _parse_bullets raw_response in
  sources <- lift (_build_sources search_results raw_response) ;;
  (if use_cache
   then CacheService.set E (cache_key post_text image_url)
          {| cv_bullets := bullets; cv_sources := sources |}
   else ret tt) ;;
  ret (ExplainResponse.mk bullets sources false).

(** *** [explain_stream] *)

(** The dicts the generator yields. *)
Inductive StreamItem : Type :=
| ItemSources (data : list Source.t)
| ItemChunk (data : pystr).

(** The list of all sources, numbered from [i]. *)
Fixpoint all_sources_from (i : nat) (search_results : list SearchResult.t)
  : list Source.t :=
  match search_results with
  | [] => []
  | r :: rest => to_source i r :: all_sources_from (S i) rest
  end.

Definition explain_stream (post_text : pystr) : Gen E StreamItem unit :=
  queries <~ glift (extract_queries post_text) ;;
  search_results <~ glift (SearchService.search E queries 5) ;;
  let sources := all_sources_from 1 search_results in
  gyield (ItemSources sources) ~~
  let prompt := Prompts.build_explanation_prompt post_text search_results in
  gfor (LLMService.stream E prompt None) (fun chunk => [ItemChunk chunk]).

End PostExplainer.
End PostExplainer.

(** ** api/routes.py: the streaming route *)

Module Routes.
Section Routes.
Variable E : Env.
Context {U : UnicodeTables}.
Local Open Scope effects_scope.

(** The server-sent events, by event name and payload. *)
Inductive SseEvent : Type :=
| SseSources (data : list Source.t)
| SseChunk (text : pystr)
| SseDone
| SseError (error : pystr).

Definition forward (item : PostExplainer.StreamItem) : list SseEvent :=
  match item with
  | PostExplainer.ItemSources data => [SseSources data]
  | PostExplainer.ItemChunk data => [SseChunk data]
  end.

(** [event_generator] of [explain_post_stream]. *)
Definition event_generator (text : pystr) : Gen E SseEvent unit :=
  gtry_except
    (gfor (PostExplainer.explain_stream E text) forward ~~
     gyield SseDone)
    (fun e => gyield (SseError e)).

End Routes.
End Routes.

(** ** The statements of the specification, in its own words *)

Module Spec.
Section Spec.
Context {U : UnicodeTables}.

(** *** Section 4.6, parse_bullets *)

(** A leading bullet marker, or a leading number followed by a dot or a
    closing parenthesis, is dropped together with the blanks behind it. *)
Definition drop_bullet (line : pystr) : pystr :=
  match line with
  | c :: rest =>
      if existsb (char_eqb c) [0x2022%N; 45%N; 42%N] then lstrip rest else line
  | [] => []
  end.

Definition drop_number (line : pystr) : pystr :=
  let (digits, rest) := span is_decimal line in
  match digits, rest with
  | _ :: _, c :: rest' =>
      if existsb (char_eqb c) [46%N; 41%N] then lstrip rest' else line
  | _, _ => line
  end.

(** The steps up to the fallback: split on line breaks, trim, drop the
    empty lines, strip the marker, drop what is not longer than 10. *)
Definition surviving_lines (text : pystr) : list pystr :=
  let lines := split_on newline text in
  let trimmed := List.map strip lines in
  let non_empty := List.filter truthy trimmed in
  let cleaned := List.map (fun l => drop_number (drop_bullet l)) non_empty in
  List.filter (fun c => 10 <? length c) cleaned.

(** As stated: the fallback applies when the original text is non-empty. *)
Definition parse_bullets_stated (text : pystr) : list pystr :=
  let kept := surviving_lines text in
  let kept :=
    match kept, text with
    | [], _ :: _ => [strip text]
    | _, _ => kept
    end in
  firstn 5 kept.

(** As amended: the fallback applies when the trimmed text is non-empty. *)
Definition parse_bullets_amended (text : pystr) : list pystr :=
  let kept := surviving_lines text in
  let kept :=
    match kept, strip text with
    | [], _ :: _ => [strip text]
    | _, _ => kept
    end in
  firstn 5 kept.

(** *** Section 4.6, citation markers *)

(** The decimal numeral [digits], most significant digit first, writes
    the number [n]. *)
Inductive writes : pystr -> N -> Prop :=
| writes_digit d v :
    decimal_value d = Some v -> writes [d] v
| writes_more digits n d v :
    writes digits n -> decimal_value d = Some v ->
    writes (digits ++ [d]) (10 * n + v).

(** The numeral [digits] stands in [text] as a citation marker: between
    an opening and a closing bracket. *)
Definition marker_at (digits text : pystr) : Prop :=
  exists before after, text = before ++ 91%N :: digits ++ 93%N :: after.

(** The number [n] occurs in [text] as a citation marker. *)
Definition has_marker (n : N) (text : pystr) : Prop :=
  exists digits, marker_at digits text /\ writes digits n.

(** The interpreter refuses to convert the numeral: it is longer than
    640 digits and longer than the limit, when a limit is set. *)
Definition too_long (E : Env) (digits : pystr) : Prop :=
  640 < length digits /\ 0 < int_max_str_digits E
  /\ int_max_str_digits E < length digits.

(** *** Section 4.1, the contract of the query extractor *)

(** As stated: 1 to 3 queries, each non-empty and longer than 3
    characters after trimming, no two the same up to case, that is, after
    lower-casing and trimming. *)
Definition extract_contract_stated (out : list pystr) : Prop :=
  1 <= length out <= 3
  /\ (forall q, In q out -> q <> [] /\ 3 < length (strip q))
  /\ List.NoDup (List.map QueryExtractor.normalized out).

End Spec.

(** *** Section 4.8, the events of a streamed explanation *)

(** The chunks a streamed completion contributes, and the event that
    closes the stream: done after a normal end, error with the message
    otherwise. *)
Definition chunks_of (outcome : StreamOutcome) : list pystr :=
  match outcome with
  | StreamFailed _ => []
  | Streamed chunks _ => List.filter truthy chunks
  end.


(** *** Section 4.2, deduplication by URL *)

(** Of the results that share a URL only the first is kept; the order of
    the results kept is unchanged. *)
Fixpoint keep_first_by_url (results : list SearchResult.t)
  : list SearchResult.t :=
  match results with
  | [] => []
  | r :: rest =>
      r :: List.filter
             (fun x => negb (str_eqb (SearchResult.url x) (SearchResult.url r)))
             (keep_first_by_url rest)
  end.

(** The score of a result, a missing score being treated as 0. *)
Definition score_or_zero (r : SearchResult.t) : Score.t :=
  match SearchResult.score r with
  | Some a => a
  | None => Score.Finite 0
  end.

(** The order of the scores: minus infinity, the finite numbers, plus
    infinity; NaN is not in the order. *)
Definition score_le (a b : Score.t) : Prop :=
  match a, b with
  | Score.Finite p, Score.Finite q => (p <= q)%Q
  | Score.Inf false, Score.Finite _ => True
  | Score.Finite _, Score.Inf true => True
  | Score.Inf p, Score.Inf q => p = true -> q = true
  | _, _ => False
  end.

Definition same_score (a b : Score.t) : bool :=
  match a, b with
  | Score.Finite p, Score.Finite q => Qeq_bool p q
  | Score.Inf p, Score.Inf q => Bool.eqb p q
  | _, _ => false
  end.

(** No result has the score NaN. *)
Definition no_nan_score (l : list SearchResult.t) : Prop :=
  forall r, In r l -> SearchResult.score r <> Some Score.NaN.

(** Descending order of score. *)
Definition key_ge (a b : SearchResult.t) : Prop :=
  score_le (score_or_zero b) (score_or_zero a).

(** The results of [l] whose score, 0 when missing, equals [k], in the
    order of [l]. *)
Definition with_key (k : Score.t) (l : list SearchResult.t)
  : list SearchResult.t :=
  List.filter (fun x => same_score (score_or_zero x) k) l.

(** *** Section 4.2, the handling of the queries *)

Section Handling.
Variable E : Env.
Variable max_per_query : Z.

Definition primary_call (q : pystr) (s : State E)
  : result (list SearchResult.t) * State E :=
  let (r, w) := tavily_search E q max_per_query (world s) in
  (r, set_world w (add_log (EvSearch false q) s)).

Definition fallback_call (q : pystr) (s : State E)
  : result (list SearchResult.t) * State E :=
  let (r, w) := brave_search E q max_per_query (world s) in
  (r, set_world w (add_log (EvSearch true q) s)).

(** [handled qs s found s']: starting in state [s], every query of [qs] is
    handled in turn and on its own: the primary provider is called; if it
    fails and a fallback is configured, the fallback is called for the same
    query; if that fails too, or there is none, the query is skipped.
    [found] collects the results of the calls that succeeded. *)
Inductive handled : list pystr -> State E -> list SearchResult.t -> State E -> Prop :=
| handled_nil s :
    handled [] s [] s
| handled_primary q qs s rs s1 found s' :
    primary_call q s = (Ok rs, s1) ->
    handled qs s1 found s' ->
    handled (q :: qs) s (rs ++ found) s'
| handled_fallback q qs s e s1 rs s2 found s' :
    primary_call q s = (Raise e, s1) ->
    brave_api_key E = true ->
    fallback_call q s1 = (Ok rs, s2) ->
    handled qs s2 found s' ->
    handled (q :: qs) s (rs ++ found) s'
| handled_skip_both q qs s e s1 e' s2 found s' :
    primary_call q s = (Raise e, s1) ->
    brave_api_key E = true ->
    fallback_call q s1 = (Raise e', s2) ->
    handled qs s2 found s' ->
    handled (q :: qs) s found s'
| handled_skip_no_fallback q qs s e s1 found s' :
    primary_call q s = (Raise e, s1) ->
    brave_api_key E = false ->
    handled qs s1 found s' ->
    handled (q :: qs) s found s'.

End Handling.
End Spec.

(** ** Concrete inputs used by the examples *)

Module Examples.

(** The reply of the testable property of the bullet parser: two long
    bulleted lines and a short line. *)
Definition bulleted_reply : pystr :=
  [0x2022%N] ++ lit " A useful long enough line" ++ [newline]
  ++ [0x2022%N] ++ lit " Another one here" ++ [newline]
  ++ lit "short" ++ [newline].

(** A reply whose only citation marker is [[2]]. *)
Definition reply_citing_2 : pystr :=
  lit "Only the second source is cited here [2].".

Definition result_a : SearchResult.t :=
  SearchResult.mk (lit "Alpha") (lit "https://a.example/") (lit "about a")
                  (Some (Score.Finite (9 # 10))).
Definition result_b : SearchResult.t :=
  SearchResult.mk (lit "Beta") (lit "https://b.example/") [] None.
Definition result_c : SearchResult.t :=
  SearchResult.mk (lit "Gamma") (lit "https://c.example/") (lit "about c")
                  (Some (Score.Finite (1 # 2))).

(** A cached value and a process whose cache holds it, stored at time
    [stored], under the key of the post [hello] without image. *)
Definition cached_value : CacheValue :=
  {| cv_bullets := [lit "An explanation computed earlier"]; cv_sources := [] |}.

Definition reply_ok : pystr :=
  [0x2022%N] ++ lit " The post refers to something well known [1]".

(** A small world: the state of the outside is the clock, in
    microseconds, and every call to the outside takes one tick. Search
    returns two results when [search_up], the models answer when [llm_up],
    and the first Anthropic model is unknown to the API. *)
Definition demo (search_up llm_up : bool) : Env := {|
  World := Z;
  now := fun w => w;
  max_search_results := 8;
  cache_ttl := 86400;
  brave_api_key := false;
  tavily_search := fun _ _ w =>
    (if search_up then Ok [result_a; result_b]
     else Raise (lit "Tavily API timeout"), (w + 1)%Z);
  brave_search := fun _ _ w => (Raise (lit "Brave search error"), (w + 1)%Z);
  prepare_image_for_vision := fun _ w => (None, (w + 1)%Z);
  openai_create := fun _ _ w =>
    (if llm_up then Ok (Some reply_ok)
     else Raise (lit "Connection error."), (w + 1)%Z);
  openai_create_stream := fun _ _ w =>
    (if llm_up then Streamed [lit "The post "; []; lit "refers"] None
     else Streamed [lit "The post "] (Some (lit "Connection error.")),
     (w + 1)%Z);
  anthropic_create := fun m _ _ w =>
    (if str_eqb m (lit "claude-3-5-sonnet-20241022")
     then Raise (lit "Error code: 404 - model: claude-3-5-sonnet-20241022")
     else Ok (Text reply_ok), (w + 1)%Z);
  anthropic_stream := fun m _ _ w =>
    (if str_eqb m (lit "claude-3-5-sonnet-20241022")
     then StreamFailed (lit "Error code: 404 - model: claude-3-5-sonnet-20241022")
     else Streamed [lit "The post "; lit "refers"] None, (w + 1)%Z);
  int_max_str_digits := 4300;
  int_limit_error := fun n =>
    lit "Exceeds the limit (4300 digits) for integer string conversion: value has "
    ++ Prompts.str_of_nat n
    ++ lit " digits; use sys.set_int_max_str_digits() to increase the limit";
  sort_inconsistent := fun l => l;
  sort_inconsistent_perm := fun l => Permutation_refl l
|}.

(** The same outside with another maximum of search results. *)
Definition with_max (n : Z) (E : Env) : Env := {|
  World := World E;
  now := now E;
  max_search_results := n;
  cache_ttl := cache_ttl E;
  brave_api_key := brave_api_key E;
  tavily_search := tavily_search E;
  brave_search := brave_search E;
  prepare_image_for_vision := prepare_image_for_vision E;
  openai_create := openai_create E;
  openai_create_stream := openai_create_stream E;
  anthropic_create := anthropic_create E;
  anthropic_stream := anthropic_stream E;
  int_max_str_digits := int_max_str_digits E;
  int_limit_error := int_limit_error E;
  sort_inconsistent := sort_inconsistent E;
  sort_inconsistent_perm := sort_inconsistent_perm E
|}.

(** The same outside with an OpenAI model that answers [reply] at once. *)
Definition with_reply (reply : pystr) (E : Env) : Env := {|
  World := World E;
  now := now E;
  max_search_results := max_search_results E;
  cache_ttl := cache_ttl E;
  brave_api_key := brave_api_key E;
  tavily_search := tavily_search E;
  brave_search := brave_search E;
  prepare_image_for_vision := prepare_image_for_vision E;
  openai_create := fun _ _ w => (Ok (Some reply), w);
  openai_create_stream := openai_create_stream E;
  anthropic_create := anthropic_create E;
  anthropic_stream := anthropic_stream E;
  int_max_str_digits := int_max_str_digits E;
  int_limit_error := int_limit_error E;
  sort_inconsistent := sort_inconsistent E;
  sort_inconsistent_perm := sort_inconsistent_perm E
|}.

(** The same outside with an Anthropic API whose responses, for the
    models it knows, hold no content block: reading the first block
    raises IndexError. *)
Definition with_empty_responses (E : Env) : Env := {|
  World := World E;
  now := now E;
  max_search_results := max_search_results E;
  cache_ttl := cache_ttl E;
  brave_api_key := brave_api_key E;
  tavily_search := tavily_search E;
  brave_search := brave_search E;
  prepare_image_for_vision := prepare_image_for_vision E;
  openai_create := openai_create E;
  openai_create_stream := openai_create_stream E;
  anthropic_create := fun m prompt image_data w =>
    match anthropic_create E m prompt image_data w with
    | (Ok _, w') => (Ok (NoText (lit "list index out of range")), w')
    | (Raise e, w') => (Raise e, w')
    end;
  anthropic_stream := anthropic_stream E;
  int_max_str_digits := int_max_str_digits E;
  int_limit_error := int_limit_error E;
  sort_inconsistent := sort_inconsistent E;
  sort_inconsistent_perm := sort_inconsistent_perm E
|}.

(** A reply whose only marker has 4301 digits. *)
Definition reply_long_marker : pystr :=
  lit "[" ++ repeat 49%N 4301 ++ lit "]".

(** The process at start-up at time [t]: an empty cache, an available
    Anthropic provider set to the first model, no event yet. *)
Definition fresh (E : Env) (w : World E) : State E := {|
  world := w;
  _cache := ∅;
  anthropic := {| available := true;
                  model := Some (lit "claude-3-5-sonnet-20241022") |};
  log := []
|}.

(** The time, in microseconds, one tick after the default TTL. *)
Definition after_ttl : Z := 86400000001.

Definition model_1 : pystr := lit "claude-3-5-sonnet-20241022".
Definition model_2 : pystr := lit "claude-3-5-sonnet-20240620".

Definition with_entry (E : Env) (stored : Z) (w : World E) : State E :=
  set_cache
    {[ @PostExplainer.request_key ascii_only (lit "hello") None
       := (cached_value, stored) ]}
    (fresh E w).

End Examples.

(** ** Shapes used to state further properties *)

Module Shape.

(** A lower-case hexadecimal digit. *)
Definition is_hex_digit (c : char) : bool :=
  ((48 <=? c) && (c <=? 57) || (97 <=? c) && (c <=? 102))%N.

(** [p] is a prefix of [s]. *)
Definition is_prefix (p s : pystr) : Prop := exists rest, s = p ++ rest.

(** A character of the base64 alphabet, or the padding. *)
Definition is_base64_char (c : char) : bool :=
  is_upper_az c || is_lower_az c
  || ((48 <=? c) && (c <=? 57) || (c =? 43) || (c =? 47) || (c =? 61))%N.

(** The character [sep] does not occur in [s]. *)
Definition free_of (sep : char) (s : pystr) : bool :=
  forallb (fun c => negb (char_eqb c sep)) s.

(** The list [b] is [a] with more appended. *)
Definition extends {A} (a b : list A) : Prop := exists ext, b = a ++ ext.

(** A text is trimmed when stripping on either side changes nothing. *)
Definition both_fixed (x : pystr) : Prop := lstrip x = x /\ rstrip x = x.

End Shape.

(** ** services/llm.py: the providers of the service and their comparison *)

Module Providers.

Inductive Provider : Type := OpenAI | Anthropic.

(** [d[k] = v] on a dict, kept in insertion order: a key already there
    keeps its place. *)
Definition dict_set {V} (k : pystr) (v : V) (d : list (pystr * V))
  : list (pystr * V) :=
  if existsb (fun kv => str_eqb (fst kv) k) d
  then List.map (fun kv => if str_eqb (fst kv) k then (fst kv, v) else kv) d
  else d ++ [(k, v)].

Section Providers.
Variable E : Env.
Context {U : UnicodeTables}.
(** Whether [settings.anthropic_api_key] is set: only then does the
    service hold an Anthropic provider. *)
Variable anthropic_api_key : bool.
Local Open Scope effects_scope.

Definition get_provider (name : pystr) : Provider :=
  if str_eqb name (lit "anthropic") && anthropic_api_key
  then Anthropic else OpenAI.

Definition get_available_providers (s : State E) : list pystr :=
  let providers := [lit "openai"] in
  if anthropic_api_key && available (anthropic s)
  then providers ++ [lit "anthropic"]
  else providers.

(** [provider.generate] by dynamic dispatch. *)
Definition provider_generate (provider : Provider) (prompt : pystr)
    (image_data : option Image) : M E pystr :=
  match provider with
  | OpenAI => OpenAIProvider.generate E prompt image_data
  | Anthropic => AnthropicProvider.generate E prompt image_data
  end.

Definition generate_with_provider (prompt provider_name : pystr)
    (image_data : option Image) : M E pystr :=
  provider_generate (get_provider provider_name) prompt image_data.

(** One turn of the loop of [compare_providers]. *)
Definition compare_step (prompt : pystr) (image_data : option Image)
    (results : list (pystr * pystr)) (provider_name : pystr)
  : M E (list (pystr * pystr)) :=
  try_except
    (response <- provider_generate (get_provider provider_name)
                                   prompt image_data ;;
     ret (dict_set provider_name response results))
    (fun e => ret (dict_set provider_name (lit "Error: " ++ e) results)).

Fixpoint compare_loop (prompt : pystr) (image_data : option Image)
    (names : list pystr) (results : list (pystr * pystr))
  : M E (list (pystr * pystr)) :=
  match names with
  | [] => ret results
  | provider_name :: rest =>
      results' <- compare_step prompt image_data results provider_name ;;
      compare_loop prompt image_data rest results'
  end.

Definition compare_providers (prompt : pystr) (image_data : option Image)
  : M E (list (pystr * pystr)) :=
  fun s => compare_loop prompt image_data (get_available_providers s) [] s.

End Providers.
End Providers.

(** ** services/explainer.py: the comparison of the providers *)

Module Comparison.

(** The dict built for one provider: the key error is present only for a
    failure. *)
Record ProviderResult := {
  error : option pystr;
  bullets : list pystr;
  sources : list Source.t
}.

Record t := {
  providers : list (pystr * ProviderResult);
  available_providers : list pystr
}.

Section Comparison.
Variable E : Env.
Context {U : UnicodeTables}.
Variable anthropic_api_key : bool.
Local Open Scope effects_scope.

(** The body of the loop over the responses. *)
Definition parse_response (search_results : list SearchResult.t)
    (raw_response : pystr) : result ProviderResult :=
  if startswith (lit "Error:") raw_response
  then Ok {| error := Some raw_response; bullets := []; sources := [] |}
  else
    let bullets := PostExplainer._parse_bullets raw_response in
    match PostExplainer._build_sources E search_results raw_response with
    | Raise e => Raise e
    | Ok sources =>
        Ok {| error := None; bullets := bullets; sources := sources |}
    end.

(** The loop over the responses; it ends at the first response whose
    sources cannot be built. *)
Fixpoint parse_responses (search_results : list SearchResult.t)
    (provider_responses : list (pystr * pystr))
    (results : list (pystr * ProviderResult))
  : result (list (pystr * ProviderResult)) :=
  match provider_responses with
  | [] => Ok results
  | (provider_name, raw_response) :: rest =>
      match parse_response search_results raw_response with
      | Raise e => Raise e
      | Ok entry =>
          parse_responses search_results rest
            (Providers.dict_set provider_name entry results)
      end
  end.

Definition compare_providers (post_text : pystr) (image_url : option pystr)
  : M E t :=
  image_data <- PostExplainer.process_image E image_url ;;
  queries <- PostExplainer.extract_queries E post_text ;;
  search_results <- SearchService.search E queries 5 ;;
  let prompt := Prompts.build_explanation_prompt post_text search_results in
  provider_responses <-
    Providers.compare_providers E anthropic_api_key prompt image_data ;;
  results <- lift (parse_responses search_results provider_responses []) ;;
  fun s =>
    (Ok {| providers := results;
           available_providers :=
             Providers.get_available_providers E anthropic_api_key s |}, s).

End Comparison.
End Comparison.

(** ** base64.b64encode *)

Module Base64.

Local Open Scope N_scope.

Definition alphabet : pystr :=
  lit "ABCDEFGHIJKLMNOPQRSTUVWXYZabcdefghijklmnopqrstuvwxyz0123456789+/".

(** The character of a group of six bits. *)
Definition sextet (i : N) : char := nth (N.to_nat i) alphabet 0.

Definition pad_char : char := 61.

(** Three bytes give four characters; a last group of one or two bytes
    is completed with padding. *)
Fixpoint b64encode (data : list Byte.byte) : pystr :=
  match data with
  | [] => []
  | [a] =>
      let a := Byte.to_N a in
      [sextet (a / 4); sextet (a mod 4 * 16); pad_char; pad_char]
  | [a; b] =>
      let a := Byte.to_N a in
      let b := Byte.to_N b in
      [sextet (a / 4); sextet (a mod 4 * 16 + b / 16);
       sextet (b mod 16 * 4); pad_char]
  | a :: b :: c :: rest =>
      let a := Byte.to_N a in
      let b := Byte.to_N b in
      let c := Byte.to_N c in
      [sextet (a / 4); sextet (a mod 4 * 16 + b / 16);
       sextet (b mod 16 * 4 + c / 64); sextet (c mod 64)]
      ++ b64encode rest
  end.

End Base64.

(** ** services/image_processor.py *)

Module ImageProcessor.

Definition MAX_IMAGE_SIZE : Z := 20 * 1024 * 1024.

Definition media_types : list (pystr * pystr) :=
  [(lit ".jpg", lit "image/jpeg");
   (lit ".jpeg", lit "image/jpeg");
   (lit ".png", lit "image/png");
   (lit ".gif", lit "image/gif");
   (lit ".webp", lit "image/webp")].

(** [d.get(k, default)] on a dict with string keys. *)
Definition dict_get (d : list (pystr * pystr)) (k default : pystr) : pystr :=
  match List.find (fun kv => str_eqb (fst kv) k) d with
  | Some kv => snd kv
  | None => default
  end.

Section ImageProcessor.
Context {U : UnicodeTables}.
(** The outside: the state of the network, and a GET that follows
    redirects and checks the status. It gives the content-type header (the
    empty string when there is none) and the body, or raises. *)
Variable World : Type.
Variable http_get :
  pystr -> World -> result (pystr * list Byte.byte) * World.
(** [Path(p).suffix] of pathlib, which depends on the platform. *)
Variable path_suffix : pystr -> pystr.

Definition download_image (url : pystr) (w : World)
  : option (list Byte.byte) * World :=
  match http_get url w with
  | (Ok (content_type, content), w') =>
      if negb (startswith (lit "image/") content_type) then (None, w')
      else if (MAX_IMAGE_SIZE <? Z.of_nat (length content))%Z then (None, w')
      else (Some content, w')
  | (Raise _, w') => (None, w')
  end.

(** The characters of the encoding are ASCII, so decoding them as UTF-8
    gives them back. *)
Definition encode_image_base64 (image_bytes : list Byte.byte) : pystr :=
  Base64.b64encode image_bytes.

Definition get_image_media_type (url : pystr) : pystr :=
  let ext := lower (path_suffix (hd [] (split_on 63%N url))) in
  dict_get media_types ext (lit "image/jpeg").

Definition prepare_image_for_vision (url : pystr) (w : World)
  : option Image * World :=
  let (image_bytes, w') := download_image url w in
  match image_bytes with
  | None | Some [] => (None, w')
  | Some image_bytes =>
      let base64_image := encode_image_base64 image_bytes in
      let media_type := get_image_media_type url in
      (Some {| image_url_url :=
                 lit "data:" ++ media_type ++ lit ";base64," ++ base64_image;
               image_url_detail := lit "auto" |}, w')
  end.

End ImageProcessor.
End ImageProcessor.

(** ** api/routes.py: the routes that answer at once *)

Module Endpoints.

(** What a route answers: the body, or the HTTPException raised in the
    except clause, with status 500 and its detail. *)
Inductive Answer (A : Type) : Type :=
| Http200 (body : A)
| Http500 (detail : pystr).
Arguments Http200 {A} body.
Arguments Http500 {A} detail.

Section Endpoints.
Variable E : Env.
Context {U : UnicodeTables}.
Variable anthropic_api_key : bool.

(** [explain_post]: the request is passed on with the default
    [use_cache=True]. *)
Definition explain_post (text : pystr) (image_url : option pystr)
  : State E -> Answer ExplainResponse.t * State E := fun s =>
  match PostExplainer.explain E text image_url true s with
  | (Ok response, s') => (Http200 response, s')
  | (Raise e, s') => (Http500 e, s')
  end.

Definition compare_providers (text : pystr) (image_url : option pystr)
  : State E -> Answer Comparison.t * State E := fun s =>
  match Comparison.compare_providers E anthropic_api_key text image_url s with
  | (Ok response, s') => (Http200 response, s')
  | (Raise e, s') => (Http500 e, s')
  end.

Definition list_providers (s : State E) : list pystr :=
  Providers.get_available_providers E anthropic_api_key s.

End Endpoints.
End Endpoints.

(** ** evaluation: the text the runner scores and two of the metrics *)

Module Evaluation.

(** What [calculate_citation_quality] returns, less citation_diversity,
    which is a float and plays no part in the score. The invalid
    citations are held as a set: the order in which Python iterates over
    a set is not modelled. The score is 1, one half or 0. *)
Record CitationQuality := {
  has_citations : bool;
  total_citations : nat;
  unique_citations : nat;
  valid_citations : nat;
  invalid_citations : gset N;
  score : Q
}.

Section Evaluation.
Variable E : Env.
Context {U : UnicodeTables}.

(** runner.py: the bullets joined, each behind a bullet sign and a
    space. *)
Definition explanation_text (bullets : list pystr) : pystr :=
  QueryExtractor.join [newline]
    (List.map (fun b => [0x2022%N; 32%N] ++ b) bullets).

(** metrics.py, [calculate_format_quality]: the lines, the lines that
    begin like a bullet, their number, and whether it lies between 3 and
    5. The average length, a float, is left out. *)
Definition format_lines (explanation : pystr) : list pystr :=
  List.filter truthy
    (List.map strip (split_on newline (strip explanation))).

Definition bullet_prefixes : list pystr :=
  [[0x2022%N]; lit "-"; lit "*"; lit "1"; lit "2"; lit "3"; lit "4"; lit "5"].

Definition bullet_lines (explanation : pystr) : list pystr :=
  List.filter (fun l => existsb (fun p => startswith p l) bullet_prefixes)
              (format_lines explanation).

Definition num_bullets (explanation : pystr) : nat :=
  length (bullet_lines explanation).

Definition has_proper_format (explanation : pystr) : bool :=
  (3 <=? num_bullets explanation) && (num_bullets explanation <=? 5).

(** metrics.py, [calculate_citation_quality]. *)
Definition calculate_citation_quality (explanation : pystr) (num_sources : Z)
  : result CitationQuality :=
  let citations := Re.findall PostExplainer.match_citation explanation in
  match PostExplainer.ints E citations with
  | Raise e => Raise e
  | Ok numbers =>
  let unique : gset N := list_to_set numbers in
  let valid := filter (fun c : N => (1 <= Z.of_N c <= num_sources)%Z) unique in
  let invalid := filter (fun c : N => (num_sources < Z.of_N c)%Z) unique in
  let has := 0 <? length citations in
  Ok
  {| has_citations := has;
     total_citations := length citations;
     unique_citations := size unique;
     valid_citations := size valid;
     invalid_citations := invalid;
     score := if has && bool_decide (invalid = ∅) then 1%Q
              else if has then (1 # 2)%Q else 0%Q |}
  end.

End Evaluation.
End Evaluation.

(** ** evaluation/runner.py *)

Module Runner.

(** The status of a test result, with the message for an error. *)
Inductive Status : Type :=
| Passed
| Failed
| Error (message : pystr).

Definition is_passed (r : Status) : bool :=
  match r with Passed => true | _ => false end.
Definition is_failed (r : Status) : bool :=
  match r with Failed => true | _ => false end.
Definition is_error (r : Status) : bool :=
  match r with Error _ => true | _ => false end.

(** The counts of the summary. *)
Record Summary := {
  total_tests : nat;
  passed : nat;
  failed : nat;
  errors : nat
}.

Section Runner.
Variable E : Env.
Context {U : UnicodeTables}.
(** A test case, which holds at least the keys id and post_text, and the
    text of its post. *)
Variable TestCase : Type.
Variable post_text : TestCase -> pystr.
(** [calculate_all_metrics(...)["pass"]], which depends on floats and on
    an embedding model: whether the explanation passes, or the exception
    raised on the way. *)
Variable calculate_all_metrics :
  pystr -> TestCase -> nat -> result bool.

Definition run_single_test (test_case : TestCase)
  : State E -> Status * State E := fun s =>
  match PostExplainer.explain E (post_text test_case) None false s with
  | (Ok result, s') =>
      let explanation_text :=
        Evaluation.explanation_text (ExplainResponse.bullets result) in
      match calculate_all_metrics explanation_text test_case
              (length (ExplainResponse.sources result)) with
      | Ok pass => ((if pass then Passed else Failed), s')
      | Raise e => (Error e, s')
      end
  | (Raise e, s') => (Error e, s')
  end.

(** The loop of [run_all_tests]. *)
Fixpoint run_tests (test_cases : list TestCase) (results : list Status)
  : State E -> list Status * State E := fun s =>
  match test_cases with
  | [] => (results, s)
  | test_case :: rest =>
      let (result, s') := run_single_test test_case s in
      run_tests rest (results ++ [result]) s'
  end.

Definition run_all_tests (test_cases : list TestCase)
  : State E -> (Summary * list Status) * State E := fun s =>
  let (results, s') := run_tests test_cases [] s in
  (({| total_tests := length test_cases;
       passed := length (List.filter is_passed results);
       failed := length (List.filter is_failed results);
       errors := length (List.filter is_error results) |},
    results), s').

End Runner.
End Runner.

(** * The properties *)

(** ** The model of hashlib.sha256 on known digests *)

Section HashlibChecks.
Import Hashlib.

Example sha256_abc :
  hexdigest (encode (lit "abc"))
  = lit "ba7816bf8f01cfea414140de5dae2223b00361a396177a9cb410ff61f20015ad".
Proof. vm_compute. reflexivity. Qed.

Example sha256_empty_prefix :
  firstn 16 (hexdigest (encode [])) = lit "e3b0c44298fc1c14".
Proof. vm_compute. reflexivity. Qed.

(** A message of two blocks: 70 times the letter x. *)
Example sha256_two_blocks :
  hexdigest (encode (repeat 120%N 70))
  = lit "c71bd109227e23434ecf71fd0a344a209136c79ae5a0bda2b5ca442d699a3cd9".
Proof. vm_compute. reflexivity. Qed.

Example first_primes_64 :
  length first_primes = 64 /\ nth 63 first_primes 0%Z = 311%Z.
Proof. vm_compute. split; reflexivity. Qed.

(** UTF-8 of a bullet, an accented letter and a character beyond the
    basic plane. *)
Example encode_non_ascii :
  encode [0x2022%N; 0xE9%N; 0x1F600%N]
  = [226; 128; 162; 195; 169; 240; 159; 152; 128]%Z.
Proof. vm_compute. reflexivity. Qed.

(** The key of the text a:b: , which both colliding requests have. *)
Example generate_key_example :
  @CacheService._generate_key ascii_only (lit "A:b: ")
  = lit "explain:b8c7be730d1e6b22".
Proof. vm_compute. reflexivity. Qed.

End HashlibChecks.

(** ** Facts about strings *)

Section StringFacts.

Lemma char_eqb_eq a b : char_eqb a b = true <-> a = b.
Proof. unfold char_eqb. apply N.eqb_eq. Qed.

Lemma str_eqb_eq a : forall b, str_eqb a b = true <-> a = b.
Proof.
  induction a as [|x a IH]; intros [|y b]; simpl; split; try congruence; try easy.
  - intros H. apply andb_true_iff in H as [H1 H2].
    apply char_eqb_eq in H1. apply IH in H2. congruence.
  - intros H. injection H as -> ->. apply andb_true_iff. split.
    + now apply char_eqb_eq.
    + now apply IH.
Qed.

Lemma truthy_length s : truthy s = true <-> 0 < length s.
Proof. destruct s; simpl; split; intros; try lia; congruence. Qed.

Lemma lstrip_space c s : isspace c = true -> lstrip (c :: s) = lstrip s.
Proof. intros H. simpl. now rewrite H. Qed.

Lemma lstrip_nonspace c s : isspace c = false -> lstrip (c :: s) = c :: s.
Proof. intros H. simpl. now rewrite H. Qed.

Lemma rstrip_cons c s :
  rstrip (c :: s) =
  match rstrip s with
  | [] => if isspace c then [] else [c]
  | _ :: _ => c :: rstrip s
  end.
Proof. simpl. destruct (rstrip s); reflexivity. Qed.

(** Stripping on the left and on the right commute. *)
Lemma lstrip_rstrip s : lstrip (rstrip s) = rstrip (lstrip s).
Proof.
  induction s as [|c s IH]; [reflexivity|].
  rewrite rstrip_cons. destruct (isspace c) eqn:Hc.
  - rewrite (lstrip_space c s Hc), <- IH.
    destruct (rstrip s) as [|x r]; rewrite ?Hc; [reflexivity|].
    now rewrite lstrip_space.
  - rewrite (lstrip_nonspace c s Hc), rstrip_cons.
    destruct (rstrip s) as [|x r]; rewrite ?Hc; now rewrite lstrip_nonspace.
Qed.

Lemma strip_alt s : strip s = lstrip (rstrip s).
Proof. unfold strip. now rewrite lstrip_rstrip. Qed.

Lemma newline_space : isspace newline = true.
Proof. reflexivity. Qed.

Lemma split_on_cons sep s : exists l ls, split_on sep s = l :: ls.
Proof.
  induction s as [|c s [l [ls IH]]]; simpl; [eauto|].
  destruct (char_eqb c sep); [eauto|]. rewrite IH. eauto.
Qed.

Lemma split_on_step sep c s l ls :
  split_on sep s = l :: ls ->
  split_on sep (c :: s) =
  if char_eqb c sep then [] :: l :: ls else (c :: l) :: ls.
Proof. intros H. simpl. now rewrite H. Qed.

Lemma live_lines_lstrip s : live_lines (lstrip s) = live_lines s.
Proof.
  unfold live_lines. induction s as [|c s IH]; [reflexivity|].
  destruct (isspace c) eqn:Hc.
  - rewrite (lstrip_space c s Hc), IH.
    destruct (split_on_cons newline s) as [l [ls Hs]].
    rewrite (split_on_step newline c s l ls Hs), Hs.
    assert (Hstrip : strip (c :: l) = strip l)
      by (unfold strip; now rewrite (lstrip_space c l Hc)).
    destruct (char_eqb c newline); cbn [List.map List.filter].
    + reflexivity.
    + now rewrite Hstrip.
  - now rewrite (lstrip_nonspace c s Hc).
Qed.

Lemma map_rstrip_split s :
  exists k,
    List.map rstrip (split_on newline s)
    = List.map rstrip (split_on newline (rstrip s)) ++ repeat [] k.
Proof.
  induction s as [|c s [k IH]]; [exists 0; reflexivity|].
  destruct (split_on_cons newline s) as [l [ls Hs]].
  rewrite (split_on_step newline c s l ls Hs).
  rewrite Hs in IH. rewrite rstrip_cons.
  destruct (rstrip s) as [|x r] eqn:Hr.
  - simpl in IH. injection IH as Hl Hls.
    destruct (char_eqb c newline) eqn:Hnl.
    + apply char_eqb_eq in Hnl. subst c. rewrite newline_space.
      exists (S k). simpl. now rewrite Hl, Hls.
    + destruct (isspace c) eqn:Hc.
      * exists k. simpl. now rewrite Hl, Hc, Hls.
      * exists k. simpl. rewrite Hnl, Hl, Hc, Hls. simpl. now rewrite Hc.
  - destruct (split_on_cons newline (x :: r)) as [l1 [ls1 Hs1]].
    rewrite Hs1 in IH. simpl in IH. injection IH as Hl Hls.
    rewrite (split_on_step newline c (x :: r) l1 ls1 Hs1).
    exists k. destruct (char_eqb c newline); simpl.
    + now rewrite Hl, Hls.
    + now rewrite Hl, Hls.
Qed.

Lemma live_lines_alt s :
  live_lines s
  = List.filter truthy (List.map lstrip (List.map rstrip (split_on newline s))).
Proof.
  unfold live_lines. f_equal. rewrite map_map.
  apply map_ext. intros l. apply strip_alt.
Qed.

Lemma filter_truthy_blank k (l : list pystr) :
  List.filter truthy (l ++ repeat [] k) = List.filter truthy l.
Proof.
  rewrite List.filter_app.
  replace (List.filter truthy (repeat [] k)) with (@nil pystr).
  - apply app_nil_r.
  - induction k; simpl; auto.
Qed.

Lemma live_lines_rstrip s : live_lines (rstrip s) = live_lines s.
Proof.
  rewrite !live_lines_alt. destruct (map_rstrip_split s) as [k ->].
  rewrite List.map_app.
  replace (List.map lstrip (repeat [] k)) with (@repeat pystr [] k).
  - now rewrite filter_truthy_blank.
  - induction k; simpl; congruence.
Qed.

(** Trimming the whole text first does not change the lines that are
    left after trimming each line and dropping the empty ones. *)
Lemma live_lines_strip s : live_lines (strip s) = live_lines s.
Proof. unfold strip. now rewrite live_lines_rstrip, live_lines_lstrip. Qed.

End StringFacts.

(** ** The bullets of a reply *)

Section BulletsFacts.
Context {U : UnicodeTables}.
Import PostExplainer Spec.

Lemma sub_bullet_drop line : sub_bullet_marker line = drop_bullet line.
Proof.
  destruct line as [|c rest]; [reflexivity|].
  unfold sub_bullet_marker, drop_bullet, is_bullet_marker, bullet_char; simpl.
  destruct (char_eqb c 8226%N), (char_eqb c 45%N), (char_eqb c 42%N);
    reflexivity.
Qed.

Lemma sub_number_drop line : sub_number_marker line = drop_number line.
Proof.
  unfold sub_number_marker, drop_number.
  destruct (span is_decimal line) as [[|d ds] [|c rest]]; try reflexivity.
  simpl. destruct (char_eqb c 46%N), (char_eqb c 41%N); reflexivity.
Qed.

Lemma long_is_truthy (s : pystr) :
  truthy s && (10 <? length s) = (10 <? length s).
Proof. destruct s; [reflexivity|]. reflexivity. Qed.

(** The loop over the lines appends, in order, the cleaned lines that
    are long enough. *)
Lemma fold_bullets_step lines : forall acc,
  fold_left bullets_step lines acc
  = acc ++ List.filter (fun c => 10 <? length c)
             (List.map (fun l => drop_number (drop_bullet l))
                (List.filter truthy (List.map strip lines))).
Proof.
  induction lines as [|line lines IH]; intros acc.
  - simpl. now rewrite app_nil_r.
  - cbn [fold_left List.map List.filter]. rewrite IH. unfold bullets_step.
    destruct (truthy (strip line)) eqn:Ht; cbn [negb]; [|reflexivity].
    cbn [List.map List.filter].
    rewrite long_is_truthy, sub_bullet_drop, sub_number_drop.
    destruct (10 <? length (drop_number (drop_bullet (strip line)))).
    + now rewrite <- app_assoc.
    + reflexivity.
Qed.

Lemma surviving_lines_strip raw :
  surviving_lines (strip raw) = surviving_lines raw.
Proof.
  unfold surviving_lines. fold (live_lines (strip raw)). fold (live_lines raw).
  now rewrite live_lines_strip.
Qed.

Lemma parse_bullets_eq raw :
  _parse_bullets raw = parse_bullets_amended raw.
Proof.
  unfold _parse_bullets, parse_bullets_amended.
  rewrite fold_bullets_step. cbn [app].
  fold (surviving_lines (strip raw)). rewrite surviving_lines_strip.
  destruct (surviving_lines raw), (strip raw); reflexivity.
Qed.

Lemma parse_bullets_at_most_5 raw : length (_parse_bullets raw) <= 5.
Proof. unfold _parse_bullets. apply firstn_le_length. Qed.

End BulletsFacts.

Section BulletsClaim.
Context {U : UnicodeTables}.
Import PostExplainer Spec.

(** C6 (amended). For every raw model text, [_parse_bullets] splits on
    line breaks, trims each line, drops the empty lines, strips a leading
    bullet or numbering marker, drops the lines whose cleaned length is at
    most 10, falls back to the single trimmed text when nothing survives
    and the trimmed text is non-empty, and returns at most 5 bullets; on
    the reply of the testable property it returns exactly the 2 long
    lines. *)
Theorem parse_bullets_amended_correct :
  (forall raw, _parse_bullets raw = parse_bullets_amended raw)
  /\ (forall raw, length (_parse_bullets raw) <= 5)
  /\ _parse_bullets Examples.bulleted_reply
     = [lit "A useful long enough line"; lit "Another one here"].
Proof.
  split; [exact parse_bullets_eq|].
  split; [exact parse_bullets_at_most_5|].
  vm_compute. reflexivity.
Qed.

End BulletsClaim.

(** C6, as stated, fails on a reply made of one blank: the text is not
    empty, so the stated fallback yields one (empty) bullet, while the
    code tests the trimmed text and returns no bullet. *)
Lemma parse_bullets_stated_counterexample :
  @PostExplainer._parse_bullets ascii_only (lit " ") = []
  /\ @Spec.parse_bullets_stated ascii_only (lit " ") = [[]]
  /\ ~ (forall raw,
          @PostExplainer._parse_bullets ascii_only raw
          = @Spec.parse_bullets_stated ascii_only raw).
Proof.
  split; [reflexivity|]. split; [reflexivity|].
  intros H. specialize (H (lit " ")). discriminate H.
Qed.

(** ** Facts about [span] and the scan of [re.findall] *)

Section ScanFacts.

Lemma span_app f s : forall a b, span f s = (a, b) -> s = a ++ b.
Proof.
  induction s as [|c s IH]; simpl; intros a b H.
  - now injection H as <- <-.
  - destruct (f c).
    + destruct (span f s) as [a' b'] eqn:Hs. injection H as <- <-.
      simpl. f_equal. now apply IH.
    + now injection H as <- <-.
Qed.

Lemma span_all f s : forall a b, span f s = (a, b) -> forallb f a = true.
Proof.
  induction s as [|c s IH]; simpl; intros a b H.
  - now injection H as <- <-.
  - destruct (f c) eqn:Hc.
    + destruct (span f s) as [a' b'] eqn:Hs. injection H as <- <-.
      simpl. rewrite Hc. now apply (IH a' b').
    + now injection H as <- <-.
Qed.

Lemma span_exact f a : forall x b,
  forallb f a = true -> f x = false -> span f (a ++ x :: b) = (a, x :: b).
Proof.
  induction a as [|c a IH]; simpl; intros x b Ha Hx.
  - now rewrite Hx.
  - apply andb_true_iff in Ha as [Hc Ha]. rewrite Hc.
    now rewrite (IH x b Ha Hx).
Qed.

(** A run stops at the latest at a character outside the class. *)
Lemma span_before f a : forall x b g r,
  f x = false -> span f (a ++ x :: b) = (g, r) ->
  exists a2, a = g ++ a2 /\ r = a2 ++ x :: b.
Proof.
  induction a as [|c a IH]; simpl; intros x b g r Hx H.
  - rewrite Hx in H. injection H as <- <-. now exists [].
  - destruct (f c).
    + destruct (span f (a ++ x :: b)) as [g' r'] eqn:Hs.
      injection H as <- <-.
      destruct (IH x b g' r' Hx Hs) as [a2 [-> ->]]. now exists a2.
    + injection H as <- <-. now exists (c :: a).
Qed.

(** Every group the scan returns is the group of a match somewhere in
    the text. *)
Lemma scan_sound m g s : forall skip prev,
  In g (Re.scan m skip prev s) ->
  exists before prev' rest len,
    s = before ++ rest /\ m prev' rest = Some (g, len).
Proof.
  induction s as [|c s IH]; simpl; intros skip prev H; [contradiction|].
  assert (Hrec : forall k,
             In g (Re.scan m k (Some c) s) ->
             exists before prev' rest len,
               c :: s = before ++ rest /\ m prev' rest = Some (g, len)).
  { intros k Hk. destruct (IH k (Some c) Hk) as (b & p & r & len & -> & Hm).
    now exists (c :: b), p, r, len. }
  destruct skip as [|k]; [|now apply (Hrec k)].
  destruct (m prev (c :: s)) as [[g' len]|] eqn:Hm; [|now apply (Hrec 0)].
  destruct H as [<- | H]; [|now apply (Hrec (len - 1))].
  now exists [], prev, (c :: s), len.
Qed.

End ScanFacts.

(** ** The sources of a reply *)

Section SourcesFacts.
Variable E : Env.
Context {U : UnicodeTables}.
Import PostExplainer Spec.

Lemma bracket_not_decimal : is_decimal 91%N = false /\ is_decimal 93%N = false.
Proof. split; reflexivity. Qed.

Lemma match_citation_inv prev s g len :
  match_citation prev s = Some (g, len) ->
  exists after,
    s = 91%N :: g ++ 93%N :: after
    /\ g <> [] /\ forallb is_decimal g = true /\ len = length g + 2.
Proof.
  unfold match_citation. destruct s as [|c rest]; [discriminate|].
  destruct (char_eqb c 91%N) eqn:Hc; [|discriminate].
  apply char_eqb_eq in Hc. subst c.
  destruct (span is_decimal rest) as [[|d ds] [|c' after]] eqn:Hs;
    try discriminate.
  destruct (char_eqb c' 93%N) eqn:Hc'; [|discriminate].
  apply char_eqb_eq in Hc'. subst c'. intros H. injection H as <- <-.
  exists after. repeat split.
  - f_equal. now apply (span_app is_decimal).
  - discriminate.
  - now apply (span_all is_decimal rest _ _ Hs).
Qed.

Lemma match_citation_here prev digits after :
  digits <> [] -> forallb is_decimal digits = true ->
  match_citation prev (91%N :: digits ++ 93%N :: after)
  = Some (digits, length digits + 2).
Proof.
  intros Hne Hall. unfold match_citation. cbv beta iota.
  replace (char_eqb 91%N 91%N) with true by reflexivity. cbv iota.
  rewrite (span_exact is_decimal digits 93%N after Hall)
    by apply bracket_not_decimal.
  destruct digits; [contradiction|]. reflexivity.
Qed.

(** No match that starts before a marker reaches into it: the scan
    arrives at the opening bracket of every marker with nothing left to
    skip, and so returns its digits. *)
Lemma scan_finds_marker digits after :
  digits <> [] -> forallb is_decimal digits = true ->
  forall before skip prev,
    skip <= length before ->
    In digits
       (Re.scan match_citation skip prev
                (before ++ 91%N :: digits ++ 93%N :: after)).
Proof.
  intros Hne Hall. induction before as [|c before IH]; intros skip prev Hskip.
  - simpl in Hskip. assert (skip = 0) as -> by lia.
    cbn [app Re.scan]. rewrite match_citation_here by assumption. now left.
  - cbn [app Re.scan]. simpl in Hskip.
    destruct skip as [|k]; [|apply IH; lia].
    destruct (match_citation prev (c :: before ++ 91%N :: digits ++ 93%N :: after))
      as [[g len]|] eqn:Hm; [|apply IH; lia].
    right. apply IH.
    apply match_citation_inv in Hm as (after' & Heq & Hg & Hgall & ->).
    injection Heq as -> Heq.
    assert (Hs : span is_decimal (before ++ 91%N :: digits ++ 93%N :: after)
                 = (g, 93%N :: after')).
    { rewrite Heq. apply span_exact; [assumption|apply bracket_not_decimal]. }
    apply span_before in Hs as [a2 [-> Ha2]]; [|apply bracket_not_decimal].
    destruct a2 as [|x a2]; [discriminate Ha2|].
    rewrite length_app. simpl. lia.
Qed.

(** The number a numeral writes is the one [int] computes. *)
Lemma int_value_app digits d :
  int_value (digits ++ [d])
  = (10 * int_value digits
     + match decimal_value d with Some v => v | None => 0 end)%N.
Proof. unfold int_value. now rewrite fold_left_app. Qed.

Lemma writes_int_value digits n :
  writes digits n ->
  digits <> [] /\ forallb is_decimal digits = true /\ int_value digits = n.
Proof.
  induction 1 as [d v Hd | digits n d v Hw IH Hd].
  - split; [discriminate|]. unfold is_decimal, int_value. cbn.
    rewrite Hd. split; [reflexivity|]. lia.
  - destruct IH as (_ & Hall & Hint).
    split; [now destruct digits|].
    split.
    + rewrite forallb_app, Hall. cbn. unfold is_decimal. now rewrite Hd.
    + now rewrite int_value_app, Hint, Hd.
Qed.

Lemma int_value_writes digits :
  digits <> [] -> forallb is_decimal digits = true ->
  writes digits (int_value digits).
Proof.
  induction digits as [|d digits IH] using rev_ind; [contradiction|].
  intros _ Hall. rewrite forallb_app in Hall.
  apply andb_true_iff in Hall as [Hall Hd]. cbn in Hd.
  rewrite andb_true_r in Hd. unfold is_decimal in Hd.
  destruct (decimal_value d) as [v|] eqn:Hv; [|discriminate].
  rewrite int_value_app, Hv.
  destruct digits as [|d0 digits].
  - cbn. replace (10 * int_value [] + v)%N with v
      by (unfold int_value; cbn; lia).
    now constructor.
  - apply writes_more; [|exact Hv]. apply IH; [discriminate|exact Hall].
Qed.

(** What [int] does with a numeral. *)
Lemma int_cases digits :
  (too_long E digits
   /\ int E digits = Raise (int_limit_error E (length digits)))
  \/ (~ too_long E digits /\ int E digits = Ok (int_value digits)).
Proof.
  unfold int, too_long.
  destruct (Nat.ltb_spec 640 (length digits));
    destruct (Nat.ltb_spec 0 (int_max_str_digits E));
    destruct (Nat.ltb_spec (int_max_str_digits E) (length digits));
    cbn [andb]; [left; now repeat split|right; split; [lia|reflexivity]..].
Qed.

Lemma ints_cases matches :
  match ints E matches with
  | Ok ns =>
      ns = List.map int_value matches
      /\ forall m, In m matches -> ~ too_long E m
  | Raise e =>
      exists m, In m matches /\ too_long E m
                /\ e = int_limit_error E (length m)
  end.
Proof.
  induction matches as [|m matches IH]; [now split|].
  cbn [ints]. destruct (int_cases m) as [[Hlong ->] | [Hshort ->]].
  - exists m. split; [now left|now split].
  - destruct (ints E matches) as [ns|e].
    + destruct IH as [-> Hall]. split; [reflexivity|].
      intros m' [<- | Hin]; [exact Hshort|now apply Hall].
    + destruct IH as (m' & Hin & Hlong & He). exists m'.
      split; [now right|now split].
Qed.

(** The numerals the scan finds are the markers of the text. *)
Lemma findall_markers digits response :
  In digits (Re.findall match_citation response)
  <-> marker_at digits response /\ exists n, writes digits n.
Proof.
  unfold marker_at, Re.findall. split.
  - intros Hin.
    apply scan_sound in Hin as (before & prev & rest & len & -> & Hm).
    apply match_citation_inv in Hm as (after & -> & Hne & Hall & _).
    split; [now exists before, after|].
    exists (int_value digits). now apply int_value_writes.
  - intros [(before & after & ->) (n & Hw)].
    apply writes_int_value in Hw as (Hne & Hall & _).
    apply scan_finds_marker; [assumption|assumption|lia].
Qed.

(** The citation set holds exactly the numbers that occur as markers,
    when no marker is refused; otherwise the conversion of the first
    marker refused raises. *)
Lemma citations_spec response :
  match citations E response with
  | Ok cited =>
      (forall n, n ∈ cited <-> has_marker n response)
      /\ (forall digits n, marker_at digits response -> writes digits n ->
                           ~ too_long E digits)
  | Raise e =>
      exists digits n,
        marker_at digits response /\ writes digits n
        /\ too_long E digits /\ e = int_limit_error E (length digits)
  end.
Proof.
  unfold citations.
  pose proof (ints_cases (Re.findall match_citation response)) as H.
  destruct (ints E (Re.findall match_citation response)) as [ns|e].
  - destruct H as [-> Hall]. split.
    + intros n. rewrite elem_of_list_to_set, list_elem_of_In, in_map_iff.
      unfold has_marker. split.
      * intros (digits & <- & Hin). exists digits.
        apply findall_markers in Hin as [Hat (n & Hw)]. split; [exact Hat|].
        pose proof (writes_int_value _ _ Hw) as (_ & _ & <-). exact Hw.
      * intros (digits & Hat & Hw). exists digits.
        split; [now apply writes_int_value in Hw|].
        apply findall_markers. split; [exact Hat|now exists n].
    + intros digits n Hat Hw. apply Hall. apply findall_markers.
      split; [exact Hat|now exists n].
  - destruct H as (m & Hin & Hlong & ->).
    apply findall_markers in Hin as [Hat (n & Hw)].
    now exists m, n.
Qed.

Lemma short_snippet_spec snippet text :
  short_snippet snippet = Some text ->
  text = firstn 200 snippet /\ length text <= 200 /\ snippet <> [].
Proof.
  unfold short_snippet. destruct snippet as [|c snippet]; [discriminate|].
  cbn [truthy]. intros H. injection H as <-. split; [reflexivity|].
  split; [exact (firstn_le_length 200 (c :: snippet))|discriminate].
Qed.

Lemma short_snippet_none snippet :
  short_snippet snippet = None <-> snippet = [].
Proof.
  unfold short_snippet. destruct snippet; simpl; split; congruence.
Qed.

(** The loop keeps the results in their order, numbers them from [i]
    and keeps those whose number is cited or at most 3. *)
Lemma build_sources_from_ids cited results : forall i j,
  In j (List.map Source.id (build_sources_from i cited results))
  <-> i <= j < i + length results /\ (N.of_nat j ∈ cited \/ j <= 3).
Proof.
  induction results as [|r results IH]; intros i j.
  - simpl. lia.
  - cbn [build_sources_from]. rewrite List.map_app, in_app_iff, IH.
    cbn [length].
    destruct (bool_decide (N.of_nat i ∈ cited) || (i <=? 3)) eqn:Hkeep.
    + apply orb_true_iff in Hkeep.
      rewrite bool_decide_eq_true, Nat.leb_le in Hkeep.
      simpl. split.
      * intros [[<- | []] | [Hj Hc]]; [split; [lia|assumption]|split; [lia|assumption]].
      * intros [Hj Hc]. destruct (Nat.eq_dec i j) as [->|Hne]; [now left; left|].
        right. split; [lia|assumption].
    + apply orb_false_iff in Hkeep.
      rewrite bool_decide_eq_false, Nat.leb_gt in Hkeep.
      simpl. split.
      * intros [[] | [Hj Hc]]. split; [lia|assumption].
      * intros [Hj Hc]. right. split; [|assumption].
        destruct (Nat.eq_dec i j) as [->|Hne]; [|lia].
        destruct Hkeep as [Hn Hle]. destruct Hc; [contradiction|lia].
Qed.

Lemma build_sources_from_elem cited results : forall i s,
  In s (build_sources_from i cited results) ->
  exists r, nth_error results (Source.id s - i) = Some r
            /\ i <= Source.id s /\ s = to_source (Source.id s) r.
Proof.
  induction results as [|r results IH]; intros i s; [contradiction|].
  cbn [build_sources_from]. rewrite in_app_iff. intros [H | H].
  - destruct (bool_decide (N.of_nat i ∈ cited) || (i <=? 3)); [|contradiction].
    destruct H as [<- | []]. exists r. cbn [to_source Source.id].
    rewrite Nat.sub_diag. now repeat split.
  - destruct (IH (S i) s H) as (r' & Hnth & Hle & Hs).
    exists r'. split; [|split; [lia|assumption]].
    replace (Source.id s - i) with (S (Source.id s - S i)) by lia.
    exact Hnth.
Qed.

Lemma build_sources_from_sorted cited results : forall i,
  StronglySorted lt (List.map Source.id (build_sources_from i cited results)).
Proof.
  induction results as [|r results IH]; intros i; [constructor|].
  cbn [build_sources_from].
  destruct (bool_decide (N.of_nat i ∈ cited) || (i <=? 3)); [|apply IH].
  cbn [app List.map to_source Source.id]. constructor; [apply IH|].
  apply List.Forall_forall. intros j Hj.
  apply build_sources_from_ids in Hj. lia.
Qed.

End SourcesFacts.

Section SourcesClaim.
Context {U : UnicodeTables}.
Import PostExplainer Spec.

(** C5 (amended). For every list of search results and every response
    text in which no citation marker is a numeral that the interpreter
    refuses to convert (longer than its limit, 4300 digits unless set
    otherwise), the cited-source filter includes the i-th (1-indexed)
    result as a Source exactly when i occurs as a citation marker in the
    text or i <= 3; it preserves the order of the results; every Source
    carries the title and the url of its result and the snippet cut to
    its first 200 characters (no snippet when the result has an empty
    one). When a marker is such a numeral the filter raises the error of
    the conversion and returns nothing. On 5 results and a text whose
    only marker is [2] the sources are those numbered 1, 2, 3. *)
Theorem build_sources_cited_or_top3 :
  forall (E : Env) (search_results : list SearchResult.t) (response : pystr),
    match _build_sources E search_results response with
    | Ok sources =>
        (forall digits n, marker_at digits response -> writes digits n ->
                          ~ too_long E digits)
        /\ (forall i, In i (List.map Source.id sources)
                      <-> 1 <= i <= length search_results
                          /\ (has_marker (N.of_nat i) response \/ i <= 3))
        /\ StronglySorted lt (List.map Source.id sources)
        /\ (forall s, In s sources ->
              exists r, nth_error search_results (Source.id s - 1) = Some r
                        /\ Source.title s = SearchResult.title r
                        /\ Source.url s = SearchResult.url r
                        /\ match Source.snippet s with
                           | Some text =>
                               text = firstn 200 (SearchResult.snippet r)
                               /\ length text <= 200
                           | None => SearchResult.snippet r = []
                           end)
    | Raise e =>
        exists digits n,
          marker_at digits response /\ writes digits n
          /\ too_long E digits /\ e = int_limit_error E (length digits)
    end
    /\ (forall r1 r2 r3 r4 r5,
          exists sources,
            _build_sources E [r1; r2; r3; r4; r5] Examples.reply_citing_2
            = Ok sources
            /\ List.map Source.id sources = [1; 2; 3]).
Proof.
  intros E search_results response. split.
  - unfold _build_sources.
    pose proof (citations_spec E response) as Hc.
    destruct (citations E response) as [cited|e]; [|exact Hc].
    destruct Hc as [Hcited Hshort].
    split; [exact Hshort|]. split; [|split].
    + intros i. rewrite build_sources_from_ids, Hcited.
      split; intros [Hi Hm]; (split; [lia|exact Hm]).
    + apply build_sources_from_sorted.
    + intros s Hs. apply build_sources_from_elem in Hs as (r & Hnth & _ & Hs).
      exists r. split; [assumption|]. rewrite Hs. cbn [to_source Source.title
        Source.url Source.snippet]. split; [reflexivity|]. split; [reflexivity|].
      destruct (short_snippet (SearchResult.snippet r)) as [text|] eqn:Hsn.
      * apply short_snippet_spec in Hsn. tauto.
      * now apply short_snippet_none.
  - intros r1 r2 r3 r4 r5. unfold _build_sources, citations.
    replace (Re.findall match_citation Examples.reply_citing_2)
      with [lit "2"] by (vm_compute; reflexivity).
    cbn [ints]. unfold int. cbn [length lit Nat.ltb Nat.leb andb].
    eexists. split; [reflexivity|]. vm_compute. reflexivity.
Qed.

End SourcesClaim.

(** C5, as stated, fails on a reply that holds a marker of 4301 digits:
    under the default limit of the interpreter the conversion raises, and
    the filter returns no source at all, where the claim gives the
    sources of the two results. *)
Lemma build_sources_stated_counterexample :
  let E := Examples.demo true true in
  let response := lit "[" ++ repeat 49%N 4301 ++ lit "]" in
  @PostExplainer._build_sources E ascii_only
     [Examples.result_a; Examples.result_b] response
  = Raise (int_limit_error E 4301)
  /\ exists digits n,
       @Spec.marker_at digits response /\ @Spec.writes ascii_only digits n.
Proof.
  intros E response. split; [vm_compute; reflexivity|].
  exists (repeat 49%N 4301),
         (@PostExplainer.int_value ascii_only (repeat 49%N 4301)).
  split; [now exists [], []|].
  apply int_value_writes; [discriminate|].
  apply forallb_forall. intros c Hc. apply repeat_spec in Hc. now subst c.
Qed.

(** Markers beyond the third result: on 5 results, a text that cites [5]
    and [4] gives all five sources, and a text that cites [5] alone gives
    the sources numbered 1, 2, 3 and 5. *)
Example build_sources_beyond_top3 :
  let E := Examples.demo true true in
  let results := [Examples.result_a; Examples.result_b; Examples.result_c;
                  Examples.result_a; Examples.result_b] in
  (exists sources,
     @PostExplainer._build_sources E ascii_only results
        (lit "cited [5] and [4]") = Ok sources
     /\ List.map Source.id sources = [1; 2; 3; 4; 5])
  /\ (exists sources,
        @PostExplainer._build_sources E ascii_only results
           (lit "only the last one [5]") = Ok sources
        /\ List.map Source.id sources = [1; 2; 3; 5]).
Proof.
  intros E results.
  split; eexists; split; vm_compute; reflexivity.
Qed.

(** ** The query extractor *)

Section QueryFacts.
Context {U : UnicodeTables}.
Import QueryExtractor Spec.

Lemma dedup_inv_init : dedup_inv (∅, []).
Proof.
  split; [|split].
  - intros x. simpl. split; [|contradiction]. intros H. now apply not_elem_of_empty in H.
  - constructor.
  - intros q [].
Qed.

Lemma dedup_step_inv st q : dedup_inv st -> dedup_inv (dedup_step st q).
Proof.
  destruct st as [seen uq]. intros (Hseen & Hnd & Hlen). unfold dedup_step.
  fold (normalized q).
  destruct (bool_decide (normalized q ∉ seen) && (3 <? length (normalized q)))
    eqn:Hkeep; [|exact (conj Hseen (conj Hnd Hlen))].
  apply andb_true_iff in Hkeep as [Hnew Hlong].
  apply bool_decide_eq_true in Hnew. apply Nat.ltb_lt in Hlong.
  unfold dedup_inv. cbn [fst snd] in *. split; [|split].
  - intros x. rewrite List.map_app, in_app_iff, elem_of_union, elem_of_singleton.
    rewrite Hseen. simpl. intuition congruence.
  - rewrite List.map_app. simpl. apply List.NoDup_app.
    + assumption.
    + constructor; [intros []|constructor].
    + intros x Hx [<- | []]. now apply Hnew, Hseen.
  - intros q' [Hq' | [<- | []]]%in_app_iff; [now apply Hlen|assumption].
Qed.

(** The queries kept grow at the end only, come from the list that is
    processed, and cover every query of that list that is long enough. *)
Lemma dedup_fold qs : forall st,
  dedup_inv st ->
  dedup_inv (fold_left dedup_step qs st)
  /\ (exists extra, snd (fold_left dedup_step qs st) = snd st ++ extra
                    /\ forall q, In q extra -> In q qs)
  /\ (forall q, In q qs -> 3 < length (normalized q) ->
        In (normalized q)
           (List.map normalized (snd (fold_left dedup_step qs st)))).
Proof.
  induction qs as [|q qs IH]; intros st Hinv.
  - simpl. split; [assumption|]. split; [|intros q []].
    exists []. split; [now rewrite app_nil_r|intros q []].
  - cbn [fold_left].
    destruct (IH (dedup_step st q) (dedup_step_inv st q Hinv))
      as (Hinv' & (extra & Hextra & Hfrom) & Hcover).
    split; [assumption|]. split.
    + assert (Hstep : exists e1, snd (dedup_step st q) = snd st ++ e1
                               /\ forall x, In x e1 -> x = q).
      { destruct st as [seen uq]. unfold dedup_step.
        destruct (bool_decide _ && _).
        - exists [q]. split; [reflexivity|]. intros x [<- | []]. reflexivity.
        - exists []. split; [now rewrite app_nil_r|intros x []]. }
      destruct Hstep as (e1 & He1 & Hq).
      exists (e1 ++ extra). rewrite Hextra, He1, <- app_assoc.
      split; [reflexivity|].
      intros x [Hx | Hx]%in_app_iff; [left; symmetry; now apply Hq|right; now apply Hfrom].
    + intros x [<- | Hx] Hlong; [|now apply Hcover].
      rewrite Hextra, List.map_app, in_app_iff. left.
      destruct st as [seen uq]. destruct Hinv as (Hseen & _ & _).
      unfold dedup_step. fold (normalized q).
      destruct (bool_decide (normalized q ∉ seen)) eqn:Hnew; simpl.
      * apply Nat.ltb_lt in Hlong. rewrite Hlong. simpl.
        rewrite List.map_app, in_app_iff. right. now left.
      * apply bool_decide_eq_false in Hnew. apply Hseen.
        destruct (decide (normalized q ∈ seen)); [assumption|contradiction].
Qed.

Lemma dedup_spec qs :
  List.NoDup (List.map normalized (dedup qs))
  /\ (forall q, In q (dedup qs) -> In q qs /\ 3 < length (normalized q))
  /\ (dedup qs = [] -> forall q, In q qs -> length (normalized q) <= 3).
Proof.
  unfold dedup.
  destruct (dedup_fold qs (∅, []) dedup_inv_init)
    as ((_ & Hnd & Hlen) & (extra & Hextra & Hfrom) & Hcover).
  split; [assumption|]. split.
  - intros q Hq. split; [|now apply Hlen].
    rewrite Hextra in Hq. now apply Hfrom.
  - intros Hnil q Hq.
    destruct (Nat.le_gt_cases (length (normalized q)) 3) as [|Hlong]; [assumption|].
    specialize (Hcover q Hq Hlong). rewrite Hnil in Hcover. contradiction.
Qed.

Lemma NoDup_firstn {A} n (l : list A) : List.NoDup l -> List.NoDup (firstn n l).
Proof.
  intros H. rewrite <- (firstn_skipn n l) in H.
  now apply List.NoDup_app_remove_r in H.
Qed.

(** *** The fuel of the capitalized-phrase matcher *)

Lemma cap_word_app s w rest :
  cap_word s = Some (w, rest) -> s = w ++ rest /\ 2 <= length w.
Proof.
  unfold cap_word. destruct s as [|c s]; [discriminate|].
  destruct (is_upper_az c); [|discriminate].
  destruct (span is_lower_az s) as [[|l low] rest'] eqn:Hs; [discriminate|].
  intros [= <- <-]. apply span_app in Hs. rewrite Hs. split; [reflexivity|].
  simpl. lia.
Qed.

(** Any fuel that is at least the length of the text gives the same
    repetitions: the matcher never stops for lack of fuel. *)
Lemma cap_reps_fuel n : forall m matched s,
  length s <= n -> length s <= m ->
  cap_reps n matched s = cap_reps m matched s.
Proof.
  induction n as [|n IH]; intros m matched s Hn Hm.
  - destruct s; [|simpl in Hn; lia]. now destruct m.
  - destruct m as [|m].
    + destruct s; [reflexivity|simpl in Hm; lia].
    + cbn [cap_reps].
      destruct (span isspace s) as [[|c ws] rest] eqn:Hs; [reflexivity|].
      destruct (cap_word rest) as [[w rest']|] eqn:Hw; [|reflexivity].
      apply span_app in Hs. apply cap_word_app in Hw as [Hw Hlen].
      assert (length rest' + 3 <= length s).
      { rewrite Hs, Hw. simpl. rewrite !length_app. lia. }
      f_equal. apply IH; lia.
Qed.

Lemma In_firstn_inv {A} n (l : list A) x : In x (firstn n l) -> In x l.
Proof.
  intros H. rewrite <- (firstn_skipn n l). apply in_app_iff. now left.
Qed.

End QueryFacts.

Section QueryClaim.
Context {U : UnicodeTables}.
Import QueryExtractor Spec.

(** C9 (amended). For every input string the query extractor returns 1
    to 3 queries, no two of them the same after lower-casing and trimming;
    every query returned is one of the candidates and is longer than 3
    characters after lower-casing and trimming, unless no candidate is, in
    which case the single query returned is the first 200 characters of
    the trimmed input, whatever its length. *)
Theorem extract_search_queries_contract :
  forall post_text : pystr,
    let out := extract_search_queries post_text in
    1 <= length out <= 3
    /\ List.NoDup (List.map normalized out)
    /\ ((forall q, In q out ->
           In q (candidates (strip post_text)) /\ 3 < length (normalized q))
        \/ (out = [firstn 200 (strip post_text)]
            /\ forall q, In q (candidates (strip post_text)) ->
                         length (normalized q) <= 3)).
Proof.
  intros post_text out. unfold out, extract_search_queries.
  destruct (dedup_spec (candidates (strip post_text))) as (Hnd & Hin & Hnil).
  destruct (dedup (candidates (strip post_text))) as [|q qs] eqn:Hd.
  - cbn [truthy_list]. split; [simpl; lia|]. split.
    + simpl. constructor; [intros []|constructor].
    + right. split; [reflexivity|]. now apply Hnil.
  - cbn [truthy_list]. split; [|split].
    + split; [simpl; lia|]. apply firstn_le_length.
    + rewrite <- firstn_map. now apply NoDup_firstn.
    + left. intros x Hx. apply Hin. revert Hx. apply In_firstn_inv.
Qed.

End QueryClaim.

(** C9, as stated, fails on the empty post and on a short one: the
    fallback returns the trimmed input itself, which is empty or not
    longer than 3 characters. *)
Lemma extract_search_queries_counterexample :
  @QueryExtractor.extract_search_queries ascii_only [] = [[]]
  /\ @QueryExtractor.extract_search_queries ascii_only (lit "hi") = [lit "hi"]
  /\ ~ @Spec.extract_contract_stated ascii_only
         (@QueryExtractor.extract_search_queries ascii_only [])
  /\ ~ @Spec.extract_contract_stated ascii_only
         (@QueryExtractor.extract_search_queries ascii_only (lit "hi")).
Proof.
  split; [reflexivity|]. split; [reflexivity|]. split.
  - intros (_ & H & _). destruct (H [] (or_introl eq_refl)) as [Hne _].
    now apply Hne.
  - intros (_ & H & _). destruct (H (lit "hi") (or_introl eq_refl)) as [_ Hlen].
    vm_compute in Hlen. lia.
Qed.

(** ** The search orchestrator: ranking *)

Section RankFacts.
Variable E : Env.
Import SearchService Spec.

Lemma filter_filter_comm {A} (f g : A -> bool) l :
  List.filter f (List.filter g l) = List.filter (fun x => g x && f x) l.
Proof.
  induction l as [|x l IH]; [reflexivity|]. simpl.
  destruct (g x); simpl; [destruct (f x)|]; now rewrite IH.
Qed.

Lemma filter_true {A} (l : list A) : List.filter (fun _ => true) l = l.
Proof. induction l; simpl; congruence. Qed.

(** The loop run from a state [(seen, unique)] appends the first
    occurrences of the URLs not yet seen. *)
Lemma dedup_fold_spec all : forall seen unique,
  snd (fold_left dedup_step all (seen, unique))
  = unique
    ++ List.filter (fun x => bool_decide (SearchResult.url x ∉ seen))
                   (keep_first_by_url all).
Proof.
  induction all as [|r all IH]; intros seen unique.
  - simpl. now rewrite app_nil_r.
  - cbn [fold_left keep_first_by_url List.filter]. unfold dedup_step at 2.
    destruct (bool_decide (SearchResult.url r ∉ seen)) eqn:Hnew.
    + rewrite IH, <- app_assoc. cbn [app]. do 2 f_equal.
      rewrite filter_filter_comm. apply filter_ext. intros x.
      destruct (str_eqb (SearchResult.url x) (SearchResult.url r)) eqn:Heq.
      * apply str_eqb_eq in Heq. rewrite Heq. simpl.
        apply bool_decide_eq_false. intros Hn. apply Hn.
        apply elem_of_union. left. now apply elem_of_singleton.
      * simpl. apply bool_decide_ext. rewrite not_elem_of_union, not_elem_of_singleton.
        split; [tauto|]. intros H. split; [|assumption].
        intros Hx. rewrite Hx in Heq.
        assert (str_eqb (SearchResult.url r) (SearchResult.url r) = true)
          by now apply str_eqb_eq.
        congruence.
    + rewrite IH. f_equal.
      rewrite filter_filter_comm. apply filter_ext. intros x.
      destruct (str_eqb (SearchResult.url x) (SearchResult.url r)) eqn:Heq;
        [|reflexivity].
      apply str_eqb_eq in Heq. rewrite Heq. simpl. now rewrite Hnew.
Qed.

Lemma dedup_keep_first all : dedup all = keep_first_by_url all.
Proof.
  unfold dedup. rewrite dedup_fold_spec. cbn [app].
  rewrite <- (filter_true (keep_first_by_url all)) at 2.
  apply filter_ext. intros x. apply bool_decide_eq_true. apply not_elem_of_empty.
Qed.

Lemma NoDup_map_filter {A B} (f : A -> B) (p : A -> bool) l :
  List.NoDup (List.map f l) -> List.NoDup (List.map f (List.filter p l)).
Proof.
  induction l as [|x l IH]; simpl; intros H; [constructor|].
  inversion H as [|? ? Hx Hl]; subst.
  destruct (p x); [|now apply IH]. simpl. constructor; [|now apply IH].
  intros Hin. apply Hx. apply in_map_iff in Hin as (y & Hy & Hin).
  apply filter_In in Hin as [Hin _]. apply in_map_iff. now exists y.
Qed.

Lemma keep_first_NoDup all :
  List.NoDup (List.map SearchResult.url (keep_first_by_url all)).
Proof.
  induction all as [|r all IH]; simpl; constructor.
  - intros Hin. apply in_map_iff in Hin as (y & Hy & Hin).
    apply filter_In in Hin as [_ Hne].
    assert (str_eqb (SearchResult.url y) (SearchResult.url r) = true)
      by now apply str_eqb_eq.
    rewrite H in Hne. discriminate.
  - now apply NoDup_map_filter.
Qed.

Lemma keep_first_In all r :
  In r (keep_first_by_url all) -> In r all.
Proof.
  induction all as [|x all IH]; simpl; [tauto|].
  intros [-> | Hin]; [now left|]. right. apply IH.
  now apply filter_In in Hin as [Hin _].
Qed.

Lemma keep_first_covers all r :
  In r all ->
  exists r', In r' (keep_first_by_url all)
             /\ SearchResult.url r' = SearchResult.url r.
Proof.
  induction all as [|x all IH]; simpl; [tauto|].
  intros [-> | Hin]; [exists r; now split; [left|]|].
  destruct (IH Hin) as (r' & Hr' & Hurl).
  destruct (str_eqb (SearchResult.url r') (SearchResult.url x)) eqn:Heq.
  - apply str_eqb_eq in Heq. exists x. split; [now left|congruence].
  - exists r'. split; [|assumption]. right. apply filter_In.
    split; [assumption|]. now rewrite Heq.
Qed.

(** *** The sort *)

(** The key of the program and the score of the specification. *)
Lemma sort_key_nan x :
  Score.is_nan (sort_key x) = true <-> SearchResult.score x = Some Score.NaN.
Proof.
  unfold sort_key. destruct (SearchResult.score x) as [[q|p|]|]; cbn;
    try destruct (negb (Qeq_bool q 0)); cbn; split; congruence.
Qed.

Lemma ltb_false_ge x y :
  SearchResult.score x <> Some Score.NaN ->
  SearchResult.score y <> Some Score.NaN ->
  Score.ltb (sort_key x) (sort_key y) = false -> key_ge x y.
Proof.
  unfold key_ge, score_or_zero, sort_key, score_le.
  destruct (SearchResult.score x) as [[p|[|]|]|],
           (SearchResult.score y) as [[q|[|]|]|];
    cbn; intros Hx Hy; try congruence; try tauto;
    repeat match goal with
           | |- context [Qeq_bool ?a 0] =>
               let H := fresh "Hz" in
               destruct (Qeq_bool a 0) eqn:H;
               [apply Qeq_bool_iff in H|apply Qeq_bool_neq in H]; cbn
           end;
    try discriminate; try tauto;
    rewrite ?negb_false_iff; try (intros Hle; apply Qle_bool_iff in Hle; lra).
Qed.

Lemma ltb_true_lt x y :
  Score.ltb (sort_key x) (sort_key y) = true ->
  key_ge y x
  /\ forall k, same_score (score_or_zero x) k = true ->
               same_score (score_or_zero y) k = true -> False.
Proof.
  assert (Hlt : forall a b : Q, negb (Qle_bool b a) = true -> (a < b)%Q).
  { intros a b H. apply negb_true_iff in H. apply Qnot_le_lt. intros Hle.
    apply Qle_bool_iff in Hle. congruence. }
  unfold key_ge, score_or_zero, sort_key, score_le.
  destruct (SearchResult.score x) as [[p|[|]|]|],
           (SearchResult.score y) as [[q|[|]|]|];
    cbn;
    repeat match goal with
           | |- context [Qeq_bool ?a 0] =>
               let H := fresh "Hz" in
               destruct (Qeq_bool a 0) eqn:H;
               [apply Qeq_bool_iff in H|apply Qeq_bool_neq in H]; cbn
           end;
    try discriminate; intros H; try apply Hlt in H;
    (split; [try tauto; try lra|]);
    intros [k|[|]|]; cbn; try discriminate;
    intros H1 H2; try apply Qeq_bool_iff in H1; try apply Qeq_bool_iff in H2;
    lra.
Qed.

Lemma score_le_trans a b c : score_le a b -> score_le b c -> score_le a c.
Proof.
  destruct a as [p|[|]|], b as [q|[|]|], c as [r|[|]|]; cbn;
    try tauto; try congruence; try (intros; lra).
  all: try (intros H1 H2 H; specialize (H1 H); discriminate).
Qed.

Lemma insert_desc_perm x l : Permutation (insert_desc x l) (x :: l).
Proof.
  induction l as [|y l IH]; simpl; [reflexivity|].
  destruct (Score.ltb (sort_key x) (sort_key y)); [|reflexivity].
  rewrite IH. apply perm_swap.
Qed.

Lemma insertion_perm l : Permutation (fold_right insert_desc [] l) l.
Proof.
  induction l as [|x l IH]; simpl; [reflexivity|].
  rewrite insert_desc_perm. now constructor.
Qed.

Lemma sort_desc_perm l : Permutation (sort_desc E l) l.
Proof.
  unfold sort_desc. destruct (existsb _ l);
    [apply sort_inconsistent_perm|apply insertion_perm].
Qed.

Lemma insert_desc_sorted x l :
  no_nan_score (x :: l) ->
  StronglySorted key_ge l -> StronglySorted key_ge (insert_desc x l).
Proof.
  induction l as [|y l IH]; simpl; intros Hn Hs.
  - constructor; [constructor|constructor].
  - inversion Hs as [|? ? Hl Hy]; subst.
    assert (Hnx : SearchResult.score x <> Some Score.NaN)
      by (apply Hn; now left).
    assert (Hny : SearchResult.score y <> Some Score.NaN)
      by (apply Hn; right; now left).
    destruct (Score.ltb (sort_key x) (sort_key y)) eqn:Hlt.
    + apply ltb_true_lt in Hlt as [Hge _].
      constructor.
      * apply IH; [|assumption]. intros r [<- | Hr]; apply Hn;
          [now left|right; now right].
      * apply List.Forall_forall. intros z Hz.
        apply (Permutation_in _ (insert_desc_perm x l)) in Hz.
        destruct Hz as [<- | Hz]; [exact Hge|].
        rewrite List.Forall_forall in Hy. now apply Hy.
    + apply (ltb_false_ge x y Hnx Hny) in Hlt.
      constructor; [assumption|]. constructor; [exact Hlt|].
      eapply List.Forall_impl; [|exact Hy]. intros z Hz. unfold key_ge in *.
      now apply score_le_trans with (score_or_zero y).
Qed.

Lemma no_nan_keys l :
  no_nan_score l -> existsb (fun x => Score.is_nan (sort_key x)) l = false.
Proof.
  intros Hn. apply not_true_is_false. intros Hex.
  apply existsb_exists in Hex as (x & Hx & Hnan).
  apply sort_key_nan in Hnan. now apply (Hn x).
Qed.

Lemma sort_desc_insertion l :
  no_nan_score l -> sort_desc E l = fold_right insert_desc [] l.
Proof. intros Hn. unfold sort_desc. now rewrite no_nan_keys. Qed.

Lemma sort_desc_sorted l :
  no_nan_score l -> StronglySorted key_ge (sort_desc E l).
Proof.
  intros Hn. rewrite sort_desc_insertion by assumption.
  induction l as [|x l IH]; simpl; [constructor|].
  apply insert_desc_sorted.
  - intros r [<- | Hr]; [apply Hn; now left|].
    apply Hn. right. now apply (Permutation_in _ (insertion_perm l)).
  - apply IH. intros r Hr. apply Hn. now right.
Qed.

(** Inserting passes only elements with a strictly greater key, so the
    elements of one score keep their order. *)
Lemma insert_desc_with_key k x l :
  with_key k (insert_desc x l) = with_key k (x :: l).
Proof.
  unfold with_key. induction l as [|y l IH]; [reflexivity|].
  cbn [insert_desc].
  destruct (Score.ltb (sort_key x) (sort_key y)) eqn:Hlt; [|reflexivity].
  apply ltb_true_lt in Hlt as [_ Hne].
  cbn [List.filter] in *. rewrite IH.
  destruct (same_score (score_or_zero x) k) eqn:Hx; [|reflexivity].
  destruct (same_score (score_or_zero y) k) eqn:Hy; [|reflexivity].
  exfalso. exact (Hne k Hx Hy).
Qed.

Lemma sort_desc_stable k l :
  no_nan_score l -> with_key k (sort_desc E l) = with_key k l.
Proof.
  intros Hn. rewrite sort_desc_insertion by assumption. clear Hn.
  induction l as [|x l IH]; [reflexivity|].
  cbn [fold_right]. rewrite insert_desc_with_key.
  unfold with_key in *. cbn [List.filter]. now rewrite IH.
Qed.

(** *** The slice *)

Lemma slice_to_nonneg {A} n (l : list A) :
  (0 <= n)%Z -> slice_to n l = firstn (Z.to_nat n) l.
Proof. intros H. unfold slice_to. apply Z.leb_le in H. now rewrite H. Qed.

Lemma slice_to_neg {A} n (l : list A) :
  (n < 0)%Z -> slice_to n l = firstn (length l - Z.to_nat (- n)) l.
Proof. intros H. unfold slice_to. apply Z.leb_gt in H. now rewrite H. Qed.

Lemma slice_to_length {A} n (l : list A) :
  (0 <= n)%Z -> (Z.of_nat (length (slice_to n l)) <= n)%Z.
Proof.
  intros H. rewrite slice_to_nonneg by assumption.
  pose proof (firstn_le_length (Z.to_nat n) l). lia.
Qed.

Lemma slice_to_firstn {A} n (l : list A) :
  exists k, slice_to n l = firstn k l.
Proof. unfold slice_to. destruct (0 <=? n)%Z; eauto. Qed.

Lemma StronglySorted_firstn {A} (R : A -> A -> Prop) n l :
  StronglySorted R l -> StronglySorted R (firstn n l).
Proof.
  revert n. induction l as [|x l IH]; intros [|n] Hs; simpl; try constructor.
  - inversion Hs; subst. now apply IH.
  - inversion Hs as [|? ? _ Hx]; subst.
    apply List.Forall_forall. intros y Hy.
    rewrite List.Forall_forall in Hx. apply Hx.
    rewrite <- (firstn_skipn n l). apply in_app_iff. now left.
Qed.

End RankFacts.

Section RankClaim.
Import SearchService Spec.

(** C4 (amended). For every accumulation of provider results: the
    results are deduplicated by exact URL equality, the first occurrence
    of each URL being kept, and the sequence returned holds no URL twice.
    When no score is NaN they are then sorted in descending order of
    score, a missing score counting as 0, and results of equal score keep
    the order they had before the sort. The sequence returned is the
    slice of that sequence up to the configured maximum: when the maximum
    is not negative, its first results, no more of them than the maximum;
    when it is negative, all but its last results, as many as the
    maximum is below zero. *)
Theorem rank_dedup_sort_truncate :
  forall (E : Env) (all_results : list SearchResult.t),
    let unique := dedup all_results in
    let sorted := sort_desc E unique in
    let out := rank E all_results in
    unique = keep_first_by_url all_results
    /\ List.NoDup (List.map SearchResult.url unique)
    /\ (forall r, In r unique -> In r all_results)
    /\ (forall r, In r all_results ->
          exists r', In r' unique /\ SearchResult.url r' = SearchResult.url r)
    /\ Permutation sorted unique
    /\ (no_nan_score all_results ->
        StronglySorted key_ge sorted
        /\ (forall k, with_key k sorted = with_key k unique)
        /\ StronglySorted key_ge out)
    /\ ((0 <= max_search_results E)%Z ->
        out = firstn (Z.to_nat (max_search_results E)) sorted
        /\ (Z.of_nat (length out) <= max_search_results E)%Z)
    /\ ((max_search_results E < 0)%Z ->
        out = firstn (length sorted - Z.to_nat (- max_search_results E))
                     sorted)
    /\ List.NoDup (List.map SearchResult.url out).
Proof.
  intros E all_results unique sorted out.
  assert (Hu : unique = keep_first_by_url all_results)
    by apply dedup_keep_first.
  assert (Hnd : List.NoDup (List.map SearchResult.url unique))
    by (rewrite Hu; apply keep_first_NoDup).
  assert (Hin : forall r, In r unique -> In r all_results)
    by (intros r; rewrite Hu; apply keep_first_In).
  split; [exact Hu|]. split; [exact Hnd|]. split; [exact Hin|].
  split; [intros r; rewrite Hu; apply keep_first_covers|].
  split; [apply (sort_desc_perm E)|].
  split; [|split; [|split]].
  - intros Hn.
    assert (Hnu : no_nan_score unique) by (intros r Hr; apply Hn, Hin, Hr).
    split; [now apply (sort_desc_sorted E)|].
    split; [intros k; now apply (sort_desc_stable E)|].
    unfold out, rank. cbv zeta.
    destruct (slice_to_firstn (max_search_results E)
                (sort_desc E (dedup all_results))) as [k Hk].
    rewrite Hk. apply StronglySorted_firstn, (sort_desc_sorted E). exact Hnu.
  - intros Hmax. split.
    + unfold out, rank. now apply slice_to_nonneg.
    + unfold out, rank. now apply slice_to_length.
  - intros Hmax. unfold out, rank. now apply slice_to_neg.
  - unfold out, rank. cbv zeta.
    destruct (slice_to_firstn (max_search_results E)
                (sort_desc E (dedup all_results))) as [k Hk].
    rewrite Hk, <- firstn_map. apply NoDup_firstn.
    apply (Permutation_NoDup (l := List.map SearchResult.url unique));
      [|exact Hnd].
    apply Permutation_map. symmetry. apply (sort_desc_perm E).
Qed.

End RankClaim.

(** The theorem on the demo configuration, whose maximum is 8 and whose
    results have finite scores. *)
Lemma rank_dedup_sort_truncate_witness :
  let E := Examples.demo true true in
  let all_results := [Examples.result_b; Examples.result_c; Examples.result_a;
                      Examples.result_c] in
  Spec.no_nan_score all_results
  /\ (0 <= max_search_results E)%Z
  /\ StronglySorted Spec.key_ge (SearchService.rank E all_results)
  /\ SearchService.rank E all_results
     = firstn 8 (SearchService.sort_desc E (SearchService.dedup all_results)).
Proof.
  intros E all_results.
  assert (Hn : Spec.no_nan_score all_results).
  { intros r [<- | [<- | [<- | [<- | []]]]]; discriminate. }
  assert (H : (0 <= max_search_results E)%Z) by (simpl; lia).
  destruct (rank_dedup_sort_truncate E all_results)
    as (_ & _ & _ & _ & _ & Hsorted & Hpos & _).
  split; [exact Hn|]. split; [exact H|].
  split; [exact (proj2 (proj2 (Hsorted Hn)))|exact (proj1 (Hpos H))].
Defined.

(** The order of the example: by descending score, the result without
    score last, the repeated URL once. *)
Example rank_example :
  SearchService.rank (Examples.demo true true)
    [Examples.result_b; Examples.result_c; Examples.result_a;
     Examples.result_c]
  = [Examples.result_a; Examples.result_c; Examples.result_b].
Proof. vm_compute. reflexivity. Qed.

(** C4, as stated, fails for a negative maximum: the slice then drops
    results from the end, and the length of what is returned, here 2,
    exceeds the configured maximum, here -1. *)
Lemma rank_stated_counterexample :
  let E := Examples.with_max (-1) (Examples.demo true true) in
  let out := SearchService.rank E [Examples.result_a; Examples.result_b;
                                   Examples.result_c] in
  out = [Examples.result_a; Examples.result_c]
  /\ ~ (Z.of_nat (length out) <= max_search_results E)%Z.
Proof.
  intros E out. split; [vm_compute; reflexivity|].
  vm_compute. intros H. now apply H.
Qed.

Remark slice_to_negative :
  SearchService.slice_to (-1) [Examples.result_a; Examples.result_b;
                               Examples.result_c]
  = [Examples.result_a; Examples.result_b].
Proof. reflexivity. Qed.

(** ** The search orchestrator: provider calls and failures *)

Section SearchCalls.
Variable E : Env.
Variable n : Z.
Import SearchService Spec.

Lemma primary_provider_call q s :
  primary_provider E q n s = primary_call E n q s.
Proof.
  unfold primary_provider, primary_call, bind, tell, call. simpl.
  destruct (tavily_search E q n (world s)); reflexivity.
Qed.

Lemma fallback_provider_call :
  fallback_provider E
  = if brave_api_key E
    then Some (fun q m s =>
                 let (r, w) := brave_search E q m (world s) in
                 (r, set_world w (add_log (EvSearch true q) s)))
    else None.
Proof. reflexivity. Qed.

(** One turn of the loop, case by case: it never raises. *)
Lemma search_query_cases acc q s :
  search_query E n acc q s =
  match primary_call E n q s with
  | (Ok rs, s1) => (Ok (acc ++ rs), s1)
  | (Raise _, s1) =>
      if brave_api_key E then
        match fallback_call E n q s1 with
        | (Ok rs, s2) => (Ok (acc ++ rs), s2)
        | (Raise _, s2) => (Ok acc, s2)
        end
      else (Ok acc, s1)
  end.
Proof.
  unfold search_query, try_except, bind at 1. rewrite primary_provider_call.
  destruct (primary_call E n q s) as [[rs|e] s1]; [reflexivity|].
  unfold fallback_provider, fallback_call.
  destruct (brave_api_key E); [|reflexivity].
  unfold bind, tell, call, ret. simpl.
  destruct (brave_search E q n (world s1)) as [[rs|e'] w]; reflexivity.
Qed.

(** The loop handles the queries as the specification words it, and
    ends with the results found appended to the ones it started with. *)
Lemma search_loop_handled queries : forall acc s,
  exists found s',
    search_loop E n queries acc s = (Ok (acc ++ found), s')
    /\ handled E n queries s found s'.
Proof.
  induction queries as [|q queries IH]; intros acc s.
  - exists [], s. split; [simpl; unfold ret; now rewrite app_nil_r|constructor].
  - cbn [search_loop]. unfold bind. rewrite search_query_cases.
    destruct (primary_call E n q s) as [[rs|e] s1] eqn:Hp.
    + destruct (IH (acc ++ rs) s1) as (found & s' & Hloop & Hh).
      exists (rs ++ found), s'. rewrite Hloop, app_assoc.
      split; [reflexivity|]. now apply handled_primary with s1.
    + destruct (brave_api_key E) eqn:Hb.
      * destruct (fallback_call E n q s1) as [[rs|e'] s2] eqn:Hf.
        -- destruct (IH (acc ++ rs) s2) as (found & s' & Hloop & Hh).
           exists (rs ++ found), s'. rewrite Hloop, app_assoc.
           split; [reflexivity|]. now apply handled_fallback with e s1 s2.
        -- destruct (IH acc s2) as (found & s' & Hloop & Hh).
           exists found, s'. rewrite Hloop.
           split; [reflexivity|]. now apply handled_skip_both with e s1 e' s2.
      * destruct (IH acc s1) as (found & s' & Hloop & Hh).
        exists found, s'. rewrite Hloop.
        split; [reflexivity|]. now apply handled_skip_no_fallback with e s1.
Qed.

(** With no fallback and a primary provider that always fails, nothing
    is found, and each query costs exactly one call. *)
Lemma handled_all_fail queries : forall s found s',
  brave_api_key E = false ->
  (forall q w, exists e w', tavily_search E q n w = (Raise e, w')) ->
  handled E n queries s found s' ->
  found = [] /\ log s' = log s ++ List.map (EvSearch false) queries.
Proof.
  intros s found s' Hb Hfail Hh. induction Hh as
    [s | q qs s rs s1 found s' Hp Hh IH
       | q qs s e s1 rs s2 found s' Hp Hk Hf Hh IH
       | q qs s e s1 e' s2 found s' Hp Hk Hf Hh IH
       | q qs s e s1 found s' Hp Hk Hh IH].
  - split; [reflexivity|]. simpl. now rewrite app_nil_r.
  - exfalso. unfold primary_call in Hp.
    destruct (Hfail q (world s)) as (e & w' & Hq). rewrite Hq in Hp.
    discriminate.
  - congruence.
  - congruence.
  - destruct IH as [-> Hlog]. split; [reflexivity|]. rewrite Hlog.
    unfold primary_call in Hp.
    destruct (tavily_search E q n (world s)) as [r w]. injection Hp as _ <-.
    simpl. now rewrite <- app_assoc.
Qed.

Lemma search_never_raises_aux queries s :
  exists found s',
    search E queries n s = (Ok (rank E found), s')
    /\ handled E n queries s found s'.
Proof.
  destruct (search_loop_handled queries [] s) as (found & s' & Hloop & Hh).
  exists found, s'. split; [|exact Hh]. unfold search, bind. now rewrite Hloop.
Qed.

End SearchCalls.

Section SearchClaim.
Import SearchService Spec.

(** C2. For every list of queries the search orchestrator handles each
    query on its own: it calls the primary provider; when that call fails
    and a fallback provider is configured it calls the fallback for the
    same query; when both fail the query is skipped. The call never
    raises: it returns the ranked results of the calls that succeeded. In
    particular, when the primary provider raises for every query and no
    fallback is configured, the call returns the empty sequence, after one
    primary call per query. *)
Theorem search_never_raises :
  forall (E : Env) (queries : list pystr) (max_results_per_query : Z)
         (s : State E),
    exists found s',
      search E queries max_results_per_query s = (Ok (rank E found), s')
      /\ handled E max_results_per_query queries s found s'
      /\ (brave_api_key E = false ->
          (forall q w, exists e w',
              tavily_search E q max_results_per_query w = (Raise e, w')) ->
          search E queries max_results_per_query s = (Ok [], s')
          /\ log s' = log s ++ List.map (EvSearch false) queries).
Proof.
  intros E queries n s.
  destruct (search_never_raises_aux E n queries s) as (found & s' & Hs & Hh).
  exists found, s'. split; [exact Hs|]. split; [exact Hh|].
  intros Hb Hfail.
  destruct (handled_all_fail E n queries s found s' Hb Hfail Hh) as [-> Hlog].
  split; [|exact Hlog]. rewrite Hs. unfold rank, slice_to.
  change (sort_desc E (dedup [])) with (@nil SearchResult.t).
  destruct (0 <=? max_search_results E)%Z; now rewrite firstn_nil.
Qed.

End SearchClaim.

(** In the demo world without search, two queries give no result and two
    primary calls. *)
Lemma search_never_raises_witness :
  let E := Examples.demo false true in
  let s := Examples.fresh E 0%Z in
  brave_api_key E = false
  /\ (forall q w, exists e w', tavily_search E q 5 w = (Raise e, w'))
  /\ fst (SearchService.search E [lit "first query"; lit "second"] 5 s) = Ok []
  /\ log (snd (SearchService.search E [lit "first query"; lit "second"] 5 s))
     = [EvSearch false (lit "first query"); EvSearch false (lit "second")].
Proof.
  intros E s.
  assert (Hb : brave_api_key E = false) by reflexivity.
  assert (Hfail : forall q w, exists e w', tavily_search E q 5 w = (Raise e, w'))
    by (intros q w; simpl; eauto).
  split; [exact Hb|]. split; [exact Hfail|].
  destruct (search_never_raises E [lit "first query"; lit "second"] 5 s)
    as (found & s' & _ & _ & Hparticular).
  destruct (Hparticular Hb Hfail) as [Hs Hlog].
  rewrite Hs. split; [reflexivity|exact Hlog].
Defined.

(** ** The cache and the pipeline *)

Section ExplainFacts.
Variable E : Env.
Context {U : UnicodeTables}.
Import PostExplainer.

Lemma get_hit text s v ts :
  _cache s !! CacheService._generate_key text = Some (v, ts) ->
  CacheService.expired E (now E (world s)) ts = false ->
  CacheService.get E text s = (Ok (Some v), s).
Proof. intros Hl He. unfold CacheService.get. now rewrite Hl, He. Qed.

(** A lookup that does not hit leaves the cache as it was, less the
    entry under the key, which was absent or expired. *)
Lemma get_miss text s s' :
  CacheService.get E text s = (Ok None, s') ->
  s' = set_cache (delete (CacheService._generate_key text) (_cache s)) s
  /\ (forall v ts,
        _cache s !! CacheService._generate_key text = Some (v, ts) ->
        CacheService.expired E (now E (world s)) ts = true).
Proof.
  unfold CacheService.get.
  destruct (_cache s !! CacheService._generate_key text) as [[v ts]|] eqn:Hl.
  - destruct (CacheService.expired E (now E (world s)) ts) eqn:He;
      [|discriminate].
    intros Heq. injection Heq as <-. split; [reflexivity|].
    intros v' ts' Heq. now injection Heq as _ <-.
  - intros Heq. injection Heq as <-. split; [|discriminate].
    rewrite delete_id by assumption. now destruct s.
Qed.

Lemma get_total text s :
  exists r s', CacheService.get E text s = (Ok r, s').
Proof.
  unfold CacheService.get.
  destruct (_cache s !! CacheService._generate_key text) as [[v ts]|]; [|eauto].
  destruct (CacheService.expired E (now E (world s)) ts); eauto.
Qed.

Lemma process_image_total image_url s :
  exists image_data s',
    process_image E image_url s = (Ok image_data, s')
    /\ _cache s' = _cache s.
Proof.
  unfold process_image. destruct (truthy (or_empty image_url)).
  - unfold bind, tell, call. simpl.
    destruct (prepare_image_for_vision E (or_empty image_url) (world s))
      as [image_data w].
    now exists image_data, (set_world w (add_log (EvImage (or_empty image_url)) s)).
  - now exists None, s.
Qed.

Lemma handled_cache n queries s found s' :
  Spec.handled E n queries s found s' -> _cache s' = _cache s.
Proof.
  assert (Hp : forall q s r s1, Spec.primary_call E n q s = (r, s1) ->
                                _cache s1 = _cache s).
  { intros q s0 r s1. unfold Spec.primary_call.
    destruct (tavily_search E q n (world s0)). now intros [= _ <-]. }
  assert (Hf : forall q s r s1, Spec.fallback_call E n q s = (r, s1) ->
                                _cache s1 = _cache s).
  { intros q s0 r s1. unfold Spec.fallback_call.
    destruct (brave_search E q n (world s0)). now intros [= _ <-]. }
  induction 1 as
    [s | q qs s rs s1 found s' H1 Hh IH
       | q qs s e s1 rs s2 found s' H1 Hk H2 Hh IH
       | q qs s e s1 e' s2 found s' H1 Hk H2 Hh IH
       | q qs s e s1 found s' H1 Hk Hh IH]; [reflexivity|..].
  - rewrite IH. eauto.
  - rewrite IH. erewrite Hf by eassumption. eauto.
  - rewrite IH. erewrite Hf by eassumption. eauto.
  - rewrite IH. eauto.
Qed.

Lemma search_total queries n s :
  exists results s',
    SearchService.search E queries n s = (Ok results, s')
    /\ _cache s' = _cache s.
Proof.
  destruct (search_never_raises_aux E n queries s) as (found & s' & Hs & Hh).
  exists (SearchService.rank E found), s'. split; [exact Hs|].
  now apply handled_cache in Hh.
Qed.

(** The call of the model, spelled out. *)
Lemma generate_cases prompt image_data s :
  LLMService.generate E prompt image_data s =
  let (r, w) := openai_create E prompt image_data (world s) in
  (match r with
   | Ok content => Ok (match content with Some text => text | None => [] end)
   | Raise e => Raise e
   end, set_world w (add_log (EvGenerate prompt) s)).
Proof.
  unfold LLMService.generate, OpenAIProvider.generate, bind, tell, try_except,
    call, ret, raise. simpl.
  destruct (openai_create E prompt image_data (world s)) as [[content|e] w];
    reflexivity.
Qed.

Lemma generate_cache prompt image_data s r s' :
  LLMService.generate E prompt image_data s = (r, s') -> _cache s' = _cache s.
Proof.
  rewrite generate_cases.
  destruct (openai_create E prompt image_data (world s)) as [r0 w].
  now intros [= _ <-].
Qed.

(** The pipeline is its first part followed by the call of the model and
    the treatment of the reply. *)
Lemma explain_factors post_text image_url use_cache s :
  explain E post_text image_url use_cache s =
  match explain_to_generate E post_text image_url use_cache s with
  | (Ok (Hit response), s1) => (Ok response, s1)
  | (Ok (AtGenerate image_data search_results prompt), s1) =>
      match LLMService.generate E prompt image_data s1 with
      | (Ok raw_response, s2) =>
          explain_from_reply E post_text image_url use_cache search_results
                             raw_response s2
      | (Raise e, s2) => (Raise e, s2)
      end
  | (Raise e, s1) => (Raise e, s1)
  end.
Proof.
  unfold explain, explain_to_generate, explain_from_reply, bind, ret.
  destruct ((if use_cache
             then CacheService.get E (cache_key post_text image_url)
             else fun s => (Ok None, s)) s) as [[[cached|]|e] s0];
    try reflexivity.
  destruct (process_image E image_url s0) as [[image_data|e] s1];
    [|reflexivity].
  destruct (extract_queries E post_text s1) as [[queries|e] s2];
    [|reflexivity].
  destruct (SearchService.search E queries 5 s2) as [[results|e] s3];
    [|reflexivity].
  destruct (LLMService.generate E _ image_data s3) as [[raw|e] s4];
    reflexivity.
Qed.

Lemma extract_queries_eq post_text s :
  extract_queries E post_text s
  = (Ok (QueryExtractor.extract_search_queries post_text),
     add_log (EvExtract post_text) s).
Proof. reflexivity. Qed.

(** The first part of the pipeline never raises. It ends in a hit, with
    the state untouched, exactly when the cache is used and holds an
    entry under the key that is not expired; otherwise it reaches the
    call of the model, and the cache is what it was, less the entry under
    the key when the cache is used. *)
Lemma explain_to_generate_cases post_text image_url use_cache s :
  exists r s1,
    explain_to_generate E post_text image_url use_cache s = (Ok r, s1)
    /\ match r with
       | Hit response =>
           s1 = s /\ use_cache = true
           /\ exists v ts,
               _cache s !! request_key post_text image_url = Some (v, ts)
               /\ CacheService.expired E (now E (world s)) ts = false
               /\ response
                  = ExplainResponse.mk (cv_bullets v) (cv_sources v) true
       | AtGenerate _ _ _ =>
           _cache s1
           = (if use_cache
              then delete (request_key post_text image_url) (_cache s)
              else _cache s)
           /\ (use_cache = true ->
               forall v ts,
                 _cache s !! request_key post_text image_url = Some (v, ts) ->
                 CacheService.expired E (now E (world s)) ts = true)
       end.
Proof.
  unfold explain_to_generate, request_key.
  set (key := cache_key post_text image_url).
  assert (Hmiss : forall s0,
    exists r s1,
      bind (process_image E image_url)
        (fun image_data =>
           bind (extract_queries E post_text)
             (fun queries =>
                bind (SearchService.search E queries 5)
                  (fun search_results =>
                     ret (AtGenerate image_data search_results
                            (Prompts.build_explanation_prompt
                               post_text search_results))))) s0
      = (Ok r, s1)
      /\ _cache s1 = _cache s0
      /\ exists i rs p, r = AtGenerate i rs p).
  { intros s0. unfold bind.
    destruct (process_image_total image_url s0) as (img & s1 & -> & Hc1).
    rewrite extract_queries_eq.
    destruct (search_total (QueryExtractor.extract_search_queries post_text) 5
                (add_log (EvExtract post_text) s1)) as (rs & s3 & -> & Hc3).
    eexists _, s3. split; [reflexivity|]. split; [now rewrite Hc3|eauto]. }
  unfold bind at 1. destruct use_cache.
  - destruct (CacheService.get E key s) as [[[v|]|e] s0] eqn:Hget.
    + exists (Hit (ExplainResponse.mk (cv_bullets v) (cv_sources v) true)), s0.
      split; [reflexivity|].
      unfold CacheService.get in Hget.
      destruct (_cache s !! CacheService._generate_key key) as [[v' ts]|] eqn:Hl;
        [|discriminate].
      destruct (CacheService.expired E (now E (world s)) ts) eqn:He;
        [discriminate|].
      injection Hget as -> ->. split; [reflexivity|]. split; [reflexivity|].
      now exists v, ts.
    + apply get_miss in Hget as [-> Hexp].
      destruct (Hmiss (set_cache (delete (CacheService._generate_key key) (_cache s)) s))
        as (r & s1 & Hr & Hc & (i & rs & p & ->)).
      exists (AtGenerate i rs p), s1. split; [exact Hr|].
      split; [exact Hc|]. intros _. exact Hexp.
    + destruct (get_total key s) as (r & s' & Hr). congruence.
  - destruct (Hmiss s) as (r & s1 & Hr & Hc & (i & rs & p & ->)).
    exists (AtGenerate i rs p), s1. split; [exact Hr|].
    split; [exact Hc|discriminate].
Qed.

End ExplainFacts.

Section ExplainLemmas.
Variable E : Env.
Context {U : UnicodeTables}.
Import PostExplainer.

(** A hit returns the entry and leaves the whole state as it was. *)
Lemma explain_hit post_text image_url s v ts :
  _cache s !! request_key post_text image_url = Some (v, ts) ->
  CacheService.expired E (now E (world s)) ts = false ->
  explain E post_text image_url true s
  = (Ok (ExplainResponse.mk (cv_bullets v) (cv_sources v) true), s).
Proof.
  intros Hl He. unfold explain, bind.
  now rewrite (get_hit E (cache_key post_text image_url) s v ts Hl He).
Qed.

(** A failure of the model ends the request with that failure; the cache
    is then what the first part of the pipeline left. *)
Lemma explain_generate_raises post_text image_url use_cache s
      image_data search_results prompt s1 e s2 :
  explain_to_generate E post_text image_url use_cache s
  = (Ok (AtGenerate image_data search_results prompt), s1) ->
  LLMService.generate E prompt image_data s1 = (Raise e, s2) ->
  explain E post_text image_url use_cache s = (Raise e, s2)
  /\ _cache s2
     = (if use_cache
        then delete (request_key post_text image_url) (_cache s)
        else _cache s)
  /\ (use_cache = true ->
      forall v ts,
        _cache s !! request_key post_text image_url = Some (v, ts) ->
        CacheService.expired E (now E (world s)) ts = true).
Proof.
  intros H1 H2. split.
  - now rewrite explain_factors, H1, H2.
  - destruct (explain_to_generate_cases E post_text image_url use_cache s)
      as (r & s1' & Hr & Hcases).
    rewrite H1 in Hr. injection Hr as <- <-. destruct Hcases as [Hc Hexp].
    split; [|exact Hexp]. rewrite <- Hc. now apply generate_cache in H2.
Qed.

(** After a successful request that uses the cache, the cache holds the
    response under the key of the request, not expired. *)
Lemma explain_ok_cached post_text image_url s r s' :
  (0 <= cache_ttl E)%Z ->
  explain E post_text image_url true s = (Ok r, s') ->
  exists ts,
    _cache s' !! request_key post_text image_url
    = Some ({| cv_bullets := ExplainResponse.bullets r;
               cv_sources := ExplainResponse.sources r |}, ts)
    /\ CacheService.expired E (now E (world s')) ts = false.
Proof.
  intros Httl. rewrite explain_factors.
  destruct (explain_to_generate_cases E post_text image_url true s)
    as (reached & s1 & -> & Hcases).
  destruct reached as [response | image_data search_results prompt].
  - destruct Hcases as (-> & _ & v & ts & Hl & He & ->).
    intros [= <- <-]. exists ts. destruct v. now split.
  - destruct (LLMService.generate E prompt image_data s1) as [[raw|e] s2];
      [|discriminate].
    unfold explain_from_reply, bind, lift, CacheService.set, ret.
    destruct (_build_sources E search_results raw) as [sources|e];
      [|discriminate].
    intros [= <- <-]. exists (now E (world s2)). split.
    + cbn [_cache set_cache ExplainResponse.bullets ExplainResponse.sources].
      apply lookup_insert_eq.
    + cbn [world set_cache]. unfold CacheService.expired, CacheService.ttl.
      apply Z.ltb_ge. lia.
Qed.

(** Two requests with the same key: the second is answered from the
    entry the first one left. *)
Lemma explain_same_key text1 image1 text2 image2 s r s' :
  cache_key text1 image1 = cache_key text2 image2 ->
  (0 <= cache_ttl E)%Z ->
  explain E text1 image1 true s = (Ok r, s') ->
  explain E text2 image2 true s'
  = (Ok (ExplainResponse.mk (ExplainResponse.bullets r)
                            (ExplainResponse.sources r) true), s').
Proof.
  intros Hkey Httl Hr.
  destruct (explain_ok_cached text1 image1 s r s' Httl Hr) as (ts & Hl & He).
  unfold request_key in Hl. rewrite Hkey in Hl.
  exact (explain_hit text2 image2 s' _ ts Hl He).
Qed.

End ExplainLemmas.

Section ExplainClaims.
Context {U : UnicodeTables}.
Import PostExplainer.

(** C1. For every call of explain with use_cache=true in a state whose
    cache holds an entry for (text, image_url) that is not expired, the
    call returns that entry's bullets and sources with cached=true, and
    the state after the call is the state before it: no event is logged
    (no image processing, no query extraction, no search call, no LLM
    call), the outside world and the cache are untouched. *)
Theorem explain_cache_hit :
  forall (E : Env) (post_text : pystr) (image_url : option pystr)
         (s : State E) (v : CacheValue) (ts : Z),
    _cache s !! request_key post_text image_url = Some (v, ts) ->
    CacheService.expired E (now E (world s)) ts = false ->
    exists s',
      explain E post_text image_url true s
      = (Ok (ExplainResponse.mk (cv_bullets v) (cv_sources v) true), s')
      /\ log s' = log s /\ world s' = world s /\ _cache s' = _cache s
      /\ s' = s.
Proof.
  intros E post_text image_url s v ts Hl He. exists s.
  split; [now apply explain_hit with ts|]. now repeat split.
Qed.

(** C7 (amended). When the pipeline reaches the call of the model and
    that call raises, explain raises the same error and nothing is stored
    in the cache: every entry of the cache after the request was there
    before it. The cache after the request is the cache before it, except
    that the initial lookup of a request that uses the cache has removed
    the entry under the request's key if there was one, which was then
    expired. *)
Theorem explain_llm_failure :
  forall (E : Env) (post_text : pystr) (image_url : option pystr)
         (use_cache : bool) (s : State E)
         (image_data : option Image) (search_results : list SearchResult.t)
         (prompt : pystr) (s1 : State E) (e : pystr) (s2 : State E),
    explain_to_generate E post_text image_url use_cache s
    = (Ok (AtGenerate image_data search_results prompt), s1) ->
    LLMService.generate E prompt image_data s1 = (Raise e, s2) ->
    explain E post_text image_url use_cache s = (Raise e, s2)
    /\ (forall k entry, _cache s2 !! k = Some entry -> _cache s !! k = Some entry)
    /\ _cache s2
       = (if use_cache
          then delete (request_key post_text image_url) (_cache s)
          else _cache s)
    /\ (forall v ts,
          use_cache = true ->
          _cache s !! request_key post_text image_url = Some (v, ts) ->
          CacheService.expired E (now E (world s)) ts = true)
    /\ (use_cache = false \/ _cache s !! request_key post_text image_url = None ->
        _cache s2 = _cache s).
Proof.
  intros E post_text image_url use_cache s image_data search_results prompt
         s1 e s2 H1 H2.
  destruct (explain_generate_raises E post_text image_url use_cache s
              image_data search_results prompt s1 e s2 H1 H2)
    as (Hraise & Hcache & Hexp).
  split; [exact Hraise|]. split; [|split; [exact Hcache|split]].
  - intros k entry. rewrite Hcache. destruct use_cache; [|trivial].
    rewrite lookup_delete_Some. tauto.
  - intros v ts Hu. now apply Hexp.
  - intros [-> | Hnone]; [exact Hcache|]. rewrite Hcache.
    destruct use_cache; [|reflexivity]. now apply delete_id.
Qed.

(** C10. The requests (a, b:) and (a:b, no image) are distinct and have
    the same cache key, since the key is derived from the post text, a
    colon and the image URL put together; consequently, when TTL is not
    negative, each of the two is answered with cached=true from the result
    that a successful call for the other has just stored. *)
Theorem cache_key_collision :
  forall E : Env,
    (lit "a", Some (lit "b:")) <> (lit "a:b", @None (list N))
    /\ cache_key (lit "a") (Some (lit "b:")) = cache_key (lit "a:b") None
    /\ request_key (lit "a") (Some (lit "b:")) = request_key (lit "a:b") None
    /\ ((0 <= cache_ttl E)%Z ->
        forall s r s',
          (explain E (lit "a") (Some (lit "b:")) true s = (Ok r, s') ->
           explain E (lit "a:b") None true s'
           = (Ok (ExplainResponse.mk (ExplainResponse.bullets r)
                                     (ExplainResponse.sources r) true), s'))
          /\ (explain E (lit "a:b") None true s = (Ok r, s') ->
              explain E (lit "a") (Some (lit "b:")) true s'
              = (Ok (ExplainResponse.mk (ExplainResponse.bullets r)
                                        (ExplainResponse.sources r) true), s'))).
Proof.
  intros E. split; [discriminate|]. split; [reflexivity|].
  split; [reflexivity|]. intros Httl s r s'. split.
  - now apply explain_same_key.
  - now apply explain_same_key.
Qed.

End ExplainClaims.


(** *** The claims on the demo world *)

(** A hit: the entry was stored at time 0 and is read at time 5. *)
Lemma explain_cache_hit_witness :
  let E := Examples.demo true true in
  let s := Examples.with_entry E 0 5%Z in
  _cache s !! @PostExplainer.request_key ascii_only (lit "hello") None
  = Some (Examples.cached_value, 0%Z)
  /\ CacheService.expired E (now E (world s)) 0 = false
  /\ @PostExplainer.explain E ascii_only (lit "hello") None true s
     = (Ok (ExplainResponse.mk [lit "An explanation computed earlier"] [] true),
        s).
Proof.
  intros E s.
  assert (Hl : _cache s !! @PostExplainer.request_key ascii_only (lit "hello") None
               = Some (Examples.cached_value, 0%Z))
    by apply lookup_singleton_eq.
  assert (He : CacheService.expired E (now E (world s)) 0 = false)
    by (vm_compute; reflexivity).
  split; [exact Hl|]. split; [exact He|].
  destruct (@explain_cache_hit ascii_only E (lit "hello") None s
              Examples.cached_value 0%Z Hl He) as (s' & Hr & _ & _ & _ & ->).
  exact Hr.
Defined.

(** C7, as stated, fails when the cache holds an expired entry under the
    key of the request: the lookup removes it before the model is called,
    so after the failed request the cache is not what it was. *)
Lemma explain_llm_failure_counterexample :
  let E := Examples.demo true false in
  let s := Examples.with_entry E 0 Examples.after_ttl in
  let r := @PostExplainer.explain E ascii_only (lit "hello") None true s in
  fst r = Raise (lit "Connection error.")
  /\ _cache s !! @PostExplainer.request_key ascii_only (lit "hello") None
     = Some (Examples.cached_value, 0%Z)
  /\ _cache (snd r) !! @PostExplainer.request_key ascii_only (lit "hello") None
     = None
  /\ _cache (snd r) <> _cache s.
Proof.
  intros E s r.
  assert (H1 : fst r = Raise (lit "Connection error."))
    by (vm_compute; reflexivity).
  assert (H2 : _cache s !! @PostExplainer.request_key ascii_only (lit "hello") None
               = Some (Examples.cached_value, 0%Z))
    by apply lookup_singleton_eq.
  assert (H3 : _cache (snd r)
                 !! @PostExplainer.request_key ascii_only (lit "hello") None
               = None)
    by (vm_compute; reflexivity).
  split; [exact H1|]. split; [exact H2|]. split; [exact H3|].
  intros Heq. rewrite Heq, H2 in H3. discriminate H3.
Qed.

(** The same failed request, through the theorem. *)
Lemma explain_llm_failure_witness :
  let E := Examples.demo true false in
  let s := Examples.with_entry E 0 Examples.after_ttl in
  exists image_data search_results prompt s1 e s2,
    @PostExplainer.explain_to_generate E ascii_only (lit "hello") None true s
    = (Ok (PostExplainer.AtGenerate image_data search_results prompt), s1)
    /\ LLMService.generate E prompt image_data s1 = (Raise e, s2)
    /\ @PostExplainer.explain E ascii_only (lit "hello") None true s
       = (Raise e, s2)
    /\ forall k entry,
         _cache s2 !! k = Some entry -> _cache s !! k = Some entry.
Proof.
  intros E s.
  assert (H1 : exists image_data search_results prompt s1,
             @PostExplainer.explain_to_generate E ascii_only (lit "hello")
               None true s
             = (Ok (PostExplainer.AtGenerate image_data search_results prompt),
                s1))
    by (do 4 eexists; vm_compute; reflexivity).
  destruct H1 as (image_data & search_results & prompt & s1 & H1).
  assert (H2 : LLMService.generate E prompt image_data s1
               = (Raise (lit "Connection error."),
                  @set_world E (world s1 + 1)%Z (add_log (EvGenerate prompt) s1)))
    by (rewrite generate_cases; reflexivity).
  exists image_data, search_results, prompt, s1, (lit "Connection error."),
    (@set_world E (world s1 + 1)%Z (add_log (EvGenerate prompt) s1)).
  split; [exact H1|]. split; [exact H2|].
  destruct (@explain_llm_failure ascii_only E (lit "hello") None true s
              image_data search_results prompt s1 _ _ H1 H2)
    as (Hraise & Hsub & _).
  split; [exact Hraise|exact Hsub].
Defined.

(** The two colliding requests, one after the other. *)
Lemma cache_key_collision_witness :
  let E := Examples.demo true true in
  let s := Examples.fresh E 0%Z in
  (0 <= cache_ttl E)%Z
  /\ exists r s',
       @PostExplainer.explain E ascii_only (lit "a") (Some (lit "b:")) true s
       = (Ok r, s')
       /\ ExplainResponse.cached r = false
       /\ @PostExplainer.explain E ascii_only (lit "a:b") None true s'
          = (Ok (ExplainResponse.mk (ExplainResponse.bullets r)
                                    (ExplainResponse.sources r) true), s').
Proof.
  intros E s.
  assert (Httl : (0 <= cache_ttl E)%Z) by (vm_compute; discriminate).
  split; [exact Httl|].
  assert (Hr : exists r s',
             @PostExplainer.explain E ascii_only (lit "a") (Some (lit "b:"))
               true s = (Ok r, s')
             /\ ExplainResponse.cached r = false)
    by (do 2 eexists; split; vm_compute; reflexivity).
  destruct Hr as (r & s' & Hr & Hfresh).
  exists r, s'. split; [exact Hr|]. split; [exact Hfresh|].
  destruct (@cache_key_collision ascii_only E) as (_ & _ & _ & Hcoll).
  exact (proj1 (Hcoll Httl s r s') Hr).
Defined.

(** ** The streamed explanation *)

Section StreamFacts.
Variable E : Env.
Context {U : UnicodeTables}.
Import PostExplainer Routes Spec.

Lemma flat_map_singleton {A B} (f : A -> B) l :
  flat_map (fun x => [f x]) l = List.map f l.
Proof. induction l; simpl; congruence. Qed.

(** The stream of the service, spelled out: the event is logged, the
    world is asked once, the non-empty chunks are yielded in order. *)
Lemma stream_cases prompt s :
  LLMService.stream E prompt None s =
  let s0 := add_log (EvStream prompt) s in
  let (outcome, w) := openai_create_stream E prompt None (world s0) in
  ((chunks_of outcome,
    match outcome with
    | StreamFailed e => Raise e
    | Streamed _ (Some e) => Raise e
    | Streamed _ None => Ok tt
    end), set_world w s0).
Proof.
  unfold LLMService.stream, OpenAIProvider.stream, gfor. cbv zeta.
  destruct (openai_create_stream E prompt None (world (add_log (EvStream prompt) s)))
    as [[e|chunks [e|]] w]; cbn [chunks_of]; try reflexivity;
    now rewrite (flat_map_singleton (fun c => c)), List.map_id.
Qed.





End StreamFacts.

Section StreamClaim.
Context {U : UnicodeTables}.
Import PostExplainer Routes Spec.


End StreamClaim.

(** The events of the demo world: a stream that ends normally, and one
    that breaks after its first chunk. *)
Example explain_stream_done :
  fst (fst (@Routes.event_generator (Examples.demo true true) ascii_only
              (lit "hello") (Examples.fresh (Examples.demo true true) 0%Z)))
  = [Routes.SseSources
       [Source.mk 1 (lit "Alpha") (lit "https://a.example/")
                  (Some (lit "about a"));
        Source.mk 2 (lit "Beta") (lit "https://b.example/") None];
     Routes.SseChunk (lit "The post ");
     Routes.SseChunk (lit "refers");
     Routes.SseDone].
Proof. vm_compute. reflexivity. Qed.

Example explain_stream_error :
  fst (fst (@Routes.event_generator (Examples.demo true false) ascii_only
              (lit "hello") (Examples.fresh (Examples.demo true false) 0%Z)))
  = [Routes.SseSources
       [Source.mk 1 (lit "Alpha") (lit "https://a.example/")
                  (Some (lit "about a"));
        Source.mk 2 (lit "Beta") (lit "https://b.example/") None];
     Routes.SseChunk (lit "The post ");
     Routes.SseError (lit "Connection error.")].
Proof. vm_compute. reflexivity. Qed.

(** ** The provider that tries several models *)

Section ModelFacts.
Variable E : Env.
Context {U : UnicodeTables}.
Import AnthropicProvider.

(** One attempt, spelled out. *)
Lemma generate_attempt_cases m prompt image_data s :
  generate_attempt E m prompt image_data s =
  let s0 := add_log (EvAnthropic false m) s in
  let (r, w) := anthropic_create E m prompt image_data (world s0) in
  match r with
  | Ok response =>
      (match response with Text text => Ok text | NoText e => Raise e end,
       set_anthropic {| available := available (anthropic s); model := Some m |}
                     (set_world w s0))
  | Raise e => (Raise e, set_world w s0)
  end.
Proof.
  unfold generate_attempt, bind, tell, call, set_model, ret, raise. simpl.
  destruct (anthropic_create E m prompt image_data (world s))
    as [[[text|e]|e] w]; reflexivity.
Qed.

(** The models are tried in the order of the list: a success ends the
    loop, an error of the not-found class moves on to the next model,
    any other error ends the loop at once, and when no model is left the
    error raised carries the last failure. *)
Lemma generate_loop_success m rest last_error prompt image_data s text s' :
  generate_attempt E m prompt image_data s = (Ok text, s') ->
  generate_loop E (m :: rest) last_error prompt image_data s = (Ok text, s').
Proof. intros H. cbn [generate_loop]. unfold try_except. now rewrite H. Qed.

Lemma generate_loop_next m rest last_error prompt image_data s e s' :
  generate_attempt E m prompt image_data s = (Raise e, s') ->
  is_not_found e = true ->
  generate_loop E (m :: rest) last_error prompt image_data s
  = generate_loop E rest (Some e) prompt image_data s'.
Proof.
  intros H Hnf. cbn [generate_loop]. unfold try_except. now rewrite H, Hnf.
Qed.

Lemma generate_loop_abort m rest last_error prompt image_data s e s' :
  generate_attempt E m prompt image_data s = (Raise e, s') ->
  is_not_found e = false ->
  generate_loop E (m :: rest) last_error prompt image_data s = (Raise e, s').
Proof.
  intros H Hnf. cbn [generate_loop]. unfold try_except. now rewrite H, Hnf.
Qed.

Lemma generate_loop_exhausted e prompt image_data s :
  generate_loop E [] (Some e) prompt image_data s
  = (Raise (lit "Failed to generate with any Claude model: " ++ e), s).
Proof. reflexivity. Qed.

(** The model recorded by an earlier call plays no part in a call: the
    loop reads the list, never the field. *)
Lemma generate_loop_ignores_model models : forall last_error prompt image_data s m,
  fst (generate_loop E models last_error prompt image_data (forget E m s))
  = fst (generate_loop E models last_error prompt image_data s)
  /\ log (snd (generate_loop E models last_error prompt image_data (forget E m s)))
     = log (snd (generate_loop E models last_error prompt image_data s))
  /\ world (snd (generate_loop E models last_error prompt image_data (forget E m s)))
     = world (snd (generate_loop E models last_error prompt image_data s)).
Proof.
  induction models as [|m0 models IH]; intros last_error prompt image_data s m.
  - now repeat split.
  - cbn [generate_loop]. unfold try_except.
    rewrite !generate_attempt_cases. cbv zeta.
    change (world (add_log (EvAnthropic false m0) (forget E m s)))
      with (world (add_log (EvAnthropic false m0) s)).
    destruct (anthropic_create E m0 prompt image_data
                (world (add_log (EvAnthropic false m0) s)))
      as [[[text|e]|e] w].
    + now repeat split.
    + now repeat split.
    + destruct (is_not_found e); cbn [negb].
      * change (set_world w (add_log (EvAnthropic false m0) (forget E m s)))
          with (forget E m (set_world w (add_log (EvAnthropic false m0) s))).
        apply IH.
      * now repeat split.
Qed.

End ModelFacts.

(** C3 at the failing input: an API on which the first model of the list
    is unknown (404) and the second answers. The first call of generate
    falls back to the second model and records it in the provider. The
    second call of generate, and then a call of stream, on the same
    provider instance start again with the first model of the list: the
    recorded model is not used as the starting point. *)
Theorem remembered_model_not_used :
  let E := Examples.demo true true in
  let s0 := Examples.fresh E 0%Z in
  let r1 := @AnthropicProvider.generate E ascii_only (lit "prompt") None s0 in
  let r2 := @AnthropicProvider.generate E ascii_only (lit "prompt") None (snd r1) in
  let g3 := @AnthropicProvider.stream E ascii_only (lit "prompt") None (snd r2) in
  fst r1 = Ok Examples.reply_ok
  /\ model (anthropic (snd r1)) = Some Examples.model_2
  /\ log (snd r1)
     = [EvAnthropic false Examples.model_1; EvAnthropic false Examples.model_2]
  /\ fst r2 = Ok Examples.reply_ok
  /\ log (snd r2)
     = log (snd r1)
       ++ [EvAnthropic false Examples.model_1;
           EvAnthropic false Examples.model_2]
  /\ fst g3 = ([lit "The post "; lit "refers"], Ok tt)
  /\ log (snd g3)
     = log (snd r2)
       ++ [EvAnthropic true Examples.model_1;
           EvAnthropic true Examples.model_2].
Proof. vm_compute. repeat split; reflexivity. Qed.

(** ** More on the cache service *)

Section CacheFacts.
Variable E : Env.
Context {U : UnicodeTables}.
Import CacheService.

(** A value stored with set, also when it replaces an older value, is
    read back by a later get, under every text that has the same key,
    when the time that has passed between the store and the read is at
    most the TTL; when more time has passed the read finds nothing and
    removes the entry. The later state is any state of the process whose
    cache still holds under the key what set left there: its clock and the
    rest of its cache are free. set returns normally and touches nothing
    but the cache. The two texts are such that their keys can be
    computed: lower-cased and trimmed, they can be encoded. *)
Theorem cache_set_then_get :
  forall (text text' : list N) (old v : CacheValue) (s s2 : State E),
    Hashlib.encodable (strip (lower text)) = true ->
    Hashlib.encodable (strip (lower text')) = true ->
    _generate_key text' = _generate_key text ->
    let s1 := snd (set E text v (snd (set E text old s))) in
    _cache s2 !! _generate_key text = _cache s1 !! _generate_key text ->
    fst (set E text v s) = Ok tt
    /\ world s1 = world s /\ log s1 = log s
    /\ _cache s1 !! _generate_key text = Some (v, now E (world s))
    /\ ((now E (world s2) - now E (world s) <= cache_ttl E * 1000000)%Z ->
        get E text' s2 = (Ok (Some v), s2))
    /\ ((cache_ttl E * 1000000 < now E (world s2) - now E (world s))%Z ->
        get E text' s2
        = (Ok None, set_cache (delete (_generate_key text) (_cache s2)) s2)).
Proof.
  intros text text' old v s s2 _ _ Hkey s1 Hheld.
  assert (H1 : _cache s1 !! _generate_key text = Some (v, now E (world s))).
  { unfold s1, set. cbn [snd _cache set_cache world]. apply lookup_insert_eq. }
  rewrite H1 in Hheld.
  split; [reflexivity|]. split; [reflexivity|]. split; [reflexivity|].
  split; [exact H1|]. unfold get. rewrite Hkey, Hheld. unfold expired, ttl.
  split; intros Ht.
  - destruct (Z.ltb_spec (cache_ttl E * 1000000)
                (now E (world s2) - now E (world s))); [lia|reflexivity].
  - destruct (Z.ltb_spec (cache_ttl E * 1000000)
                (now E (world s2) - now E (world s))); [reflexivity|lia].
Qed.

(** Reading an entry older than the TTL gives nothing and removes the
    entry; it stays absent afterwards, and no other key is touched. *)
Theorem cache_get_expired :
  forall (text : list N) (v : CacheValue) (ts : Z) (s : State E),
    _cache s !! _generate_key text = Some (v, ts) ->
    expired E (now E (world s)) ts = true ->
    let s1 := snd (get E text s) in
    fst (get E text s) = Ok None
    /\ _cache s1 = delete (_generate_key text) (_cache s)
    /\ (forall k, k <> _generate_key text -> _cache s1 !! k = _cache s !! k)
    /\ get E text s1 = (Ok None, s1)
    /\ world s1 = world s /\ log s1 = log s.
Proof.
  intros text v ts s Hl He s1. unfold s1, get. rewrite Hl, He. simpl.
  rewrite lookup_delete_eq. repeat split.
  intros k Hk. now apply lookup_delete_ne.
Qed.

(** *** The sweep *)

Lemma fold_delete_lookup (keys : list (list N)) : forall (m : gmap (list N) (CacheValue * Z)) k,
  fold_left (fun c key => delete key c) keys m !! k
  = if bool_decide (k ∈ keys) then None else m !! k.
Proof.
  induction keys as [|key keys IH]; intros m k.
  - cbn [fold_left]. rewrite bool_decide_eq_false_2; [reflexivity|].
    apply not_elem_of_nil.
  - cbn [fold_left]. rewrite IH.
    destruct (bool_decide (k ∈ keys)) eqn:Hin.
    + apply bool_decide_eq_true in Hin.
      rewrite (bool_decide_eq_true_2 (k ∈ key :: keys)); [reflexivity|].
      now apply elem_of_cons; right.
    + apply bool_decide_eq_false in Hin.
      destruct (decide (key = k)) as [->|Hne].
      * rewrite lookup_delete_eq.
        rewrite (bool_decide_eq_true_2 (k ∈ k :: keys)); [reflexivity|].
        now apply elem_of_cons; left.
      * rewrite lookup_delete_ne by assumption.
        rewrite (bool_decide_eq_false_2 (k ∈ key :: keys)); [reflexivity|].
        intros [Heq | Hk]%elem_of_cons; [now apply Hne|now apply Hin].
Qed.

Lemma fold_delete_size (p : list N * (CacheValue * Z) -> bool)
      (l : list (list N * (CacheValue * Z))) :
  forall m : gmap (list N) (CacheValue * Z),
    List.NoDup (List.map fst l) ->
    (forall k x, In (k, x) l -> m !! k = Some x) ->
    size (fold_left (fun c key => delete key c)
                    (List.map fst (List.filter p l)) m)
    + length (List.filter p l) = size m.
Proof.
  induction l as [|[k x] l IH]; intros m Hnd Hin; [simpl; lia|].
  inversion Hnd as [|? ? Hk Hnd']; subst.
  cbn [List.filter]. destruct (p (k, x)).
  - cbn [List.map fst fold_left length].
    rewrite Nat.add_succ_r, IH; [|assumption|].
    + rewrite map_size_delete_Some by (rewrite (Hin k x); [eauto|now left]).
      assert (m !! k = Some x) as Hm by (apply Hin; now left).
      assert (size m <> 0).
      { intros Hz. apply map_size_empty_inv in Hz. subst m.
        now rewrite lookup_empty in Hm. }
      lia.
    + intros k' x' Hin'. rewrite lookup_delete_ne; [apply Hin; now right|].
      intros <-. apply Hk. apply in_map_iff. now exists (k, x').
  - apply IH; [assumption|]. intros k' x' Hin'. apply Hin. now right.
Qed.

Lemma filter_none {A} (p : A -> bool) l :
  (forall x, In x l -> p x = false) -> List.filter p l = [].
Proof.
  induction l as [|x l IH]; intros H; [reflexivity|]. simpl.
  rewrite (H x) by now left. apply IH. intros y Hy. apply H. now right.
Qed.

(** The sweep removes exactly the entries that are expired at the time
    of the call, keeps every other entry as it is, and returns the number
    of entries removed; a second sweep at the same time removes nothing. *)
Theorem cleanup_expired_spec :
  forall s : State E,
    let n := fst (cleanup_expired E s) in
    let s1 := snd (cleanup_expired E s) in
    (exists count, n = Ok count /\ size (_cache s1) + count = size (_cache s))
    /\ (forall k,
          _cache s1 !! k
          = match _cache s !! k with
            | Some (v, ts) =>
                if expired E (now E (world s)) ts then None else Some (v, ts)
            | None => None
            end)
    /\ world s1 = world s /\ log s1 = log s
    /\ cleanup_expired E s1 = (Ok 0, s1).
Proof.
  intros s n s1.
  set (p := fun kv : list N * (CacheValue * Z) =>
              expired E (now E (world s)) (snd (snd kv))).
  assert (Hlookup : forall k,
    _cache s1 !! k
    = match _cache s !! k with
      | Some (v, ts) =>
          if expired E (now E (world s)) ts then None else Some (v, ts)
      | None => None
      end).
  { intros k. unfold s1, cleanup_expired. cbn [snd _cache set_cache].
    rewrite fold_delete_lookup. fold p.
    destruct (bool_decide _) eqn:Hin.
    - apply bool_decide_eq_true in Hin. apply list_elem_of_In in Hin.
      apply in_map_iff in Hin as ([k' [v ts]] & <- & Hin).
      apply filter_In in Hin as [Hin Hp].
      apply list_elem_of_In, elem_of_map_to_list in Hin.
      cbn [fst]. rewrite Hin. unfold p in Hp. cbn [snd] in Hp. now rewrite Hp.
    - apply bool_decide_eq_false in Hin.
      destruct (_cache s !! k) as [[v ts]|] eqn:Hl; [|reflexivity].
      destruct (expired E (now E (world s)) ts) eqn:He; [|reflexivity].
      exfalso. apply Hin. apply list_elem_of_In, in_map_iff.
      exists (k, (v, ts)).
      split; [reflexivity|]. apply filter_In. split; [|exact He].
      now apply list_elem_of_In, elem_of_map_to_list. }
  split; [|split; [exact Hlookup|split; [reflexivity|split; [reflexivity|]]]].
  - exists (length (List.filter p (map_to_list (_cache s)))).
    split; [unfold n, cleanup_expired; cbn [fst]; now rewrite length_map|].
    unfold s1, cleanup_expired. cbn [snd _cache set_cache]. fold p.
    apply fold_delete_size.
    + apply NoDup_ListNoDup, NoDup_fst_map_to_list.
    + intros k x Hin. now apply elem_of_map_to_list, list_elem_of_In.
  - assert (Hnone : List.filter
                      (fun kv : list N * (CacheValue * Z) =>
                         expired E (now E (world s1)) (snd (snd kv)))
                      (map_to_list (_cache s1)) = []).
    { apply filter_none. intros [k [v ts]] Hin. cbn [snd].
      apply list_elem_of_In, elem_of_map_to_list in Hin.
      rewrite Hlookup in Hin.
      destruct (_cache s !! k) as [[v' ts']|]; [|discriminate].
      destruct (expired E (now E (world s)) ts') eqn:He; [discriminate|].
      now injection Hin as _ <-. }
    unfold cleanup_expired at 1. rewrite Hnone. cbn [List.map length fold_left].
    reflexivity.
Qed.

End CacheFacts.

(** The round trip and the expiry on the demo world. *)
Lemma cache_set_then_get_witness :
  let E := Examples.demo true true in
  let s := Examples.fresh E 7%Z in
  let s1 := snd (@CacheService.set E ascii_only (lit "hello")
                   Examples.cached_value
                   (snd (@CacheService.set E ascii_only (lit "hello")
                           {| cv_bullets := []; cv_sources := [] |} s))) in
  let s2 := @set_world E 86400000007%Z s1 in
  let s3 := @set_world E 86400000008%Z s1 in
  Hashlib.encodable (strip (@lower ascii_only (lit "hello"))) = true
  /\ Hashlib.encodable (strip (@lower ascii_only (lit "  HELLO "))) = true
  /\ @CacheService._generate_key ascii_only (lit "  HELLO ")
     = @CacheService._generate_key ascii_only (lit "hello")
  /\ fst (@CacheService.get E ascii_only (lit "  HELLO ") s2)
     = Ok (Some Examples.cached_value)
  /\ fst (@CacheService.get E ascii_only (lit "  HELLO ") s3) = Ok None.
Proof.
  intros E s s1 s2 s3.
  assert (Hkey : @CacheService._generate_key ascii_only (lit "  HELLO ")
                 = @CacheService._generate_key ascii_only (lit "hello"))
    by (vm_compute; reflexivity).
  assert (He1 : Hashlib.encodable (strip (@lower ascii_only (lit "hello")))
                = true) by (vm_compute; reflexivity).
  assert (He2 : Hashlib.encodable (strip (@lower ascii_only (lit "  HELLO ")))
                = true) by (vm_compute; reflexivity).
  split; [exact He1|]. split; [exact He2|].
  split; [exact Hkey|]. split.
  - destruct (@cache_set_then_get E ascii_only (lit "hello") (lit "  HELLO ")
                {| cv_bullets := []; cv_sources := [] |}
                Examples.cached_value s s2 He1 He2 Hkey eq_refl)
      as (_ & _ & _ & _ & Hin & _).
    rewrite Hin; [reflexivity|]. vm_compute. discriminate.
  - destruct (@cache_set_then_get E ascii_only (lit "hello") (lit "  HELLO ")
                {| cv_bullets := []; cv_sources := [] |}
                Examples.cached_value s s3 He1 He2 Hkey eq_refl)
      as (_ & _ & _ & _ & _ & Hout).
    rewrite Hout; [reflexivity|]. vm_compute. reflexivity.
Defined.

Lemma cache_get_expired_witness :
  let E := Examples.demo true true in
  let s := Examples.with_entry E 0 Examples.after_ttl in
  _cache s !! @CacheService._generate_key ascii_only
               (PostExplainer.cache_key (lit "hello") None)
  = Some (Examples.cached_value, 0%Z)
  /\ CacheService.expired E (now E (world s)) 0 = true
  /\ fst (@CacheService.get E ascii_only
            (PostExplainer.cache_key (lit "hello") None) s) = Ok None.
Proof.
  intros E s.
  assert (Hl : _cache s !! @CacheService._generate_key ascii_only
                 (PostExplainer.cache_key (lit "hello") None)
               = Some (Examples.cached_value, 0%Z))
    by apply lookup_singleton_eq.
  assert (He : CacheService.expired E (now E (world s)) 0 = true)
    by (vm_compute; reflexivity).
  split; [exact Hl|]. split; [exact He|].
  exact (proj1 (@cache_get_expired E ascii_only _ _ _ s Hl He)).
Defined.

(** ** The cache key *)

Section StripFacts.

Lemma lstrip_blank_app a s :
  forallb isspace a = true -> lstrip (a ++ s) = lstrip s.
Proof.
  induction a as [|c a IH]; [reflexivity|]. simpl.
  intros [Hc Ha]%andb_true_iff. rewrite Hc. now apply IH.
Qed.

Lemma rstrip_blank b : forallb isspace b = true -> rstrip b = [].
Proof.
  induction b as [|c b IH]; [reflexivity|].
  cbn [forallb]. intros [Hc Hb]%andb_true_iff.
  rewrite rstrip_cons, (IH Hb). now rewrite Hc.
Qed.

Lemma rstrip_app_blank s b :
  forallb isspace b = true -> rstrip (s ++ b) = rstrip s.
Proof.
  intros Hb. induction s as [|c s IH]; [now apply rstrip_blank|].
  cbn [app]. now rewrite !rstrip_cons, IH.
Qed.

(** Blanks around a text do not change what [strip] returns. *)
Lemma strip_padded a s b :
  forallb isspace a = true -> forallb isspace b = true ->
  strip (a ++ s ++ b) = strip s.
Proof.
  intros Ha Hb. unfold strip at 1. rewrite lstrip_blank_app by assumption.
  fold (strip (s ++ b)). rewrite !strip_alt. now rewrite rstrip_app_blank.
Qed.

Lemma strip_idempotent s : strip (strip s) = strip s.
Proof.
  assert (Hl : forall x, lstrip (lstrip x) = lstrip x).
  { induction x as [|c x IH]; [reflexivity|]. simpl.
    destruct (isspace c) eqn:Hc; [exact IH|]. simpl. now rewrite Hc. }
  unfold strip at 1. rewrite strip_alt, Hl, <- strip_alt.
  unfold strip. clear Hl. generalize (lstrip s). intros x.
  induction x as [|c x IH]; [reflexivity|].
  rewrite rstrip_cons. destruct (rstrip x) as [|y r] eqn:Hr.
  - destruct (isspace c) eqn:Hc; [reflexivity|]. simpl. now rewrite Hc.
  - rewrite rstrip_cons, IH. reflexivity.
Qed.

End StripFacts.

Section KeyFacts.
Context {U : UnicodeTables}.
Import CacheService.

Lemma lower_ascii text :
  forallb is_ascii text = true -> lower text = List.map lower_ascii_char text.
Proof. intros H. unfold lower. now rewrite H. Qed.

Lemma lower_ascii_char_space c : isspace (lower_ascii_char c) = isspace c.
Proof.
  unfold lower_ascii_char. destruct (is_upper_az c) eqn:Hu; [|reflexivity].
  unfold is_upper_az in Hu. apply andb_true_iff in Hu as [H1 H2].
  apply N.leb_le in H1, H2. unfold isspace.
  repeat match goal with
         | |- context [(?a <=? ?b)%N] =>
             destruct (N.leb_spec a b); try lia
         | |- context [(?a =? ?b)%N] =>
             destruct (N.eqb_spec a b); try lia
         end; reflexivity.
Qed.

Lemma lower_ascii_char_idem c :
  lower_ascii_char (lower_ascii_char c) = lower_ascii_char c.
Proof.
  unfold lower_ascii_char. destruct (is_upper_az c) eqn:Hu; [|now rewrite Hu].
  unfold is_upper_az in *. apply andb_true_iff in Hu as [H1 H2].
  apply N.leb_le in H1, H2.
  destruct (N.leb_spec 65 (c + 32)); destruct (N.leb_spec (c + 32) 90);
    simpl; try reflexivity; lia.
Qed.

Lemma lower_ascii_char_ascii c :
  is_ascii c = true -> is_ascii (lower_ascii_char c) = true.
Proof.
  unfold lower_ascii_char, is_ascii. destruct (is_upper_az c) eqn:Hu; [|trivial].
  unfold is_upper_az in Hu. apply andb_true_iff in Hu as [H1 H2].
  apply N.leb_le in H1, H2. intros _. apply N.ltb_lt. lia.
Qed.

Lemma forallb_map {A B} (f : A -> B) (p : B -> bool) (q : A -> bool) l :
  (forall x, p (f x) = q x) -> forallb p (List.map f l) = forallb q l.
Proof. intros H. induction l; simpl; [reflexivity|]. now rewrite H, IHl. Qed.

(** For ASCII text the key does not depend on the case of the letters
    nor on blanks around the text. *)
Theorem generate_key_case_and_blanks :
  forall a text b : list N,
    forallb is_ascii (a ++ text ++ b) = true ->
    forallb isspace a = true -> forallb isspace b = true ->
    _generate_key (a ++ text ++ b) = _generate_key text
    /\ _generate_key (a ++ lower text ++ b) = _generate_key text
    /\ _generate_key (strip text) = _generate_key text.
Proof.
  intros a text b Hascii Ha Hb.
  rewrite !forallb_app in Hascii.
  apply andb_true_iff in Hascii as [Haa Hascii].
  apply andb_true_iff in Hascii as [Ht Hba].
  assert (Hmapspace : forall l, forallb isspace l = true ->
                                forallb isspace (List.map lower_ascii_char l) = true).
  { intros l Hl. rewrite (forallb_map _ _ isspace); [exact Hl|].
    apply lower_ascii_char_space. }
  assert (Hmapascii : forall l, forallb is_ascii l = true ->
                                forallb is_ascii (List.map lower_ascii_char l) = true).
  { intros l Hl. rewrite (forallb_map _ _ is_ascii); [exact Hl|].
    intros x. unfold is_ascii. unfold lower_ascii_char.
    destruct (is_upper_az x) eqn:Hu; [|reflexivity].
    unfold is_upper_az in Hu. apply andb_true_iff in Hu as [H1 H2].
    apply N.leb_le in H1, H2.
    destruct (N.ltb_spec (x + 32) 128), (N.ltb_spec x 128); try reflexivity; lia. }
  assert (Hstrip_map : forall l,
             strip (List.map lower_ascii_char (strip l))
             = strip (List.map lower_ascii_char l)).
  { intros l.
    assert (Hl : forall x, List.map lower_ascii_char (lstrip x)
                           = lstrip (List.map lower_ascii_char x)).
    { induction x as [|c x IH]; [reflexivity|]. simpl.
      rewrite lower_ascii_char_space. destruct (isspace c); [exact IH|reflexivity]. }
    assert (Hr : forall x, List.map lower_ascii_char (rstrip x)
                           = rstrip (List.map lower_ascii_char x)).
    { induction x as [|c x IH]; [reflexivity|].
      cbn [List.map]. rewrite !rstrip_cons, <- IH, lower_ascii_char_space.
      destruct (rstrip x); [destruct (isspace c)|]; reflexivity. }
    unfold strip at 2. rewrite Hr, Hl. fold (strip (List.map lower_ascii_char l)).
    apply strip_idempotent. }
  assert (Hstrip_ascii : forallb is_ascii (strip text) = true).
  { apply forallb_forall. intros x Hx.
    rewrite forallb_forall in Ht. apply Ht.
    assert (Hsub : forall l y, In y (strip l) -> In y l).
    { intros l y. unfold strip.
      assert (Hr : forall z, In y (rstrip z) -> In y z).
      { induction z as [|c z IH]; [trivial|]. rewrite rstrip_cons.
        destruct (rstrip z); [destruct (isspace c)|].
        - intros [].
        - intros [<- | []]. now left.
        - intros [<- | Hy]; [now left|right; now apply IH]. }
      assert (Hl : forall z, In y (lstrip z) -> In y z).
      { induction z as [|c z IH]; [trivial|]. simpl.
        destruct (isspace c); [intros Hy; right; now apply IH|trivial]. }
      intros Hy. now apply Hl, Hr. }
    now apply (Hsub text). }
  unfold _generate_key.
  assert (H1 : strip (lower (a ++ text ++ b)) = strip (lower text)).
  { rewrite !lower_ascii;
      [|assumption|rewrite !forallb_app, Haa, Ht, Hba; reflexivity].
    rewrite !List.map_app. apply strip_padded; now apply Hmapspace. }
  assert (H2 : strip (lower (a ++ lower text ++ b)) = strip (lower text)).
  { rewrite (lower_ascii text Ht).
    rewrite (lower_ascii (a ++ _ ++ b));
      [|rewrite !forallb_app, Haa, Hba, (Hmapascii text Ht); reflexivity].
    rewrite !List.map_app, List.map_map.
    rewrite (map_ext _ lower_ascii_char lower_ascii_char_idem).
    apply strip_padded; now apply Hmapspace. }
  assert (H3 : strip (lower (strip text)) = strip (lower text)).
  { rewrite (lower_ascii text Ht), (lower_ascii (strip text) Hstrip_ascii).
    apply Hstrip_map. }
  now rewrite H1, H2, H3.
Qed.

End KeyFacts.

(** The theorem on a padded, upper-case text. *)
Lemma generate_key_case_and_blanks_witness :
  forallb is_ascii (lit "  " ++ lit "Hello World" ++ lit " ") = true
  /\ @CacheService._generate_key ascii_only
       (lit "  " ++ lit "Hello World" ++ lit " ")
     = @CacheService._generate_key ascii_only (lit "Hello World").
Proof.
  assert (H : forallb is_ascii (lit "  " ++ lit "Hello World" ++ lit " ") = true)
    by reflexivity.
  split; [exact H|].
  exact (proj1 (@generate_key_case_and_blanks ascii_only (lit "  ")
                  (lit "Hello World") (lit " ") H eq_refl eq_refl)).
Defined.

Section KeyFormat.
Import Hashlib.

Lemma be_bytes_length n : forall x, length (be_bytes n x) = n.
Proof.
  induction n as [|n IH]; intros x; [reflexivity|].
  cbn [be_bytes]. rewrite length_app, IH. simpl. lia.
Qed.

Lemma be_bytes_range n : forall x b,
  In b (be_bytes n x) -> (0 <= b < 256)%Z.
Proof.
  induction n as [|n IH]; intros x b; [intros []|].
  cbn [be_bytes]. intros [Hb | [<- | []]]%in_app_iff; [now apply IH in Hb|].
  change 255%Z with (Z.ones 8). rewrite Z.land_ones by lia.
  apply Z.mod_pos_bound. lia.
Qed.

Lemma round_length st kw : length st = 8 -> length (round st kw) = 8.
Proof.
  intros H. do 9 (destruct st as [|? st]; try discriminate H). reflexivity.
Qed.

Lemma fold_round_length kws : forall st,
  length st = 8 -> length (fold_left round kws st) = 8.
Proof.
  induction kws as [|kw kws IH]; intros st H; [exact H|].
  cbn [fold_left]. apply IH. now apply round_length.
Qed.

Lemma compress_length h block : length h = 8 -> length (compress h block) = 8.
Proof.
  intros H. unfold compress. rewrite length_map, length_combine.
  rewrite fold_round_length by exact H. rewrite H. reflexivity.
Qed.

Lemma fold_compress_length bs : forall h,
  length h = 8 -> length (fold_left compress bs h) = 8.
Proof.
  induction bs as [|b bs IH]; intros h H; [exact H|].
  cbn [fold_left]. apply IH. now apply compress_length.
Qed.

Lemma flat_map_length_const {A B} (f : A -> list B) k l :
  (forall x, length (f x) = k) -> length (flat_map f l) = k * length l.
Proof.
  intros H. induction l as [|x l IH]; simpl; [lia|].
  rewrite length_app, H, IH. lia.
Qed.

(** A digest has 32 bytes, whatever the message. *)
Lemma sha256_length msg : length (sha256 msg) = 32.
Proof.
  unfold sha256. rewrite (flat_map_length_const _ 4) by apply be_bytes_length.
  rewrite fold_compress_length; [reflexivity|]. reflexivity.
Qed.

Lemma sha256_range msg b : In b (sha256 msg) -> (0 <= b < 256)%Z.
Proof.
  unfold sha256. intros (x & _ & Hb)%in_flat_map. now apply be_bytes_range in Hb.
Qed.

Lemma hex_digit_is_hex x :
  (0 <= x < 16)%Z -> Shape.is_hex_digit (hex_digit x) = true.
Proof.
  intros Hx. unfold hex_digit, Shape.is_hex_digit.
  destruct (Z.ltb_spec x 10).
  - apply orb_true_iff. left. apply andb_true_iff.
    split; apply N.leb_le; lia.
  - apply orb_true_iff. right. apply andb_true_iff.
    split; apply N.leb_le; lia.
Qed.

Lemma hexdigest_shape msg :
  length (hexdigest msg) = 64
  /\ forallb Shape.is_hex_digit (hexdigest msg) = true.
Proof.
  unfold hexdigest. split.
  - rewrite (flat_map_length_const _ 2) by reflexivity.
    now rewrite sha256_length.
  - apply forallb_forall. intros c (b & Hb & Hc)%in_flat_map.
    apply sha256_range in Hb.
    destruct Hc as [<- | [<- | []]]; apply hex_digit_is_hex.
    + rewrite Z.shiftr_div_pow2 by lia. change (2 ^ 4)%Z with 16%Z.
      split; [apply Z.div_pos; lia|apply Z.div_lt_upper_bound; lia].
    + change 15%Z with (Z.ones 4). rewrite Z.land_ones by lia.
      apply Z.mod_pos_bound. lia.
Qed.

End KeyFormat.

Section KeyFormatClaim.
Context {U : UnicodeTables}.

(** Every key is the tag explain: followed by 16 lower-case hexadecimal
    digits: 24 characters, whatever the text. *)
Theorem generate_key_format :
  forall text : list N,
    exists digest,
      CacheService._generate_key text = lit "explain:" ++ digest
      /\ length digest = 16
      /\ forallb Shape.is_hex_digit digest = true
      /\ length (CacheService._generate_key text) = 24.
Proof.
  intros text. unfold CacheService._generate_key.
  set (digest := Hashlib.hexdigest (Hashlib.encode (strip (lower text)))).
  destruct (hexdigest_shape (Hashlib.encode (strip (lower text)))) as [Hlen Hhex].
  fold digest in Hlen, Hhex.
  assert (H16 : length (firstn 16 digest) = 16)
    by (rewrite length_firstn; lia).
  exists (firstn 16 digest). split; [reflexivity|]. split; [exact H16|].
  split.
  - apply forallb_forall. intros c Hc. rewrite forallb_forall in Hhex.
    apply Hhex. now apply In_firstn_inv in Hc.
  - rewrite length_app, H16. reflexivity.
Qed.

End KeyFormatClaim.

(** ** More on the pipeline *)

Section PipelineFacts.
Variable E : Env.
Context {U : UnicodeTables}.
Import PostExplainer.

Lemma explain_from_reply_cases post_text image_url use_cache results raw s :
  explain_from_reply E post_text image_url use_cache results raw s
  = match _build_sources E results raw with
    | Ok sources =>
        (Ok (ExplainResponse.mk (_parse_bullets raw) sources false),
         if use_cache
         then set_cache
                (<[request_key post_text image_url
                   := ({| cv_bullets := _parse_bullets raw;
                          cv_sources := sources |},
                       now E (world s))]> (_cache s)) s
         else s)
    | Raise e => (Raise e, s)
    end.
Proof.
  unfold explain_from_reply, bind, lift, ret, CacheService.set, request_key.
  destruct (_build_sources E results raw) as [sources|e]; [|reflexivity].
  destruct use_cache; reflexivity.
Qed.

(** A request that does not use the cache leaves the cache as it is,
    whatever its outcome. *)
Theorem explain_without_cache :
  forall (post_text : list N) (image_url : option (list N)) (s : State E),
    _cache (snd (explain E post_text image_url false s)) = _cache s.
Proof.
  intros post_text image_url s. rewrite explain_factors.
  destruct (explain_to_generate_cases E post_text image_url false s)
    as (reached & s1 & -> & Hcases).
  destruct reached as [response | image_data results prompt].
  - destruct Hcases as (_ & Hfalse & _). discriminate Hfalse.
  - destruct Hcases as [Hc _].
    destruct (LLMService.generate E prompt image_data s1) as [[raw|e] s2] eqn:Hg;
      apply generate_cache in Hg.
    + rewrite explain_from_reply_cases.
      destruct (_build_sources E results raw); cbn [snd]; congruence.
    + cbn [snd]. congruence.
Qed.

(** A request fails in two ways only, once the text of its key can be
    encoded (the lookup of the cache hashes the encoded key, and encode
    raises on a lone surrogate): explain raises [e] exactly when the
    pipeline reaches the call of the model and either that call raises
    [e], or it returns and the building of the sources raises [e] on the
    reply, which int does on a marker of more digits than the limit of the
    interpreter. In both cases the state left is the one after the call of
    the model: nothing is stored. Failures of the search providers and of
    the image never end a request. *)
Theorem explain_raises_iff :
  forall (post_text : list N) (image_url : option (list N)) (use_cache : bool)
         (s : State E) (e : list N) (s' : State E),
    (use_cache = true ->
     Hashlib.encodable (strip (lower (cache_key post_text image_url))) = true) ->
    explain E post_text image_url use_cache s = (Raise e, s')
    <-> exists image_data search_results prompt s1,
          explain_to_generate E post_text image_url use_cache s
          = (Ok (AtGenerate image_data search_results prompt), s1)
          /\ s' = set_world (world s') (add_log (EvGenerate prompt) s1)
          /\ (openai_create E prompt image_data (world s1)
              = (Raise e, world s')
              \/ exists content,
                   openai_create E prompt image_data (world s1)
                   = (Ok content, world s')
                   /\ _build_sources E search_results
                        (match content with Some text => text | None => [] end)
                      = Raise e).
Proof.
  intros post_text image_url use_cache s e s' _. rewrite explain_factors.
  destruct (explain_to_generate_cases E post_text image_url use_cache s)
    as (reached & s1 & Hreach & _).
  rewrite Hreach. destruct reached as [response | image_data results prompt].
  - split; [discriminate|]. intros (? & ? & ? & ? & Heq & _). discriminate Heq.
  - rewrite generate_cases.
    destruct (openai_create E prompt image_data (world s1)) as [r w] eqn:Ho.
    split.
    + destruct r as [content|e0].
      * rewrite explain_from_reply_cases.
        destruct (_build_sources E results _) as [sources|e1] eqn:Hsrc.
        -- destruct use_cache; discriminate.
        -- intros [= -> <-]. exists image_data, results, prompt, s1.
           split; [reflexivity|]. split; [reflexivity|]. right.
           exists content. now split.
      * intros [= -> <-]. exists image_data, results, prompt, s1.
        split; [reflexivity|]. split; [reflexivity|]. now left.
    + intros (image_data' & results' & prompt' & s1' & [= <- <- <- <-]
              & Hs' & [Ho' | (content & Ho' & Hsrc)]);
        rewrite Ho in Ho'; injection Ho' as -> ->.
      * now rewrite Hs'.
      * rewrite explain_from_reply_cases, Hsrc. now rewrite Hs'.
Qed.

Lemma build_sources_from_length cited results : forall i,
  length (build_sources_from i cited results) <= length results.
Proof.
  induction results as [|r results IH]; intros i; [reflexivity|].
  cbn [build_sources_from]. rewrite length_app. specialize (IH (S i)).
  destruct (bool_decide _ || _); simpl; lia.
Qed.

(** What a successful request returns. Either it is a hit: the response
    is marked cached and the state is untouched. Or the response is
    fresh: at most 5 bullets, sources numbered in increasing order and
    no more of them than the configured maximum of search results, and,
    when the cache is used, the response is stored under the key of the
    request with the time of the store, every other key being left as it
    was. *)
Theorem explain_ok_shape :
  forall (post_text : list N) (image_url : option (list N)) (use_cache : bool)
         (s : State E) (r : ExplainResponse.t) (s' : State E),
    (0 <= max_search_results E)%Z ->
    explain E post_text image_url use_cache s = (Ok r, s') ->
    (ExplainResponse.cached r = true /\ use_cache = true /\ s' = s)
    \/ (ExplainResponse.cached r = false
        /\ length (ExplainResponse.bullets r) <= 5
        /\ StronglySorted lt (List.map Source.id (ExplainResponse.sources r))
        /\ (Z.of_nat (length (ExplainResponse.sources r))
            <= max_search_results E)%Z
        /\ (use_cache = true ->
            _cache s' !! request_key post_text image_url
            = Some ({| cv_bullets := ExplainResponse.bullets r;
                       cv_sources := ExplainResponse.sources r |},
                    now E (world s')))
        /\ (forall k, k <> request_key post_text image_url ->
                      _cache s' !! k = _cache s !! k)).
Proof.
  intros post_text image_url use_cache s r s' Hmax. rewrite explain_factors.
  destruct (explain_to_generate E post_text image_url use_cache s)
    as [reached s1] eqn:Hreach.
  destruct (explain_to_generate_cases E post_text image_url use_cache s)
    as (reached' & s1' & Hreach' & Hcases).
  rewrite Hreach in Hreach'. injection Hreach' as -> <-.
  destruct reached' as [response | image_data results prompt].
  - destruct Hcases as (-> & -> & v & ts & _ & _ & ->).
    intros [= <- <-]. left. now repeat split.
  - destruct Hcases as [Hc _].
    destruct (LLMService.generate E prompt image_data s1) as [[raw|e] s2] eqn:Hg;
      [|discriminate].
    apply generate_cache in Hg. rewrite explain_from_reply_cases.
    unfold _build_sources.
    destruct (citations E raw) as [cited|e0]; [|discriminate].
    intros [= <- <-]. right.
    cbn [ExplainResponse.cached ExplainResponse.bullets ExplainResponse.sources].
    split; [reflexivity|]. split; [apply parse_bullets_at_most_5|].
    split; [apply build_sources_from_sorted|].
    split; [|split].
    + pose proof (build_sources_from_length cited results 1) as Hlen.
      enough (Z.of_nat (length results) <= max_search_results E)%Z by lia.
      (* the results are what the search returned *)
      revert Hreach. unfold explain_to_generate, bind.
      destruct ((if use_cache
                 then CacheService.get E (cache_key post_text image_url)
                 else ret None) s) as [[[cached|]|e0] s0];
        try discriminate.
      destruct (process_image_total E image_url s0) as (img & s01 & -> & _).
      rewrite extract_queries_eq.
      destruct (search_never_raises_aux E 5
                  (QueryExtractor.extract_search_queries post_text)
                  (add_log (EvExtract post_text) s01))
        as (found & s02 & -> & _).
      unfold ret. intros [= _ <- _ _].
      unfold SearchService.rank. now apply slice_to_length.
    + intros ->. cbn [_cache set_cache world]. now rewrite lookup_insert_eq.
    + intros k Hk. destruct use_cache.
      * cbn [_cache set_cache]. rewrite lookup_insert_ne by congruence.
        rewrite Hg, Hc. now apply lookup_delete_ne.
      * congruence.
Qed.

End PipelineFacts.

(** The shape theorem on a fresh request of the demo world. *)
Lemma explain_ok_shape_witness :
  let E := Examples.demo true true in
  let s := Examples.fresh E 0%Z in
  (0 <= max_search_results E)%Z
  /\ exists r s',
       @PostExplainer.explain E ascii_only (lit "hello") None true s = (Ok r, s')
       /\ ExplainResponse.cached r = false
       /\ length (ExplainResponse.bullets r) <= 5.
Proof.
  intros E s.
  assert (Hmax : (0 <= max_search_results E)%Z) by (vm_compute; discriminate).
  split; [exact Hmax|].
  assert (Hr : exists r s',
             @PostExplainer.explain E ascii_only (lit "hello") None true s
             = (Ok r, s')
             /\ ExplainResponse.cached r = false)
    by (do 2 eexists; split; vm_compute; reflexivity).
  destruct Hr as (r & s' & Hr & Hfresh).
  exists r, s'. split; [exact Hr|]. split; [exact Hfresh|].
  destruct (@explain_ok_shape E ascii_only (lit "hello") None true s r s' Hmax Hr)
    as [(Hc & _) | (_ & Hb & _)]; [congruence|exact Hb].
Defined.

(** The two failures of a request on the demo world: a model that is
    down, and a model whose reply cites a source by a numeral of 4301
    digits. *)
Lemma explain_raises_iff_witness :
  let E := Examples.demo true false in
  let s := Examples.fresh E 0%Z in
  (true = true ->
   Hashlib.encodable
     (strip (@lower ascii_only (PostExplainer.cache_key (lit "hello") None)))
   = true)
  /\ exists s' prompt image_data s1,
       @PostExplainer.explain E ascii_only (lit "hello") None true s
       = (Raise (lit "Connection error."), s')
       /\ s' = set_world (world s') (add_log (EvGenerate prompt) s1)
       /\ (openai_create E prompt image_data (world s1)
           = (Raise (lit "Connection error."), world s')
           \/ exists content,
                openai_create E prompt image_data (world s1)
                = (Ok content, world s')).
Proof.
  intros E s.
  assert (Henc : true = true ->
                 Hashlib.encodable
                   (strip (@lower ascii_only
                             (PostExplainer.cache_key (lit "hello") None)))
                 = true)
    by (intros _; vm_compute; reflexivity).
  split; [exact Henc|].
  assert (Hr : exists s',
             @PostExplainer.explain E ascii_only (lit "hello") None true s
             = (Raise (lit "Connection error."), s'))
    by (eexists; vm_compute; reflexivity).
  destruct Hr as (s' & Hr).
  destruct (proj1 (@explain_raises_iff E ascii_only (lit "hello") None true s
                     (lit "Connection error.") s' Henc) Hr)
    as (image_data & results & prompt & s1 & _ & Hs' & Hcases).
  exists s', prompt, image_data, s1. split; [exact Hr|]. split; [exact Hs'|].
  destruct Hcases as [Ho | (content & Ho & _)]; [now left|right; eauto].
Defined.

Example explain_raises_on_long_marker :
  let E := Examples.with_reply Examples.reply_long_marker
             (Examples.demo true true) in
  let s := Examples.fresh E 0%Z in
  fst (@PostExplainer.explain E ascii_only (lit "hello") None true s)
  = Raise (int_limit_error E 4301)
  /\ _cache (snd (@PostExplainer.explain E ascii_only (lit "hello") None true s))
     = ∅.
Proof. vm_compute. split; reflexivity. Qed.

(** ** More on the response parser and the prompt *)

Section SourcesCount.
Variable E : Env.
Context {U : UnicodeTables}.
Import PostExplainer Spec.




End SourcesCount.


Section BulletsTrimmed.
Context {U : UnicodeTables}.
Import PostExplainer Spec.

Lemma lstrip_idempotent x : lstrip (lstrip x) = lstrip x.
Proof.
  induction x as [|c x IH]; [reflexivity|]. simpl.
  destruct (isspace c) eqn:Hc; [exact IH|]. simpl. now rewrite Hc.
Qed.

Lemma rstrip_idempotent x : rstrip (rstrip x) = rstrip x.
Proof.
  induction x as [|c x IH]; [reflexivity|].
  rewrite rstrip_cons. destruct (rstrip x) as [|y r] eqn:Hr.
  - destruct (isspace c) eqn:Hc; [reflexivity|]. simpl. now rewrite Hc.
  - now rewrite rstrip_cons, IH.
Qed.

Lemma rstrip_fixed_tail c x : rstrip (c :: x) = c :: x -> rstrip x = x.
Proof.
  rewrite rstrip_cons. destruct (rstrip x) as [|y r].
  - destruct (isspace c); [discriminate|]. now intros [= <-].
  - now intros [= <-].
Qed.

Lemma rstrip_fixed_suffix a : forall b, rstrip (a ++ b) = a ++ b -> rstrip b = b.
Proof.
  induction a as [|c a IH]; intros b H; [exact H|].
  apply IH. now apply rstrip_fixed_tail with c.
Qed.

Lemma rstrip_fixed_lstrip x : rstrip x = x -> rstrip (lstrip x) = lstrip x.
Proof.
  induction x as [|c x IH]; intros H; [reflexivity|]. simpl.
  destruct (isspace c); [|exact H].
  apply IH. now apply rstrip_fixed_tail with c.
Qed.

Lemma both_fixed_strip x : Shape.both_fixed (strip x).
Proof.
  split.
  - rewrite strip_alt. apply lstrip_idempotent.
  - unfold strip. apply rstrip_idempotent.
Qed.

Lemma both_fixed_trimmed x : Shape.both_fixed x -> strip x = x.
Proof. intros [Hl Hr]. unfold strip. now rewrite Hl, Hr. Qed.

Lemma both_fixed_lstrip_suffix a b :
  rstrip (a ++ b) = a ++ b -> Shape.both_fixed (lstrip b).
Proof.
  intros H. split; [apply lstrip_idempotent|].
  now apply rstrip_fixed_lstrip, rstrip_fixed_suffix with a.
Qed.

Lemma drop_bullet_fixed l : Shape.both_fixed l -> Shape.both_fixed (drop_bullet l).
Proof.
  intros Hl. unfold drop_bullet. destruct l as [|c rest]; [exact Hl|].
  destruct (existsb _ _); [|exact Hl].
  apply (both_fixed_lstrip_suffix [c] rest). apply Hl.
Qed.

Lemma drop_number_fixed l : Shape.both_fixed l -> Shape.both_fixed (drop_number l).
Proof.
  intros Hl. unfold drop_number.
  destruct (span is_decimal l) as [digits rest] eqn:Hs.
  destruct digits as [|d ds]; [exact Hl|].
  destruct rest as [|c rest']; [exact Hl|].
  destruct (existsb _ _); [|exact Hl].
  apply span_app in Hs.
  apply (both_fixed_lstrip_suffix ((d :: ds) ++ [c]) rest').
  rewrite <- app_assoc. cbn [app]. cbn [app] in Hs. rewrite <- Hs. apply Hl.
Qed.

Lemma surviving_lines_spec raw c :
  In c (surviving_lines raw) -> Shape.both_fixed c /\ 10 < length c.
Proof.
  unfold surviving_lines. intros [Hc Hlen]%filter_In.
  apply Nat.ltb_lt in Hlen. split; [|exact Hlen].
  apply in_map_iff in Hc as (l & <- & Hl).
  apply filter_In in Hl as [Hl _].
  apply in_map_iff in Hl as (line & <- & _).
  apply drop_number_fixed, drop_bullet_fixed, both_fixed_strip.
Qed.

(** Every bullet returned is non-empty and trimmed; it is longer than 10
    characters unless it is the whole trimmed reply returned as the only
    bullet; and no bullet at all is returned exactly when the reply is
    blank. *)
Theorem parse_bullets_trimmed :
  forall raw : list N,
    (forall b, In b (_parse_bullets raw) ->
               b <> [] /\ strip b = b
               /\ (10 < length b \/ _parse_bullets raw = [strip raw]))
    /\ (_parse_bullets raw = [] <-> strip raw = []).
Proof.
  intros raw. rewrite parse_bullets_eq. unfold parse_bullets_amended.
  destruct (surviving_lines raw) as [|c kept] eqn:Hs.
  - destruct (strip raw) as [|x rest] eqn:Hraw.
    + split; [intros b []|tauto].
    + split; [|split; discriminate].
      cbn [firstn]. intros b [<- | []]. split; [discriminate|].
      split; [|now right]. rewrite <- Hraw. apply strip_idempotent.
  - assert (Hne : strip raw <> []).
    { intros Hraw. rewrite <- surviving_lines_strip, Hraw in Hs.
      discriminate Hs. }
    split.
    + intros b Hb.
      assert (Hin : In b (surviving_lines raw)).
      { rewrite Hs. destruct (strip raw); apply In_firstn_inv in Hb; exact Hb. }
      apply surviving_lines_spec in Hin as [Hfix Hlen].
      split; [destruct b; [simpl in Hlen; lia|discriminate]|].
      split; [now apply both_fixed_trimmed|now left].
    + split; [|intros Hraw; now destruct Hne].
      destruct (strip raw); discriminate.
Qed.

End BulletsTrimmed.

(** ** The attempts of one call of the Anthropic provider *)

Section AnthropicAttempts.
Variable E : Env.
Context {U : UnicodeTables}.
Import AnthropicProvider.

Lemma generate_loop_attempts models :
  forall last_error prompt image_data s,
    let r := generate_loop E models last_error prompt image_data s in
    exists tried rest,
      models = tried ++ rest
      /\ log (snd r) = log s ++ List.map (EvAnthropic false) tried
      /\ _cache (snd r) = _cache s
      /\ available (anthropic (snd r)) = available (anthropic s)
      /\ (model (anthropic (snd r)) = model (anthropic s)
          \/ exists m, In m tried /\ model (anthropic (snd r)) = Some m)
      /\ match fst r with
         | Ok _ => tried <> [] /\ model (anthropic (snd r)) = Some (List.last tried [])
         | Raise e => rest = [] \/ (tried <> [] /\ is_not_found e = false)
         end.
Proof.
  induction models as [|m models IH]; intros last_error prompt image_data s r.
  - exists [], []. subst r. cbn. rewrite app_nil_r. repeat split; now left.
  - subst r. cbn [generate_loop]. unfold try_except.
    rewrite generate_attempt_cases. cbv zeta.
    destruct (anthropic_create E m prompt image_data
                (world (add_log (EvAnthropic false m) s))) as [response w].
    assert (Hnext : forall e (s1 : State E),
      log s1 = log s ++ [EvAnthropic false m] ->
      _cache s1 = _cache s ->
      available (anthropic s1) = available (anthropic s) ->
      (model (anthropic s1) = model (anthropic s)
       \/ model (anthropic s1) = Some m) ->
      is_not_found e = true ->
      let r := generate_loop E models (Some e) prompt image_data s1 in
      exists tried rest,
        m :: models = tried ++ rest
        /\ log (snd r) = log s ++ List.map (EvAnthropic false) tried
        /\ _cache (snd r) = _cache s
        /\ available (anthropic (snd r)) = available (anthropic s)
        /\ (model (anthropic (snd r)) = model (anthropic s)
            \/ exists m, In m tried /\ model (anthropic (snd r)) = Some m)
        /\ match fst r with
           | Ok _ => tried <> [] /\ model (anthropic (snd r)) = Some (List.last tried [])
           | Raise e => rest = [] \/ (tried <> [] /\ is_not_found e = false)
           end).
    { intros e s1 Hl Hc Ha Hm Hnf r.
      destruct (IH (Some e) prompt image_data s1)
        as (tried & rest & -> & Hlog & Hcache & Hav & Hmod & Hres).
      fold r in Hlog, Hcache, Hav, Hmod, Hres.
      exists (m :: tried), rest. split; [reflexivity|].
      split; [rewrite Hlog, Hl; cbn; now rewrite <- app_assoc|].
      split; [congruence|]. split; [congruence|].
      split.
      - destruct Hmod as [Hmod | (m' & Hin & Hmod)].
        + rewrite Hmod. destruct Hm as [Hm | Hm]; [now left|].
          right. exists m. split; [now left|exact Hm].
        + right. exists m'. split; [now right|exact Hmod].
      - destruct (fst r).
        + destruct Hres as [Hne Hlast]. split; [discriminate|].
          rewrite Hlast. destruct tried; [now destruct Hne|reflexivity].
        + destruct Hres as [Hr | [_ Hr]]; [now left|right].
          split; [discriminate|exact Hr]. }
    destruct response as [[text|e]|e].
    + exists [m], models. cbn. repeat split; [|discriminate].
      right. exists m. split; [now left|reflexivity].
    + destruct (is_not_found e) eqn:Hnf; cbn [negb].
      * exact (Hnext e
          (set_anthropic {| available := available (anthropic s); model := Some m |}
             (set_world w (add_log (EvAnthropic false m) s)))
          eq_refl eq_refl eq_refl (or_intror eq_refl) Hnf).
      * exists [m], models. cbn. repeat split.
        -- right. exists m. split; [now left|reflexivity].
        -- right. split; [discriminate|exact Hnf].
    + destruct (is_not_found e) eqn:Hnf; cbn [negb].
      * exact (Hnext e (set_world w (add_log (EvAnthropic false m) s))
                 eq_refl eq_refl eq_refl (or_introl eq_refl) Hnf).
      * exists [m], models. cbn. repeat split; [now left|].
        right. split; [discriminate|exact Hnf].
Qed.

(** One call of generate. A provider that is not available raises at
    once; image data from which the content cannot be built (a data URL
    without a comma) raises before any attempt; in both cases there is no
    call of the API and nothing changes. Otherwise the models attempted
    are a non-empty beginning of the list of fallbacks, in its order. The
    model is recorded as soon as a call of the API returns, before the
    text is read from the response: the model recorded afterwards is the
    one before the call or one of the models attempted, and after a
    success it is the last one attempted; after a failure either every
    model of the list was attempted or the error is not of the not-found
    class. The cache is not touched. *)
Theorem anthropic_generate_attempts :
  forall (prompt : list N) (image_data : option Image) (s : State E),
    let r := AnthropicProvider.generate E prompt image_data s in
    if available (anthropic s) then
      match AnthropicContent._build_content prompt image_data with
      | Raise e => r = (Raise e, s)
      | Ok _ =>
          exists tried rest,
            MODEL_FALLBACKS = tried ++ rest /\ tried <> []
            /\ log (snd r) = log s ++ List.map (EvAnthropic false) tried
            /\ _cache (snd r) = _cache s
            /\ available (anthropic (snd r)) = true
            /\ (model (anthropic (snd r)) = model (anthropic s)
                \/ exists m, In m tried /\ model (anthropic (snd r)) = Some m)
            /\ match fst r with
               | Ok _ => model (anthropic (snd r)) = Some (List.last tried [])
               | Raise e => tried = MODEL_FALLBACKS \/ is_not_found e = false
               end
      end
    else r = (Raise (lit "Anthropic provider not available"), s).
Proof.
  intros prompt image_data s r. subst r. unfold AnthropicProvider.generate.
  destruct (available (anthropic s)) eqn:Hav; cbn [negb]; [|reflexivity].
  destruct (AnthropicContent._build_content prompt image_data) as [content|e0];
    [|reflexivity].
  destruct (generate_loop_attempts MODEL_FALLBACKS None prompt image_data s)
    as (tried & rest & Hsplit & Hlog & Hcache & Hav' & Hmod & Hres).
  exists tried, rest. split; [exact Hsplit|].
  assert (Hne : tried <> []).
  { destruct (fst (generate_loop E MODEL_FALLBACKS None prompt image_data s)).
    - apply Hres.
    - destruct Hres as [-> | [Hne _]]; [|exact Hne].
      rewrite app_nil_r in Hsplit. rewrite <- Hsplit. discriminate. }
  split; [exact Hne|]. split; [exact Hlog|]. split; [exact Hcache|].
  split; [congruence|]. split; [exact Hmod|].
  destruct (fst (generate_loop E MODEL_FALLBACKS None prompt image_data s)).
  - apply Hres.
  - destruct Hres as [-> | [_ Hr]]; [left|now right].
    now rewrite app_nil_r in Hsplit.
Qed.

Lemma stream_attempt_cases m prompt image_data s :
  stream_attempt E m prompt image_data s =
  let s0 := add_log (EvAnthropic true m) s in
  let (outcome, w) := anthropic_stream E m prompt image_data (world s0) in
  match outcome with
  | StreamFailed e => (([], Raise e), set_world w s0)
  | Streamed chunks ending =>
      ((chunks, match ending with Some e => Raise e | None => Ok tt end),
       set_anthropic {| available := available (anthropic s); model := Some m |}
                     (set_world w s0))
  end.
Proof.
  unfold stream_attempt. cbn.
  destruct (anthropic_stream E m prompt image_data (world s)) as [[e|chunks ending] w];
    reflexivity.
Qed.

Lemma stream_loop_attempts models :
  forall last_error prompt image_data s,
    let g := stream_loop E models last_error prompt image_data s in
    exists tried rest,
      models = tried ++ rest
      /\ log (snd g) = log s ++ List.map (EvAnthropic true) tried
      /\ _cache (snd g) = _cache s
      /\ available (anthropic (snd g)) = available (anthropic s)
      /\ (model (anthropic (snd g)) = model (anthropic s)
          \/ exists m, In m tried /\ model (anthropic (snd g)) = Some m)
      /\ match snd (fst g) with
         | Ok _ => tried <> [] /\ model (anthropic (snd g)) = Some (List.last tried [])
         | Raise e => rest = [] \/ (tried <> [] /\ is_not_found e = false)
         end.
Proof.
  induction models as [|m models IH]; intros last_error prompt image_data s g.
  - exists [], []. subst g. cbn. rewrite app_nil_r. repeat split; now left.
  - subst g. cbn [stream_loop]. unfold gtry_except.
    rewrite stream_attempt_cases. cbv zeta.
    destruct (anthropic_stream E m prompt image_data
                (world (add_log (EvAnthropic true m) s))) as [outcome w].
    assert (Hnext : forall e (s1 : State E),
      log s1 = log s ++ [EvAnthropic true m] ->
      _cache s1 = _cache s ->
      available (anthropic s1) = available (anthropic s) ->
      (model (anthropic s1) = model (anthropic s)
       \/ model (anthropic s1) = Some m) ->
      is_not_found e = true ->
      let g := stream_loop E models (Some e) prompt image_data s1 in
      exists tried rest,
        m :: models = tried ++ rest
        /\ log (snd g) = log s ++ List.map (EvAnthropic true) tried
        /\ _cache (snd g) = _cache s
        /\ available (anthropic (snd g)) = available (anthropic s)
        /\ (model (anthropic (snd g)) = model (anthropic s)
            \/ exists m, In m tried /\ model (anthropic (snd g)) = Some m)
        /\ match snd (fst g) with
           | Ok _ => tried <> [] /\ model (anthropic (snd g)) = Some (List.last tried [])
           | Raise e => rest = [] \/ (tried <> [] /\ is_not_found e = false)
           end).
    { intros e s1 Hl Hc Ha Hm Hnf g.
      destruct (IH (Some e) prompt image_data s1)
        as (tried & rest & -> & Hlog & Hcache & Hav & Hmod & Hres).
      fold g in Hlog, Hcache, Hav, Hmod, Hres.
      exists (m :: tried), rest. split; [reflexivity|].
      split; [rewrite Hlog, Hl; cbn; now rewrite <- app_assoc|].
      split; [congruence|]. split; [congruence|].
      split.
      - destruct Hmod as [Hmod | (m' & Hin & Hmod)].
        + rewrite Hmod. destruct Hm as [Hm | Hm]; [now left|].
          right. exists m. split; [now left|exact Hm].
        + right. exists m'. split; [now right|exact Hmod].
      - destruct (snd (fst g)).
        + destruct Hres as [Hne Hlast]. split; [discriminate|].
          rewrite Hlast. destruct tried; [now destruct Hne|reflexivity].
        + destruct Hres as [Hr | [_ Hr]]; [now left|right].
          split; [discriminate|exact Hr]. }
    destruct outcome as [e|chunks [e|]].
    + destruct (is_not_found e) eqn:Hnf; cbn [negb].
      * specialize (Hnext e (set_world w (add_log (EvAnthropic true m) s))
                      eq_refl eq_refl eq_refl (or_introl eq_refl) Hnf).
        cbv zeta in Hnext.
        destruct (stream_loop E models (Some e) prompt image_data
                    (set_world w (add_log (EvAnthropic true m) s)))
          as [[ys r] s2].
        exact Hnext.
      * exists [m], models. cbn. repeat split; [now left|].
        right. split; [discriminate|exact Hnf].
    + destruct (is_not_found e) eqn:Hnf; cbn [negb].
      * specialize (Hnext e
          (set_anthropic {| available := available (anthropic s); model := Some m |}
             (set_world w (add_log (EvAnthropic true m) s)))
          eq_refl eq_refl eq_refl (or_intror eq_refl) Hnf).
        cbv zeta in Hnext.
        destruct (stream_loop E models (Some e) prompt image_data
          (set_anthropic {| available := available (anthropic s); model := Some m |}
             (set_world w (add_log (EvAnthropic true m) s))))
          as [[ys r] s2].
        exact Hnext.
      * exists [m], models. cbn. repeat split.
        -- right. exists m. split; [now left|reflexivity].
        -- right. split; [discriminate|exact Hnf].
    + exists [m], models. cbn. repeat split; [|discriminate].
      right. exists m. split; [now left|reflexivity].
Qed.

(** One call of stream. A provider that is not available, or image data
    from which the content cannot be built, raises before any chunk and
    without any call of the API. Otherwise the models attempted are a
    non-empty beginning of the list of fallbacks, in its order; the model
    recorded afterwards is the one before the call or one of the models
    attempted, and after a normal end it is the last one attempted; after
    a failure either every model of the list was attempted or the error
    is not of the not-found class. The cache is not touched. *)
Theorem anthropic_stream_attempts :
  forall (prompt : list N) (image_data : option Image) (s : State E),
    let g := AnthropicProvider.stream E prompt image_data s in
    if available (anthropic s) then
      match AnthropicContent._build_content prompt image_data with
      | Raise e => g = (([], Raise e), s)
      | Ok _ =>
          exists tried rest,
            MODEL_FALLBACKS = tried ++ rest /\ tried <> []
            /\ log (snd g) = log s ++ List.map (EvAnthropic true) tried
            /\ _cache (snd g) = _cache s
            /\ available (anthropic (snd g)) = true
            /\ (model (anthropic (snd g)) = model (anthropic s)
                \/ exists m, In m tried /\ model (anthropic (snd g)) = Some m)
            /\ match snd (fst g) with
               | Ok _ => model (anthropic (snd g)) = Some (List.last tried [])
               | Raise e => tried = MODEL_FALLBACKS \/ is_not_found e = false
               end
      end
    else g = (([], Raise (lit "Anthropic provider not available")), s).
Proof.
  intros prompt image_data s g. subst g. unfold AnthropicProvider.stream.
  destruct (available (anthropic s)) eqn:Hav; cbn [negb]; [|reflexivity].
  destruct (AnthropicContent._build_content prompt image_data) as [content|e0];
    [|reflexivity].
  destruct (stream_loop_attempts MODEL_FALLBACKS None prompt image_data s)
    as (tried & rest & Hsplit & Hlog & Hcache & Hav' & Hmod & Hres).
  exists tried, rest. split; [exact Hsplit|].
  assert (Hne : tried <> []).
  { destruct (snd (fst (stream_loop E MODEL_FALLBACKS None prompt image_data s))).
    - apply Hres.
    - destruct Hres as [-> | [Hne _]]; [|exact Hne].
      rewrite app_nil_r in Hsplit. rewrite <- Hsplit. discriminate. }
  split; [exact Hne|]. split; [exact Hlog|]. split; [exact Hcache|].
  split; [congruence|]. split; [exact Hmod|].
  destruct (snd (fst (stream_loop E MODEL_FALLBACKS None prompt image_data s))).
  - apply Hres.
  - destruct Hres as [-> | [_ Hr]]; [left|now right].
    now rewrite app_nil_r in Hsplit.
Qed.

End AnthropicAttempts.

(** A call that fails after the API has returned leaves another model
    recorded: the first model of the list is unknown, the response of the
    second holds no content block, and the provider, set to the first
    model before the call, is set to the second one after it. *)
Example generate_failure_changes_model :
  let E := Examples.with_empty_responses (Examples.demo true true) in
  let s := Examples.fresh E 0%Z in
  let r := @AnthropicProvider.generate E ascii_only (lit "prompt") None s in
  fst r = Raise (lit "list index out of range")
  /\ model (anthropic s) = Some Examples.model_1
  /\ model (anthropic (snd r)) = Some Examples.model_2
  /\ log (snd r)
     = [EvAnthropic false Examples.model_1; EvAnthropic false Examples.model_2].
Proof. vm_compute. repeat split; reflexivity. Qed.

(** ** The numbers of the prompt and the numbers of the sources *)

Section PromptNumbers.
Context {U : UnicodeTables}.
Import Prompts PostExplainer.

Lemma context_parts_nth results : forall i k r,
  nth_error results k = Some r ->
  nth_error (context_parts i results) k
  = Some (lit "[" ++ str_of_nat (i + k) ++ lit "] " ++ SearchResult.title r
          ++ lit "
    URL: " ++ SearchResult.url r
          ++ lit "
    Content: " ++ SearchResult.snippet r).
Proof.
  induction results as [|r0 results IH]; intros i k r Hk.
  - destruct k; discriminate Hk.
  - destruct k as [|k]; cbn [context_parts nth_error] in *.
    + injection Hk as ->. now rewrite Nat.add_0_r.
    + rewrite (IH (S i) k r Hk). now replace (S i + k) with (i + S k) by lia.
Qed.

Lemma join_has_part sep parts : forall p,
  In p parts -> exists before after, QueryExtractor.join sep parts = before ++ p ++ after.
Proof.
  induction parts as [|q parts IH]; intros p Hp; [contradiction|].
  destruct Hp as [-> | Hp].
  - destruct parts as [|q' parts].
    + exists [], []. cbn. now rewrite app_nil_r.
    + exists [], (sep ++ QueryExtractor.join sep (q' :: parts)). reflexivity.
  - destruct (IH p Hp) as (before & after & Hj).
    destruct parts as [|q' parts]; [contradiction|].
    exists (q ++ sep ++ before), after.
    change (QueryExtractor.join sep (q :: q' :: parts))
      with (q ++ sep ++ QueryExtractor.join sep (q' :: parts)).
    rewrite Hj. now rewrite <- !app_assoc.
Qed.

Lemma prompt_has_part post_text results p :
  In p (context_parts 1 results) ->
  exists before after,
    build_explanation_prompt post_text results = before ++ p ++ after.
Proof.
  intros Hp. unfold build_explanation_prompt. cbv zeta.
  destruct (context_parts 1 results) as [|q parts] eqn:Hparts; [contradiction|].
  change (truthy_list (q :: parts)) with true. cbv iota.
  generalize (lit "

"). intros sep.
  destruct (join_has_part sep (q :: parts) p Hp) as (before & after & ->).
  unfold EXPLANATION_PROMPT.
  repeat match goal with
         | |- context [lit ?s] => let l := fresh "l" in generalize (lit s); intros l
         end.
  match goal with
  | |- exists b a, ?x1 ++ ?x2 ++ ?x3 ++ ?x4 ++ ?x5 ++ _ ++ ?rest = _ =>
      exists (x1 ++ x2 ++ x3 ++ x4 ++ x5 ++ before), (after ++ rest)
  end.
  rewrite <- !app_assoc. reflexivity.
Qed.

(** The prompt and the sources number the search results alike: for
    every source returned with a reply, the prompt built from the same
    results holds the block that begins with the source's id in square
    brackets, followed by the source's title and URL and by the whole
    snippet of the result the source was made from. *)
Theorem prompt_numbers_match_sources :
  forall (E : Env) (post_text response : list N)
         (search_results : list SearchResult.t)
         (sources : list Source.t) (src : Source.t),
    _build_sources E search_results response = Ok sources ->
    In src sources ->
    exists r before after,
      nth_error search_results (Source.id src - 1) = Some r
      /\ 1 <= Source.id src <= length search_results
      /\ src = to_source (Source.id src) r
      /\ build_explanation_prompt post_text search_results
         = before
           ++ (lit "[" ++ str_of_nat (Source.id src) ++ lit "] "
               ++ Source.title src
               ++ lit "
    URL: " ++ Source.url src
               ++ lit "
    Content: " ++ SearchResult.snippet r)
           ++ after.
Proof.
  intros E post_text response search_results sources src Hb Hin.
  unfold _build_sources in Hb.
  destruct (citations E response) as [cited|e]; [|discriminate].
  injection Hb as <-.
  apply build_sources_from_elem in Hin as (r & Hnth & Hle & Hsrc).
  pose proof (context_parts_nth search_results 1 _ r Hnth) as Hpart.
  replace (1 + (Source.id src - 1)) with (Source.id src) in Hpart by lia.
  apply nth_error_In in Hpart.
  destruct (prompt_has_part post_text search_results _ Hpart)
    as (before & after & Hprompt).
  exists r, before, after. split; [exact Hnth|].
  split.
  - split; [exact Hle|].
    assert (Source.id src - 1 < length search_results)
      by (apply nth_error_Some; congruence).
    lia.
  - split; [exact Hsrc|].
    rewrite Hprompt.
    replace (Source.title src) with (SearchResult.title r)
      by (rewrite Hsrc; reflexivity).
    replace (Source.url src) with (SearchResult.url r)
      by (rewrite Hsrc; reflexivity).
    reflexivity.
Qed.

End PromptNumbers.

(** The block of the second of two results. *)
Lemma prompt_numbers_match_sources_witness :
  let E := Examples.demo true true in
  let sources := [PostExplainer.to_source 1 Examples.result_a;
                  PostExplainer.to_source 2 Examples.result_b] in
  @PostExplainer._build_sources E ascii_only
     [Examples.result_a; Examples.result_b] (lit "nothing cited")
  = Ok sources
  /\ In (PostExplainer.to_source 2 Examples.result_b) sources
  /\ exists r before after,
       nth_error [Examples.result_a; Examples.result_b] 1 = Some r
       /\ 1 <= 2 <= 2
       /\ PostExplainer.to_source 2 Examples.result_b
          = PostExplainer.to_source 2 r
       /\ Prompts.build_explanation_prompt (lit "post")
            [Examples.result_a; Examples.result_b]
          = before
            ++ (lit "[" ++ Prompts.str_of_nat 2 ++ lit "] "
                ++ lit "Beta"
                ++ lit "
    URL: " ++ lit "https://b.example/"
                ++ lit "
    Content: " ++ SearchResult.snippet r)
            ++ after.
Proof.
  intros E sources.
  assert (Hb : @PostExplainer._build_sources E ascii_only
                 [Examples.result_a; Examples.result_b] (lit "nothing cited")
               = Ok sources)
    by (vm_compute; reflexivity).
  assert (H : In (PostExplainer.to_source 2 Examples.result_b) sources)
    by (right; left; reflexivity).
  split; [exact Hb|]. split; [exact H|].
  exact (@prompt_numbers_match_sources ascii_only E (lit "post")
           (lit "nothing cited") [Examples.result_a; Examples.result_b]
           sources (PostExplainer.to_source 2 Examples.result_b) Hb H).
Defined.

(** ** The first query *)

Section FirstQuery.
Context {U : UnicodeTables}.
Import QueryExtractor.

Lemma extends_refl {A} (a : list A) : Shape.extends a a.
Proof. exists []. now rewrite app_nil_r. Qed.

Lemma extends_trans {A} (a b c : list A) :
  Shape.extends a b -> Shape.extends b c -> Shape.extends a c.
Proof. intros [e1 ->] [e2 ->]. exists (e1 ++ e2). now rewrite app_assoc. Qed.

Lemma extends_app {A} (a e : list A) : Shape.extends a (a ++ e).
Proof. now exists e. Qed.

(** A loop that only appends keeps what the list began with. *)
Lemma fold_left_extends {A B} (f : list A -> B -> list A) (l : list B) :
  (forall acc x, Shape.extends acc (f acc x)) ->
  forall acc, Shape.extends acc (fold_left f l acc).
Proof.
  intros Hf. induction l as [|x l IH]; intros acc; [apply extends_refl|].
  cbn. eapply extends_trans; [apply Hf|apply IH].
Qed.

Lemma candidates_extends text :
  let first :=
    if length text <=? 200 then text
    else if length (fst (span (fun c => negb (is_sentence_end c)) text)) <=? 200
         then fst (span (fun c => negb (is_sentence_end c)) text)
         else firstn 200 text in
  Shape.extends [first] (candidates text).
Proof.
  intros first. unfold candidates. cbv zeta. cbn [app].
  eapply extends_trans; [|apply fold_left_extends].
  eapply extends_trans; [|apply fold_left_extends].
  eapply extends_trans;
    [|destruct (truthy_list (Re.findall (match_tag 35%N) text));
      [destruct (negb _); [apply extends_app|]|]; apply extends_refl].
  eapply extends_trans; [|apply fold_left_extends].
  - unfold first. destruct (length text <=? 200); [apply extends_refl|].
    destruct (length _ <=? 200); apply extends_refl.
  - intros acc x. destruct (_ && _); [apply extends_app|apply extends_refl].
  - intros acc x. destruct (_ && _); [apply extends_app|apply extends_refl].
  - intros acc x. destruct (_ <? _); [apply extends_app|apply extends_refl].
Qed.

Lemma candidates_head text :
  exists first rest,
    candidates text = first :: rest
    /\ length first <= 200
    /\ Shape.is_prefix first text
    /\ (length text <= 200 -> first = text).
Proof.
  destruct (candidates_extends text) as (ext & Hc). cbv zeta in Hc.
  eexists _, ext. split; [exact Hc|].
  destruct (length text <=? 200) eqn:Hlen.
  - apply Nat.leb_le in Hlen. split; [exact Hlen|].
    split; [exists []; now rewrite app_nil_r|reflexivity].
  - apply Nat.leb_gt in Hlen.
    destruct (span (fun c => negb (is_sentence_end c)) text) as [a b] eqn:Hs.
    cbn [fst].
    destruct (length a <=? 200) eqn:Ha.
    + apply Nat.leb_le in Ha. split; [exact Ha|].
      split; [exists b; now apply span_app in Hs|lia].
    + split; [rewrite length_firstn; lia|].
      split; [exists (skipn 200 text); now rewrite firstn_skipn|lia].
Qed.

Lemma dedup_fold_extends qs : forall st,
  exists ext, snd (fold_left dedup_step qs st) = snd st ++ ext.
Proof.
  induction qs as [|q qs IH]; intros st.
  - exists []. cbn. now rewrite app_nil_r.
  - cbn [fold_left]. destruct (IH (dedup_step st q)) as (ext & ->).
    destruct st as [seen unique]. unfold dedup_step.
    destruct (_ && _); cbn [snd]; [|now exists ext].
    exists (q :: ext). now rewrite <- app_assoc.
Qed.

(** The first candidate is always a beginning of the trimmed post of at
    most 200 characters, and the trimmed post itself when that is not
    longer than 200 characters; whenever it is longer than 3 characters
    after lower-casing and trimming, it is the first query returned. *)
Theorem first_query_is_the_post :
  forall post_text : list N,
    let text := strip post_text in
    exists first rest,
      candidates text = first :: rest
      /\ length first <= 200
      /\ Shape.is_prefix first text
      /\ (length text <= 200 -> first = text)
      /\ (3 < length (normalized first) ->
          exists more, extract_search_queries post_text = first :: more).
Proof.
  intros post_text text.
  destruct (candidates_head text) as (first & rest & Hc & Hlen & Hpre & Hshort).
  exists first, rest. repeat split; try assumption.
  intros Hn. unfold extract_search_queries. fold text. rewrite Hc.
  unfold dedup. cbn [fold_left].
  destruct (dedup_fold_extends rest (dedup_step (∅, []) first)) as (ext & ->).
  unfold dedup_step. fold (normalized first).
  rewrite bool_decide_eq_true_2 by apply not_elem_of_empty.
  apply Nat.ltb_lt in Hn. rewrite Hn. cbn.
  now exists (firstn 2 ext).
Qed.

(** White space around the post plays no part in the queries. *)
Theorem extract_ignores_surrounding_blanks :
  forall a post_text b : list N,
    forallb isspace a = true -> forallb isspace b = true ->
    extract_search_queries (a ++ post_text ++ b)
    = extract_search_queries post_text.
Proof.
  intros a post_text b Ha Hb. unfold extract_search_queries.
  now rewrite strip_padded.
Qed.

End FirstQuery.

(** A post between a tab and a line break. *)
Lemma extract_ignores_surrounding_blanks_witness :
  @QueryExtractor.extract_search_queries ascii_only
     ([9%N] ++ lit "What is #rocq about" ++ [10%N])
  = @QueryExtractor.extract_search_queries ascii_only (lit "What is #rocq about").
Proof.
  apply (@extract_ignores_surrounding_blanks ascii_only [9%N]
           (lit "What is #rocq about") [10%N]); reflexivity.
Defined.

(** ** More on the search orchestrator *)

Section SearchMore.
Variable E : Env.
Import SearchService Spec.

Lemma slice_to_In {A} n (l : list A) x : In x (slice_to n l) -> In x l.
Proof. unfold slice_to. destruct (0 <=? n)%Z; apply In_firstn_inv. Qed.

Lemma rank_In all_results r : In r (rank E all_results) -> In r all_results.
Proof.
  unfold rank. intros H%slice_to_In.
  apply (Permutation_in _ (sort_desc_perm E _)) in H.
  rewrite dedup_keep_first in H. now apply keep_first_In.
Qed.

Lemma handled_sources n queries s found s' :
  handled E n queries s found s' ->
  forall r, In r found ->
    exists q w rs w',
      In q queries /\ In r rs
      /\ (tavily_search E q n w = (Ok rs, w')
          \/ (brave_api_key E = true /\ brave_search E q n w = (Ok rs, w'))).
Proof.
  induction 1 as
    [s | q qs s rs s1 found s' Hp Hh IH
       | q qs s e s1 rs s2 found s' Hp Hk Hf Hh IH
       | q qs s e s1 e' s2 found s' Hp Hk Hf Hh IH
       | q qs s e s1 found s' Hp Hk Hh IH]; intros r Hr.
  - contradiction.
  - apply in_app_iff in Hr as [Hr | Hr].
    + unfold primary_call in Hp.
      destruct (tavily_search E q n (world s)) as [res w] eqn:Ht.
      injection Hp as -> _.
      exists q, (world s), rs, w. split; [now left|]. split; [exact Hr|now left].
    + destruct (IH r Hr) as (q' & w & rs' & w' & Hq & Hin & Hcall).
      exists q', w, rs', w'. split; [now right|]. now split.
  - apply in_app_iff in Hr as [Hr | Hr].
    + unfold fallback_call in Hf.
      destruct (brave_search E q n (world s1)) as [res w] eqn:Ht.
      injection Hf as -> _.
      exists q, (world s1), rs, w. split; [now left|]. split; [exact Hr|].
      right. now split.
    + destruct (IH r Hr) as (q' & w & rs' & w' & Hq & Hin & Hcall).
      exists q', w, rs', w'. split; [now right|]. now split.
  - destruct (IH r Hr) as (q' & w & rs' & w' & Hq & Hin & Hcall).
    exists q', w, rs', w'. split; [now right|]. now split.
  - destruct (IH r Hr) as (q' & w & rs' & w' & Hq & Hin & Hcall).
    exists q', w, rs', w'. split; [now right|]. now split.
Qed.

(** The orchestrator invents nothing: every result it returns was
    returned, whole, by a successful call of a provider for one of the
    queries, and by the fallback provider only if one is configured. *)
Theorem search_results_come_from_providers :
  forall (queries : list (list N)) (max_results_per_query : Z) (s : State E)
         (out : list SearchResult.t) (r : SearchResult.t),
    fst (search E queries max_results_per_query s) = Ok out ->
    In r out ->
    exists q w rs w',
      In q queries /\ In r rs
      /\ (tavily_search E q max_results_per_query w = (Ok rs, w')
          \/ (brave_api_key E = true
              /\ brave_search E q max_results_per_query w = (Ok rs, w'))).
Proof.
  intros queries n s out r Hout Hr.
  destruct (search_never_raises_aux E n queries s) as (found & s' & Hs & Hh).
  rewrite Hs in Hout. injection Hout as <-.
  apply rank_In in Hr. now apply (handled_sources n queries s found s' Hh).
Qed.

Lemma handled_events n queries s found s' :
  handled E n queries s found s' ->
  exists evs,
    log s' = log s ++ evs
    /\ List.filter (fun ev => match ev with
                              | EvSearch false _ => true
                              | _ => false
                              end) evs
       = List.map (EvSearch false) queries
    /\ (forall ev, In ev evs ->
          exists q, In q queries
                    /\ (ev = EvSearch false q
                        \/ (ev = EvSearch true q /\ brave_api_key E = true)))
    /\ length queries <= length evs <= 2 * length queries
    /\ _cache s' = _cache s /\ anthropic s' = anthropic s.
Proof.
  assert (Hprim : forall q s r s1, primary_call E n q s = (r, s1) ->
            log s1 = log s ++ [EvSearch false q]
            /\ _cache s1 = _cache s /\ anthropic s1 = anthropic s).
  { intros q s0 r s1 Hp. unfold primary_call in Hp.
    destruct (tavily_search E q n (world s0)) as [res w].
    injection Hp as _ <-. now repeat split. }
  assert (Hfall : forall q s r s1, fallback_call E n q s = (r, s1) ->
            log s1 = log s ++ [EvSearch true q]
            /\ _cache s1 = _cache s /\ anthropic s1 = anthropic s).
  { intros q s0 r s1 Hp. unfold fallback_call in Hp.
    destruct (brave_search E q n (world s0)) as [res w].
    injection Hp as _ <-. now repeat split. }
  assert (Hlift : forall q qs (P : pystr -> Event -> Prop) evs,
            (forall ev, In ev evs -> exists q0, In q0 qs /\ P q0 ev) ->
            forall ev, In ev evs -> exists q0, In q0 (q :: qs) /\ P q0 ev).
  { intros q qs P evs H ev Hev. destruct (H ev Hev) as (q0 & Hq0 & HP).
    exists q0. split; [now right|exact HP]. }
  induction 1 as
    [s | q qs s rs s1 found s' Hp Hh IH
       | q qs s e s1 rs s2 found s' Hp Hk Hf Hh IH
       | q qs s e s1 e' s2 found s' Hp Hk Hf Hh IH
       | q qs s e s1 found s' Hp Hk Hh IH].
  - exists []. rewrite app_nil_r. repeat split; try (simpl; lia).
  - destruct IH as (evs & Hlog & Hfil & Hin & Hlen & Hc & Ha).
    apply Hprim in Hp as (Hl1 & Hc1 & Ha1).
    exists (EvSearch false q :: evs).
    split; [rewrite Hlog, Hl1, <- app_assoc; reflexivity|].
    split; [cbn; now rewrite Hfil|].
    split.
    + intros ev [<- | Hev].
      * exists q. split; [now left|now left].
      * revert ev Hev. apply (Hlift q qs (fun q0 ev =>
          ev = EvSearch false q0
          \/ (ev = EvSearch true q0 /\ brave_api_key E = true))). exact Hin.
    + split; [cbn [length]; lia|]. split; congruence.
  - destruct IH as (evs & Hlog & Hfil & Hin & Hlen & Hc & Ha).
    apply Hprim in Hp as (Hl1 & Hc1 & Ha1).
    apply Hfall in Hf as (Hl2 & Hc2 & Ha2).
    exists (EvSearch false q :: EvSearch true q :: evs).
    split; [rewrite Hlog, Hl2, Hl1, <- !app_assoc; reflexivity|].
    split; [cbn; now rewrite Hfil|].
    split.
    + intros ev [<- | [<- | Hev]].
      * exists q. split; [now left|now left].
      * exists q. split; [now left|right; now split].
      * revert ev Hev. apply (Hlift q qs (fun q0 ev =>
          ev = EvSearch false q0
          \/ (ev = EvSearch true q0 /\ brave_api_key E = true))). exact Hin.
    + split; [cbn [length]; lia|]. split; congruence.
  - destruct IH as (evs & Hlog & Hfil & Hin & Hlen & Hc & Ha).
    apply Hprim in Hp as (Hl1 & Hc1 & Ha1).
    apply Hfall in Hf as (Hl2 & Hc2 & Ha2).
    exists (EvSearch false q :: EvSearch true q :: evs).
    split; [rewrite Hlog, Hl2, Hl1, <- !app_assoc; reflexivity|].
    split; [cbn; now rewrite Hfil|].
    split.
    + intros ev [<- | [<- | Hev]].
      * exists q. split; [now left|now left].
      * exists q. split; [now left|right; now split].
      * revert ev Hev. apply (Hlift q qs (fun q0 ev =>
          ev = EvSearch false q0
          \/ (ev = EvSearch true q0 /\ brave_api_key E = true))). exact Hin.
    + split; [cbn [length]; lia|]. split; congruence.
  - destruct IH as (evs & Hlog & Hfil & Hin & Hlen & Hc & Ha).
    apply Hprim in Hp as (Hl1 & Hc1 & Ha1).
    exists (EvSearch false q :: evs).
    split; [rewrite Hlog, Hl1, <- app_assoc; reflexivity|].
    split; [cbn; now rewrite Hfil|].
    split.
    + intros ev [<- | Hev].
      * exists q. split; [now left|now left].
      * revert ev Hev. apply (Hlift q qs (fun q0 ev =>
          ev = EvSearch false q0
          \/ (ev = EvSearch true q0 /\ brave_api_key E = true))). exact Hin.
    + split; [cbn [length]; lia|]. split; congruence.
Qed.

(** What a search does besides returning: it calls the primary provider
    exactly once for each query, in the order of the queries; every other
    call is a call of the fallback provider for one of the queries, made
    only when one is configured; so there are between one and two calls
    for each query. The cache and the Anthropic provider are not
    touched. *)
Theorem search_calls :
  forall (queries : list (list N)) (max_results_per_query : Z) (s : State E),
    let s' := snd (search E queries max_results_per_query s) in
    exists evs,
      log s' = log s ++ evs
      /\ List.filter (fun ev => match ev with
                                | EvSearch false _ => true
                                | _ => false
                                end) evs
         = List.map (EvSearch false) queries
      /\ (forall ev, In ev evs ->
            exists q, In q queries
                      /\ (ev = EvSearch false q
                          \/ (ev = EvSearch true q /\ brave_api_key E = true)))
      /\ length queries <= length evs <= 2 * length queries
      /\ _cache s' = _cache s /\ anthropic s' = anthropic s.
Proof.
  intros queries n s s'.
  destruct (search_never_raises_aux E n queries s) as (found & s1 & Hs & Hh).
  subst s'. rewrite Hs. cbn [snd].
  destruct (handled_events n queries s found s1 Hh)
    as (evs & Hlog & Hfil & Hin & Hlen & Hc & Ha).
  exists evs. repeat split; try assumption; lia.
Qed.

End SearchMore.

(** In the demo world the first result of a search came from the primary
    provider. *)
Lemma search_results_come_from_providers_witness :
  let E := Examples.demo true true in
  fst (SearchService.search E [lit "first query"] 5 (Examples.fresh E 0%Z))
  = Ok [Examples.result_a; Examples.result_b]
  /\ In Examples.result_a [Examples.result_a; Examples.result_b]
  /\ exists q w rs w',
       In q [lit "first query"] /\ In Examples.result_a rs
       /\ (tavily_search E q 5 w = (Ok rs, w')
           \/ (brave_api_key E = true /\ brave_search E q 5 w = (Ok rs, w'))).
Proof.
  intros E.
  assert (H1 : fst (SearchService.search E [lit "first query"] 5
                      (Examples.fresh E 0%Z))
               = Ok [Examples.result_a; Examples.result_b])
    by (vm_compute; reflexivity).
  assert (H2 : In Examples.result_a [Examples.result_a; Examples.result_b])
    by (left; reflexivity).
  split; [exact H1|]. split; [exact H2|].
  exact (search_results_come_from_providers E [lit "first query"] 5
           (Examples.fresh E 0%Z) [Examples.result_a; Examples.result_b]
           Examples.result_a H1 H2).
Defined.

(** ** The comparison of the providers *)

Section CompareFacts.
Variable E : Env.
Context {U : UnicodeTables}.
Variable anthropic_api_key : bool.
Import Providers.

Lemma openai_generate_frame prompt image_data s :
  _cache (snd (OpenAIProvider.generate E prompt image_data s)) = _cache s
  /\ anthropic (snd (OpenAIProvider.generate E prompt image_data s))
     = anthropic s.
Proof.
  change (OpenAIProvider.generate E prompt image_data s)
    with (LLMService.generate E prompt image_data s).
  rewrite generate_cases.
  destruct (openai_create E prompt image_data (world s)) as [r w]. now split.
Qed.

Lemma anthropic_generate_frame prompt image_data s :
  _cache (snd (AnthropicProvider.generate E prompt image_data s)) = _cache s
  /\ available (anthropic (snd (AnthropicProvider.generate E prompt image_data s)))
     = available (anthropic s).
Proof.
  unfold AnthropicProvider.generate.
  destruct (negb (available (anthropic s))); [now split|].
  destruct (AnthropicContent._build_content prompt image_data); [|now split].
  destruct (generate_loop_attempts E AnthropicProvider.MODEL_FALLBACKS None
              prompt image_data s) as (tried & rest & _ & _ & Hc & Ha & _).
  now split.
Qed.

(** The loop of the service, resolved: the names, the dispatch and the
    dict. *)
Lemma llm_compare_cases prompt image_data s :
  compare_providers E anthropic_api_key prompt image_data s =
  let r1 := OpenAIProvider.generate E prompt image_data s in
  let text := fun r : result (list N) =>
                match r with Ok t => t | Raise e => lit "Error: " ++ e end in
  if anthropic_api_key && available (anthropic s) then
    let r2 := AnthropicProvider.generate E prompt image_data (snd r1) in
    (Ok [(lit "openai", text (fst r1)); (lit "anthropic", text (fst r2))],
     snd r2)
  else (Ok [(lit "openai", text (fst r1))], snd r1).
Proof.
  unfold compare_providers, get_available_providers. cbv zeta.
  destruct (anthropic_api_key && available (anthropic s)) eqn:Hk.
  - apply andb_true_iff in Hk as [-> _].
    cbn [app compare_loop]. unfold compare_step, try_except. unfold bind, ret.
    change (get_provider true (lit "openai")) with OpenAI.
    change (get_provider true (lit "anthropic")) with Anthropic.
    cbn [provider_generate].
    destruct (OpenAIProvider.generate E prompt image_data s) as [[t1|e1] s1];
      cbn [fst snd];
      destruct (AnthropicProvider.generate E prompt image_data s1) as [[t2|e2] s2];
      reflexivity.
  - cbn [compare_loop]. unfold compare_step, try_except. unfold bind, ret.
    replace (get_provider anthropic_api_key (lit "openai")) with OpenAI
      by (unfold get_provider; now destruct anthropic_api_key).
    cbn [provider_generate].
    destruct (OpenAIProvider.generate E prompt image_data s) as [[t1|e1] s1];
      reflexivity.
Qed.

(** The comparison at the level of the service: every available provider
    is asked exactly once, OpenAI first and Anthropic only when it is
    configured and available; a failure of a provider becomes its entry,
    the message behind the tag Error, and does not keep the next provider
    from being asked. The call never raises. *)
Theorem llm_compare_providers_entries :
  forall (prompt : list N) (image_data : option Image) (s : State E),
    let r1 := OpenAIProvider.generate E prompt image_data s in
    let r2 := AnthropicProvider.generate E prompt image_data (snd r1) in
    let text := fun r : result (list N) =>
                  match r with Ok t => t | Raise e => lit "Error: " ++ e end in
    let asked := anthropic_api_key && available (anthropic s) in
    compare_providers E anthropic_api_key prompt image_data s
    = (Ok ((lit "openai", text (fst r1))
           :: (if asked then [(lit "anthropic", text (fst r2))] else [])),
       if asked then snd r2 else snd r1)
    /\ List.map fst
         ((lit "openai", text (fst r1))
          :: (if asked then [(lit "anthropic", text (fst r2))] else []))
       = get_available_providers E anthropic_api_key s.
Proof.
  intros prompt image_data s r1 r2 text asked.
  rewrite llm_compare_cases. cbv zeta. fold r1 r2 asked.
  unfold get_available_providers. fold asked.
  destruct asked; split; reflexivity.
Qed.

Lemma process_image_frame image_url s :
  exists image_data s',
    PostExplainer.process_image E image_url s = (Ok image_data, s')
    /\ _cache s' = _cache s /\ anthropic s' = anthropic s.
Proof.
  unfold PostExplainer.process_image.
  destruct (truthy (PostExplainer.or_empty image_url)).
  - unfold bind, tell, call. simpl.
    destruct (prepare_image_for_vision E (PostExplainer.or_empty image_url)
                (world s)) as [image_data w].
    now eexists _, _.
  - now exists None, s.
Qed.

Lemma search_frame queries n s :
  exists results s',
    SearchService.search E queries n s = (Ok results, s')
    /\ _cache s' = _cache s /\ anthropic s' = anthropic s.
Proof.
  destruct (search_never_raises_aux E n queries s) as (found & s' & Hs & Hh).
  exists (SearchService.rank E found), s'. split; [exact Hs|].
  destruct (handled_events E n queries s found s' Hh)
    as (evs & _ & _ & _ & _ & Hc & Ha).
  now split.
Qed.

(** What the body of the loop over the replies does with one reply. *)
Lemma parse_response_cases results raw :
  match Comparison.parse_response E results raw with
  | Ok entry =>
      if startswith (lit "Error:") raw
      then entry = {| Comparison.error := Some raw;
                      Comparison.bullets := [];
                      Comparison.sources := [] |}
      else Comparison.error entry = None
           /\ Comparison.bullets entry = PostExplainer._parse_bullets raw
           /\ PostExplainer._build_sources E results raw
              = Ok (Comparison.sources entry)
  | Raise e =>
      startswith (lit "Error:") raw = false
      /\ PostExplainer._build_sources E results raw = Raise e
  end.
Proof.
  unfold Comparison.parse_response.
  destruct (startswith (lit "Error:") raw) eqn:Hs; [reflexivity|].
  destruct (PostExplainer._build_sources E results raw) as [sources|e];
    now repeat split.
Qed.

Lemma parse_response_shape results raw entry :
  Comparison.parse_response E results raw = Ok entry ->
  match Comparison.error entry with
  | Some text =>
      startswith (lit "Error:") text = true
      /\ Comparison.bullets entry = []
      /\ Comparison.sources entry = []
  | None =>
      length (Comparison.bullets entry) <= 5
      /\ StronglySorted lt (List.map Source.id (Comparison.sources entry))
  end.
Proof.
  unfold Comparison.parse_response.
  destruct (startswith (lit "Error:") raw) eqn:Hs.
  - intros [= <-]. cbn. now repeat split.
  - unfold PostExplainer._build_sources.
    destruct (PostExplainer.citations E raw) as [cited|e]; [|discriminate].
    intros [= <-]. cbn. split; [apply parse_bullets_at_most_5|].
    apply build_sources_from_sorted.
Qed.

Lemma dict_set_two {V} (a b : V) :
  Providers.dict_set (lit "anthropic") b
    (Providers.dict_set (lit "openai") a [])
  = [(lit "openai", a); (lit "anthropic", b)].
Proof. reflexivity. Qed.

(** The comparison is its first part, the replies of the providers, and
    the loop over the replies. *)
Lemma compare_factors post_text image_url s image_data s1 results s2
      replies s3 :
  PostExplainer.process_image E image_url s = (Ok image_data, s1) ->
  SearchService.search E (QueryExtractor.extract_search_queries post_text) 5
    (add_log (EvExtract post_text) s1) = (Ok results, s2) ->
  compare_providers E anthropic_api_key
    (Prompts.build_explanation_prompt post_text results) image_data s2
  = (Ok replies, s3) ->
  Comparison.compare_providers E anthropic_api_key post_text image_url s
  = match Comparison.parse_responses E results replies [] with
    | Ok entries =>
        (Ok {| Comparison.providers := entries;
               Comparison.available_providers :=
                 get_available_providers E anthropic_api_key s3 |}, s3)
    | Raise e => (Raise e, s3)
    end.
Proof.
  intros Hi Hs Hp. unfold Comparison.compare_providers.
  unfold bind at 1. rewrite Hi.
  unfold bind at 1. rewrite extract_queries_eq.
  unfold bind at 1. rewrite Hs.
  unfold bind at 1. rewrite Hp.
  unfold bind, lift.
  destruct (Comparison.parse_responses E results replies []); reflexivity.
Qed.

(** The comparison raises in one case only: a provider has replied, the
    reply does not begin with the tag Error, and the building of the
    sources raises on it, which int does on a marker of more digits than
    the limit of the interpreter; the error is that of the first such
    reply. Nothing else that fails on the way (the image, the searches,
    one model or both) ends the comparison. The replies are those of the
    available providers, in their order, OpenAI first, and the cache is
    left as it is, whatever the outcome. When the comparison returns, its
    entries are those of the providers that replied, in the same order:
    the entry of a reply that begins with the tag Error holds that reply
    as its error, and neither bullets nor sources; the entry of any other
    reply holds no error, the bullets parsed from the reply and the
    sources built from it, so at most 5 bullets and sources numbered in
    increasing order. *)
Theorem compare_providers_outcome :
  forall (post_text : list N) (image_url : option (list N)) (s : State E),
    let r := Comparison.compare_providers E anthropic_api_key
               post_text image_url s in
    let names := lit "openai"
                 :: (if anthropic_api_key && available (anthropic s)
                     then [lit "anthropic"] else []) in
    exists image_data s1 results s2 replies,
      PostExplainer.process_image E image_url s = (Ok image_data, s1)
      /\ SearchService.search E
           (QueryExtractor.extract_search_queries post_text) 5
           (add_log (EvExtract post_text) s1)
         = (Ok results, s2)
      /\ Providers.compare_providers E anthropic_api_key
           (Prompts.build_explanation_prompt post_text results) image_data s2
         = (Ok replies, snd r)
      /\ List.map fst replies = names
      /\ _cache (snd r) = _cache s
      /\ match fst r with
         | Ok c =>
             Comparison.available_providers c = names
             /\ List.map fst (Comparison.providers c) = names
             /\ (forall name raw,
                   In (name, raw) replies ->
                   exists entry,
                     In (name, entry) (Comparison.providers c)
                     /\ if startswith (lit "Error:") raw
                        then entry = {| Comparison.error := Some raw;
                                        Comparison.bullets := [];
                                        Comparison.sources := [] |}
                        else Comparison.error entry = None
                             /\ Comparison.bullets entry
                                = PostExplainer._parse_bullets raw
                             /\ PostExplainer._build_sources E results raw
                                = Ok (Comparison.sources entry))
             /\ (forall name entry,
                   In (name, entry) (Comparison.providers c) ->
                   match Comparison.error entry with
                   | Some text =>
                       startswith (lit "Error:") text = true
                       /\ Comparison.bullets entry = []
                       /\ Comparison.sources entry = []
                   | None =>
                       length (Comparison.bullets entry) <= 5
                       /\ StronglySorted lt
                            (List.map Source.id (Comparison.sources entry))
                   end)
         | Raise e =>
             exists name raw,
               In (name, raw) replies
               /\ startswith (lit "Error:") raw = false
               /\ PostExplainer._build_sources E results raw = Raise e
         end.
Proof.
  intros post_text image_url s r names.
  destruct (process_image_frame image_url s) as (image_data & s1 & Hi & Hc1 & Ha1).
  destruct (search_frame (QueryExtractor.extract_search_queries post_text) 5
              (add_log (EvExtract post_text) s1))
    as (results & s2 & Hs & Hc2 & Ha2).
  exists image_data, s1, results, s2.
  set (prompt := Prompts.build_explanation_prompt post_text results).
  pose proof (llm_compare_cases prompt image_data s2) as Hp. cbv zeta in Hp.
  pose proof (openai_generate_frame prompt image_data s2) as [Hc3 Ha3].
  pose proof (anthropic_generate_frame prompt image_data
                (snd (OpenAIProvider.generate E prompt image_data s2)))
    as [Hc4 Ha4].
  assert (Hav : available (anthropic s2) = available (anthropic s))
    by (rewrite Ha2; cbn; now rewrite Ha1).
  assert (Hcache : _cache s2 = _cache s)
    by (rewrite Hc2; cbn; exact Hc1).
  rewrite Hav in Hp. subst names.
  set (r1 := OpenAIProvider.generate E prompt image_data s2) in *.
  set (r2 := AnthropicProvider.generate E prompt image_data (snd r1)) in *.
  destruct (anthropic_api_key && available (anthropic s)) eqn:Hk.
  - revert Hp.
    generalize (match fst r1 with Ok t => t | Raise e => lit "Error: " ++ e end)
               (match fst r2 with Ok t => t | Raise e => lit "Error: " ++ e end).
    intros t1 t2 Hp.
    exists [(lit "openai", t1); (lit "anthropic", t2)].
    subst r. rewrite (compare_factors _ _ _ _ _ _ _ _ _ Hi Hs Hp).
    cbn [Comparison.parse_responses].
    pose proof (parse_response_cases results t1) as H1.
    pose proof (parse_response_shape results t1) as S1.
    destruct (Comparison.parse_response E results t1) as [entry1|e1].
    + pose proof (parse_response_cases results t2) as H2.
      pose proof (parse_response_shape results t2) as S2.
      destruct (Comparison.parse_response E results t2) as [entry2|e2].
      * rewrite dict_set_two. cbn [fst snd].
        split; [exact Hi|]. split; [exact Hs|]. split; [exact Hp|].
        split; [reflexivity|]. split; [congruence|].
        cbn [Comparison.available_providers Comparison.providers].
        split; [unfold get_available_providers;
                rewrite Ha4, Ha3, Hav, Hk; reflexivity|].
        split; [reflexivity|]. split.
        -- intros name raw [Hin | [Hin | []]]; injection Hin as <- <-.
           ++ exists entry1. split; [now left|exact H1].
           ++ exists entry2. split; [right; now left|exact H2].
        -- intros name entry [Hin | [Hin | []]]; injection Hin as <- <-.
           ++ now apply S1.
           ++ now apply S2.
      * cbn [fst snd].
        split; [exact Hi|]. split; [exact Hs|]. split; [exact Hp|].
        split; [reflexivity|]. split; [congruence|].
        exists (lit "anthropic"), t2.
        split; [right; now left|exact H2].
    + cbn [fst snd].
      split; [exact Hi|]. split; [exact Hs|]. split; [exact Hp|].
      split; [reflexivity|]. split; [congruence|].
      exists (lit "openai"), t1.
      split; [now left|exact H1].
  - revert Hp.
    generalize (match fst r1 with Ok t => t | Raise e => lit "Error: " ++ e end).
    intros t1 Hp.
    exists [(lit "openai", t1)].
    subst r. rewrite (compare_factors _ _ _ _ _ _ _ _ _ Hi Hs Hp).
    cbn [Comparison.parse_responses].
    pose proof (parse_response_cases results t1) as H1.
    pose proof (parse_response_shape results t1) as S1.
    destruct (Comparison.parse_response E results t1) as [entry1|e1].
    + cbn [fst snd].
      split; [exact Hi|]. split; [exact Hs|]. split; [exact Hp|].
      split; [reflexivity|]. split; [congruence|].
      cbn [Comparison.available_providers Comparison.providers].
      split; [unfold get_available_providers;
              rewrite Ha3, Hav, Hk; reflexivity|].
      split; [reflexivity|]. split.
      * intros name raw [Hin | []]; injection Hin as <- <-.
        exists entry1. split; [now left|exact H1].
      * intros name entry [Hin | []]; injection Hin as <- <-.
        now apply S1.
    + cbn [fst snd].
      split; [exact Hi|]. split; [exact Hs|]. split; [exact Hp|].
      split; [reflexivity|]. split; [congruence|].
      exists (lit "openai"), t1.
      split; [now left|exact H1].
Qed.

End CompareFacts.

(** The comparison on a model whose reply cites a source by a numeral of
    4301 digits: the conversion of the numeral raises, and so does the
    comparison. *)
Example compare_providers_raises :
  let E := Examples.with_reply Examples.reply_long_marker
             (Examples.demo true true) in
  let s := Examples.fresh E 0%Z in
  fst (@Comparison.compare_providers E ascii_only false (lit "hello") None s)
  = Raise (int_limit_error E 4301).
Proof. vm_compute. reflexivity. Qed.

(** ** The image, from the download to the content sent to Claude *)

Section SplitFacts.

Lemma split_on_free sep s :
  Shape.free_of sep s = true -> split_on sep s = [s].
Proof.
  induction s as [|c s IH]; [reflexivity|]. cbn.
  intros [Hc Hs]%andb_true_iff. apply negb_true_iff in Hc.
  now rewrite Hc, (IH Hs).
Qed.

Lemma split_on_first sep a b :
  Shape.free_of sep a = true ->
  split_on sep (a ++ sep :: b) = a :: split_on sep b.
Proof.
  induction a as [|c a IH]; cbn.
  - intros _. unfold char_eqb. now rewrite N.eqb_refl.
  - intros [Hc Ha]%andb_true_iff. apply negb_true_iff in Hc.
    now rewrite Hc, (IH Ha).
Qed.

Lemma free_of_app sep a b :
  Shape.free_of sep (a ++ b) = Shape.free_of sep a && Shape.free_of sep b.
Proof. apply forallb_app. Qed.

End SplitFacts.

Section Base64Facts.
Import Base64.

Lemma list_ind3 {A} (P : list A -> Prop) :
  P [] -> (forall a, P [a]) -> (forall a b, P [a; b]) ->
  (forall a b c rest, P rest -> P (a :: b :: c :: rest)) ->
  forall l, P l.
Proof.
  intros H0 H1 H2 H3 l.
  assert (H : forall n l, length l <= n -> P l).
  { induction n as [|n IH]; intros [|a [|b [|c rest]]] Hl; auto;
      try (cbn [length] in Hl; lia).
    apply H3, IH. cbn [length] in Hl. lia. }
  now apply (H (length l)).
Qed.

Lemma sextet_char i : (i < 64)%N -> Shape.is_base64_char (sextet i) = true.
Proof.
  intros Hi.
  assert (Hall : forallb (fun n => Shape.is_base64_char (sextet (N.of_nat n)))
                         (seq 0 64) = true) by (vm_compute; reflexivity).
  rewrite forallb_forall in Hall.
  rewrite <- (N2Nat.id i). apply Hall. apply in_seq. lia.
Qed.

Lemma byte_bound b : (Byte.to_N b < 256)%N.
Proof. pose proof (Byte.to_N_bounded b). lia. Qed.

Lemma b64encode_chars data :
  forallb Shape.is_base64_char (b64encode data) = true.
Proof.
  induction data as [|a|a b|a b c rest IH] using list_ind3;
    [reflexivity|..]; cbn [b64encode]; cbv zeta;
    try pose proof (byte_bound a) as Ha;
    try pose proof (byte_bound b) as Hb;
    try pose proof (byte_bound c) as Hc.
  - cbn [forallb].
    rewrite !sextet_char; [reflexivity|..].
    + pose proof (N.mod_lt (Byte.to_N a) 4). lia.
    + apply N.Div0.div_lt_upper_bound. lia.
  - cbn [forallb].
    rewrite !sextet_char; [reflexivity|..].
    + pose proof (N.mod_lt (Byte.to_N b) 16). lia.
    + pose proof (N.mod_lt (Byte.to_N a) 4).
      assert (Byte.to_N b / 16 < 16)%N
        by (apply N.Div0.div_lt_upper_bound; lia).
      lia.
    + apply N.Div0.div_lt_upper_bound. lia.
  - rewrite forallb_app, IH. cbn [forallb].
    rewrite !sextet_char; [reflexivity|..].
    + apply N.mod_lt. lia.
    + pose proof (N.mod_lt (Byte.to_N b) 16).
      assert (Byte.to_N c / 64 < 4)%N
        by (apply N.Div0.div_lt_upper_bound; lia).
      lia.
    + pose proof (N.mod_lt (Byte.to_N a) 4).
      assert (Byte.to_N b / 16 < 16)%N
        by (apply N.Div0.div_lt_upper_bound; lia).
      lia.
    + apply N.Div0.div_lt_upper_bound. lia.
Qed.

Lemma b64encode_length data :
  length (b64encode data) = 4 * ((length data + 2) / 3).
Proof.
  induction data as [|a|a b|a b c rest IH] using list_ind3; try reflexivity.
  cbn [b64encode]. cbv zeta. rewrite length_app, IH. cbn [length].
  replace (S (S (S (length rest))) + 2) with (1 * 3 + (length rest + 2)) by lia.
  rewrite Nat.div_add_l by lia. lia.
Qed.

Lemma base64_free_of sep s :
  Shape.is_base64_char sep = false ->
  forallb Shape.is_base64_char s = true -> Shape.free_of sep s = true.
Proof.
  intros Hsep Hs. unfold Shape.free_of. apply forallb_forall. intros c Hc.
  rewrite forallb_forall in Hs. specialize (Hs c Hc).
  apply negb_true_iff. unfold char_eqb.
  destruct (N.eqb_spec c sep) as [->|]; [congruence|reflexivity].
Qed.

(** Three test vectors of RFC 4648. *)
Lemma b64encode_examples :
  b64encode [Byte.x66] = lit "Zg=="
  /\ b64encode [Byte.x66; Byte.x6f] = lit "Zm8="
  /\ b64encode [Byte.x66; Byte.x6f; Byte.x6f; Byte.x62] = lit "Zm9vYg==".
Proof. repeat split; reflexivity. Qed.

End Base64Facts.

Section ImageFacts.
Context {U : UnicodeTables}.
Variable World : Type.
Variable http_get :
  list N -> World -> result (list N * list Byte.byte) * World.
Variable path_suffix : list N -> list N.
Import ImageProcessor AnthropicContent.

Lemma media_type_known url :
  In (get_image_media_type path_suffix url)
     [lit "image/jpeg"; lit "image/png"; lit "image/gif"; lit "image/webp"].
Proof.
  unfold get_image_media_type, dict_get, media_types. cbv zeta.
  generalize (lower (path_suffix (hd [] (split_on 63%N url)))). intros ext.
  cbn [List.find fst snd].
  repeat (destruct (str_eqb _ ext); [cbn; tauto|]).
  cbn; tauto.
Qed.

Lemma build_content_data_url prompt media data detail :
  In media [lit "image/jpeg"; lit "image/png"; lit "image/gif"; lit "image/webp"] ->
  forallb Shape.is_base64_char data = true ->
  _build_content prompt
    (Some {| image_url_url := lit "data:" ++ media ++ lit ";base64," ++ data;
             image_url_detail := detail |})
  = Ok [ImageBlock media data; TextBlock prompt].
Proof.
  intros Hmedia Hdata. unfold _build_content. cbv zeta.
  cbn [image_url_url].
  change (startswith (lit "data:") (lit "data:" ++ media ++ lit ";base64," ++ data))
    with true. cbv iota.
  assert (Hfree : Shape.free_of 59%N media = true
                  /\ Shape.free_of 58%N media = true
                  /\ Shape.free_of 44%N media = true).
  { cbn in Hmedia.
    destruct Hmedia as [<- | [<- | [<- | [<- | []]]]]; now vm_compute. }
  destruct Hfree as (H59 & H58 & H44).
  replace (split_on 59%N (lit "data:" ++ media ++ lit ";base64," ++ data))
    with ((lit "data:" ++ media) :: split_on 59%N (lit "base64," ++ data)).
  2:{ change (lit ";base64," ++ data) with (59%N :: lit "base64," ++ data).
      rewrite app_assoc. rewrite split_on_first; [reflexivity|].
      rewrite free_of_app, H59. reflexivity. }
  cbn [index nth_error].
  replace (split_on 58%N (lit "data:" ++ media)) with [lit "data"; media].
  2:{ change (lit "data:" ++ media) with (lit "data" ++ 58%N :: media).
      rewrite split_on_first by reflexivity.
      now rewrite (split_on_free 58%N media H58). }
  cbn [index nth_error].
  replace (split_on 44%N (lit "data:" ++ media ++ lit ";base64," ++ data))
    with [lit "data:" ++ media ++ lit ";base64"; data].
  2:{ change (lit ";base64," ++ data) with (lit ";base64" ++ 44%N :: data).
      rewrite !app_assoc. rewrite split_on_first.
      - rewrite split_on_free; [reflexivity|].
        now apply base64_free_of.
      - rewrite !free_of_app, H44. reflexivity. }
  reflexivity.
Qed.

(** An image that was prepared for the vision models reaches Claude
    whole. When the preparation gives image data, the download gave a
    body that is not empty and not larger than the maximum; the data URL
    is made of a media type among the four known ones and of the base64
    encoding of the body; and the content built for Claude from it never
    fails: it is the image block with exactly this media type and this
    encoding, followed by the text block of the prompt. *)
Theorem prepared_image_reaches_claude :
  forall (url : list N) (w : World) (image : Image) (w' : World),
    prepare_image_for_vision World http_get path_suffix url w
    = (Some image, w') ->
    exists image_bytes media_type,
      download_image World http_get url w = (Some image_bytes, w')
      /\ image_bytes <> []
      /\ (Z.of_nat (length image_bytes) <= MAX_IMAGE_SIZE)%Z
      /\ media_type = get_image_media_type path_suffix url
      /\ In media_type [lit "image/jpeg"; lit "image/png"; lit "image/gif";
                        lit "image/webp"]
      /\ image_url_url image
         = lit "data:" ++ media_type ++ lit ";base64,"
           ++ Base64.b64encode image_bytes
      /\ length (Base64.b64encode image_bytes)
         = 4 * ((length image_bytes + 2) / 3)
      /\ forall prompt,
           _build_content prompt (Some image)
           = Ok [ImageBlock media_type (Base64.b64encode image_bytes);
                 TextBlock prompt].
Proof.
  intros url w image w' Hprep. unfold prepare_image_for_vision in Hprep.
  destruct (download_image World http_get url w) as [image_bytes w1] eqn:Hd.
  destruct image_bytes as [[|b bytes]|]; try discriminate Hprep.
  injection Hprep as <- <-.
  exists (b :: bytes), (get_image_media_type path_suffix url).
  split; [reflexivity|]. split; [discriminate|].
  split.
  { unfold download_image in Hd.
    destruct (http_get url w) as [[[content_type content]|e] w2];
      [|discriminate Hd].
    destruct (negb _); [discriminate Hd|].
    destruct (Z.ltb_spec MAX_IMAGE_SIZE (Z.of_nat (length content)));
      [discriminate Hd|].
    injection Hd as -> _. assumption. }
  split; [reflexivity|]. split; [apply media_type_known|].
  split; [reflexivity|]. split; [apply b64encode_length|].
  intros prompt. unfold encode_image_base64.
  apply build_content_data_url; [apply media_type_known|apply b64encode_chars].
Qed.

End ImageFacts.

(** A two-byte PNG behind a URL with a query string. *)
Lemma prepared_image_reaches_claude_witness :
  let http_get := fun (_ : list N) (w : unit) =>
                    (Ok (lit "image/png", [Byte.x66; Byte.x6f]), w) in
  let path_suffix := fun _ : list N => lit ".PNG" in
  let url := lit "https://a.example/x.PNG?size=1" in
  let image := {| image_url_url := lit "data:image/png;base64,Zm8=";
                  image_url_detail := lit "auto" |} in
  @ImageProcessor.prepare_image_for_vision ascii_only unit http_get
     path_suffix url tt
  = (Some image, tt)
  /\ exists image_bytes media_type,
       ImageProcessor.download_image unit http_get url tt
       = (Some image_bytes, tt)
       /\ image_bytes <> []
       /\ (Z.of_nat (length image_bytes) <= ImageProcessor.MAX_IMAGE_SIZE)%Z
       /\ media_type
          = @ImageProcessor.get_image_media_type ascii_only path_suffix url
       /\ In media_type [lit "image/jpeg"; lit "image/png"; lit "image/gif";
                         lit "image/webp"]
       /\ image_url_url image
          = lit "data:" ++ media_type ++ lit ";base64,"
            ++ Base64.b64encode image_bytes
       /\ length (Base64.b64encode image_bytes)
          = 4 * ((length image_bytes + 2) / 3)
       /\ forall prompt,
            AnthropicContent._build_content prompt (Some image)
            = Ok [AnthropicContent.ImageBlock media_type
                    (Base64.b64encode image_bytes);
                  AnthropicContent.TextBlock prompt].
Proof.
  intros http_get path_suffix url image.
  assert (H : @ImageProcessor.prepare_image_for_vision ascii_only unit http_get
                path_suffix url tt = (Some image, tt))
    by (vm_compute; reflexivity).
  split; [exact H|].
  exact (@prepared_image_reaches_claude ascii_only unit http_get path_suffix
           url tt image tt H).
Defined.

(** ** The route that explains a post *)

Section RouteFacts.
Variable E : Env.
Context {U : UnicodeTables}.
Import Endpoints PostExplainer.

(** What a successful request that uses the cache leaves under its key:
    the bullets and sources of its response, with the time of the store.
    A fresh response was stored at the end of the request; a response
    marked as cached was found there, not expired, and nothing was
    changed. *)
Lemma explain_ok_entry post_text image_url s r s' :
  explain E post_text image_url true s = (Ok r, s') ->
  exists ts,
    _cache s' !! request_key post_text image_url
    = Some ({| cv_bullets := ExplainResponse.bullets r;
               cv_sources := ExplainResponse.sources r |}, ts)
    /\ if ExplainResponse.cached r
       then s' = s /\ (now E (world s) - ts <= cache_ttl E * 1000000)%Z
       else ts = now E (world s').
Proof.
  rewrite explain_factors.
  destruct (explain_to_generate_cases E post_text image_url true s)
    as (reached & s1 & -> & Hcases).
  destruct reached as [response | image_data search_results prompt].
  - destruct Hcases as (-> & _ & v & ts & Hl & He & ->).
    intros [= <- <-]. exists ts. destruct v. split; [exact Hl|].
    cbn [ExplainResponse.cached]. split; [reflexivity|].
    unfold CacheService.expired, CacheService.ttl in He.
    now apply Z.ltb_ge in He.
  - destruct (LLMService.generate E prompt image_data s1) as [[raw|e] s2];
      [|discriminate].
    rewrite explain_from_reply_cases.
    destruct (_build_sources E search_results raw) as [sources|e];
      [|discriminate].
    intros [= <- <-]. exists (now E (world s2)). split; [|reflexivity].
    cbn [_cache set_cache ExplainResponse.bullets ExplainResponse.sources].
    apply lookup_insert_eq.
Qed.

(** A request in a state whose cache holds an entry under its key: it
    is answered from the entry when the time passed since the store is at
    most the TTL, and otherwise the entry is removed and the pipeline
    goes on to the call of the model. *)
Lemma explain_on_entry post_text image_url s v ts :
  _cache s !! request_key post_text image_url = Some (v, ts) ->
  ((now E (world s) - ts <= cache_ttl E * 1000000)%Z ->
   explain E post_text image_url true s
   = (Ok (ExplainResponse.mk (cv_bullets v) (cv_sources v) true), s))
  /\ ((cache_ttl E * 1000000 < now E (world s) - ts)%Z ->
      exists image_data search_results prompt s1,
        explain_to_generate E post_text image_url true s
        = (Ok (AtGenerate image_data search_results prompt), s1)
        /\ _cache s1 !! request_key post_text image_url = None).
Proof.
  intros Hl. split; intros Ht.
  - apply explain_hit with ts; [exact Hl|].
    unfold CacheService.expired, CacheService.ttl. apply Z.ltb_ge. lia.
  - destruct (explain_to_generate_cases E post_text image_url true s)
      as (reached & s1 & Hreach & Hcases).
    destruct reached as [response | image_data search_results prompt].
    + destruct Hcases as (_ & _ & v' & ts' & Hl' & He & _).
      rewrite Hl in Hl'. injection Hl' as _ <-.
      unfold CacheService.expired, CacheService.ttl in He.
      apply Z.ltb_ge in He. lia.
    + exists image_data, search_results, prompt, s1. split; [exact Hreach|].
      destruct Hcases as [-> _]. apply lookup_delete_eq.
Qed.

(** The route answers 200 with the response of the pipeline, or 500 with
    the message of the error the pipeline raised, for every request whose
    key can be encoded. After an answer 200 the cache holds the bullets
    and the sources of the response under the key of the request, with
    the time of their store, which is the time of the answer unless the
    response was itself taken from the cache. Asking the same again
    later, in any state of the process that still holds that entry, is
    answered 200 from the cache when the time passed since the store is
    at most the TTL: the same bullets and sources, marked as cached, the
    process and the outside left as they were, so without any search or
    call of a model. When more time has passed the entry is removed and
    the pipeline runs again up to the call of the model. After an answer
    500 the cache holds nothing under the key. *)
Theorem explain_post_repeats_from_cache :
  forall (text : list N) (image_url : option (list N)) (s : State E),
    Hashlib.encodable (strip (lower (cache_key text image_url))) = true ->
    match explain_post E text image_url s with
    | (Http200 response, s1) =>
        explain E text image_url true s = (Ok response, s1)
        /\ exists ts,
             _cache s1 !! request_key text image_url
             = Some ({| cv_bullets := ExplainResponse.bullets response;
                        cv_sources := ExplainResponse.sources response |}, ts)
             /\ (if ExplainResponse.cached response
                 then s1 = s
                      /\ (now E (world s) - ts <= cache_ttl E * 1000000)%Z
                 else ts = now E (world s1))
             /\ forall s2 : State E,
                  _cache s2 !! request_key text image_url
                  = _cache s1 !! request_key text image_url ->
                  ((now E (world s2) - ts <= cache_ttl E * 1000000)%Z ->
                   explain_post E text image_url s2
                   = (Http200
                        (ExplainResponse.mk
                           (ExplainResponse.bullets response)
                           (ExplainResponse.sources response) true), s2))
                  /\ ((cache_ttl E * 1000000 < now E (world s2) - ts)%Z ->
                      exists image_data search_results prompt s3,
                        explain_to_generate E text image_url true s2
                        = (Ok (AtGenerate image_data search_results prompt),
                           s3)
                        /\ _cache s3 !! request_key text image_url = None)
    | (Http500 detail, s1) =>
        explain E text image_url true s = (Raise detail, s1)
        /\ _cache s1 !! request_key text image_url = None
    end.
Proof.
  intros text image_url s _. unfold explain_post at 1.
  destruct (explain E text image_url true s) as [[r|e] s1] eqn:Hx.
  - split; [reflexivity|].
    destruct (explain_ok_entry text image_url s r s1 Hx) as (ts & Hl & Ht).
    exists ts. split; [exact Hl|]. split; [exact Ht|].
    intros s2 Hheld. rewrite Hl in Hheld.
    destruct (explain_on_entry text image_url s2 _ ts Hheld) as [Hin Hout].
    split; [|exact Hout].
    intros Hle. unfold explain_post. now rewrite (Hin Hle).
  - split; [reflexivity|].
    rewrite explain_factors in Hx.
    destruct (explain_to_generate_cases E text image_url true s)
      as (reached & s0 & Hreach & Hcases).
    rewrite Hreach in Hx.
    destruct reached as [response | image_data results prompt];
      [discriminate Hx|].
    destruct Hcases as [Hc _].
    destruct (LLMService.generate E prompt image_data s0) as [[raw|e0] s2] eqn:Hg;
      apply generate_cache in Hg.
    + rewrite explain_from_reply_cases in Hx.
      destruct (_build_sources E results raw) as [sources|e1];
        [discriminate Hx|].
      injection Hx as _ <-. rewrite Hg, Hc. apply lookup_delete_eq.
    + injection Hx as _ <-. rewrite Hg, Hc. apply lookup_delete_eq.
Qed.

End RouteFacts.

(** In the demo world the first request is answered 200 and stored; the
    same request five microseconds later is answered from the cache. *)
Lemma explain_post_repeats_from_cache_witness :
  let E := Examples.demo true true in
  let s := Examples.fresh E 0%Z in
  Hashlib.encodable
    (strip (@lower ascii_only (PostExplainer.cache_key (lit "hello") None)))
  = true
  /\ exists response s1,
       @Endpoints.explain_post E ascii_only (lit "hello") None s
       = (Endpoints.Http200 response, s1)
       /\ ExplainResponse.cached response = false
       /\ @Endpoints.explain_post E ascii_only (lit "hello") None
            (@set_world E (world s1 + 5)%Z s1)
          = (Endpoints.Http200
               (ExplainResponse.mk (ExplainResponse.bullets response)
                                   (ExplainResponse.sources response) true),
             @set_world E (world s1 + 5)%Z s1).
Proof.
  intros E s.
  assert (Henc : Hashlib.encodable
                   (strip (@lower ascii_only
                             (PostExplainer.cache_key (lit "hello") None)))
                 = true)
    by (vm_compute; reflexivity).
  split; [exact Henc|].
  assert (Hr : exists response s1,
             @Endpoints.explain_post E ascii_only (lit "hello") None s
             = (Endpoints.Http200 response, s1)
             /\ ExplainResponse.cached response = false)
    by (do 2 eexists; split; vm_compute; reflexivity).
  destruct Hr as (response & s1 & Hr & Hfresh).
  exists response, s1. split; [exact Hr|]. split; [exact Hfresh|].
  pose proof (@explain_post_repeats_from_cache E ascii_only (lit "hello")
                None s Henc) as H.
  rewrite Hr in H. destruct H as (_ & ts & _ & Hts & Hlater).
  rewrite Hfresh in Hts.
  apply (Hlater (@set_world E (world s1 + 5)%Z s1) eq_refl).
  rewrite Hts. change ((world s1 + 5 - world s1 <= 86400 * 1000000)%Z). lia.
Defined.

(** ** The evaluation: what the metrics see of a reply *)

Section FormatFacts.
Context {U : UnicodeTables}.
Import PostExplainer Spec Evaluation.

Lemma free_of_lstrip sep s :
  Shape.free_of sep s = true -> Shape.free_of sep (lstrip s) = true.
Proof.
  induction s as [|c s IH]; [trivial|]. cbn [lstrip].
  destruct (isspace c); [|trivial].
  intros [_ Hs]%andb_true_iff. now apply IH.
Qed.

Lemma free_of_rstrip sep s :
  Shape.free_of sep s = true -> Shape.free_of sep (rstrip s) = true.
Proof.
  induction s as [|c s IH]; [trivial|]. rewrite rstrip_cons.
  intros [Hc Hs]%andb_true_iff. specialize (IH Hs).
  destruct (rstrip s) as [|x r].
  - destruct (isspace c); [reflexivity|]. cbn. now rewrite Hc.
  - cbn [Shape.free_of forallb] in *. now rewrite Hc, IH.
Qed.

Lemma free_of_strip sep s :
  Shape.free_of sep s = true -> Shape.free_of sep (strip s) = true.
Proof. intros H. unfold strip. now apply free_of_rstrip, free_of_lstrip. Qed.

Lemma split_on_parts_free sep s :
  forallb (Shape.free_of sep) (split_on sep s) = true.
Proof.
  induction s as [|c s IH]; [reflexivity|].
  destruct (split_on_cons sep s) as (l & ls & Hs).
  rewrite (split_on_step sep c s l ls Hs). rewrite Hs in IH.
  cbn [forallb] in IH. apply andb_true_iff in IH as [Hl Hls].
  destruct (char_eqb c sep) eqn:Hc; cbn [forallb Shape.free_of].
  - fold (Shape.free_of sep l). now rewrite Hl, Hls.
  - fold (Shape.free_of sep l). now rewrite Hc, Hl, Hls.
Qed.

Lemma split_join sep p parts :
  forallb (Shape.free_of sep) (p :: parts) = true ->
  split_on sep (QueryExtractor.join [sep] (p :: parts)) = p :: parts.
Proof.
  revert p. induction parts as [|q parts IH]; intros p H.
  - cbn [QueryExtractor.join]. apply split_on_free.
    cbn [forallb] in H. now apply andb_true_iff in H as [H _].
  - cbn [forallb] in H. apply andb_true_iff in H as [Hp Hrest].
    change (QueryExtractor.join [sep] (p :: q :: parts))
      with (p ++ sep :: QueryExtractor.join [sep] (q :: parts)).
    rewrite split_on_first by exact Hp. f_equal. now apply IH.
Qed.

Lemma strip_behind_sign b :
  exists rest, strip ([0x2022%N; 32%N] ++ b) = 0x2022%N :: rest.
Proof.
  unfold strip. cbn [app]. rewrite lstrip_nonspace by reflexivity.
  rewrite rstrip_cons. destruct (rstrip (32%N :: b)); eauto.
Qed.

Lemma signed_lines_count (l : list (list N)) :
  length
    (List.filter (fun l => existsb (fun p => startswith p l) bullet_prefixes)
       (List.filter truthy
          (List.map strip (List.map (fun b => [0x2022%N; 32%N] ++ b) l))))
  = length l.
Proof.
  induction l as [|x l IH]; [reflexivity|]. cbn [List.map].
  destruct (strip_behind_sign x) as (rest & ->). cbn [truthy List.filter].
  change (existsb (fun p => startswith p (0x2022%N :: rest)) bullet_prefixes)
    with true. cbv iota. cbn [length]. now rewrite IH.
Qed.

(** The lines of the text the runner builds are the bullets behind their
    sign, and each one counts as a bullet line. *)
Lemma bullet_lines_of_text bullets :
  forallb (Shape.free_of newline) bullets = true ->
  num_bullets (explanation_text bullets) = length bullets.
Proof.
  intros Hfree. unfold num_bullets, bullet_lines, format_lines.
  fold (live_lines (strip (explanation_text bullets))).
  rewrite live_lines_strip. unfold live_lines, explanation_text.
  destruct bullets as [|b bullets]; [reflexivity|].
  cbn [List.map]. rewrite split_join.
  - exact (signed_lines_count (b :: bullets)).
  - change (([0x2022%N; 32%N] ++ b)
            :: List.map (fun b0 => [0x2022%N; 32%N] ++ b0) bullets)
      with (List.map (fun b0 => [0x2022%N; 32%N] ++ b0) (b :: bullets)).
    rewrite forallb_forall in Hfree. apply forallb_forall.
    intros x (y & <- & Hy)%in_map_iff. cbn. now apply Hfree.
Qed.

Lemma free_of_suffix sep a b :
  Shape.free_of sep (a ++ b) = true -> Shape.free_of sep b = true.
Proof. rewrite free_of_app. now intros [_ H]%andb_true_iff. Qed.

Lemma surviving_lines_free raw c :
  In c (surviving_lines raw) -> Shape.free_of newline c = true.
Proof.
  unfold surviving_lines. intros [Hc _]%filter_In.
  apply in_map_iff in Hc as (l & <- & Hl).
  apply filter_In in Hl as [Hl _].
  apply in_map_iff in Hl as (line & <- & Hline).
  pose proof (split_on_parts_free newline raw) as Hall.
  rewrite forallb_forall in Hall. specialize (Hall line Hline).
  apply (free_of_strip newline) in Hall.
  assert (Hdb : Shape.free_of newline (drop_bullet (strip line)) = true).
  { unfold drop_bullet. destruct (strip line) as [|x rest]; [reflexivity|].
    destruct (existsb _ _); [|exact Hall].
    apply free_of_lstrip. now apply (free_of_suffix newline [x] rest). }
  unfold drop_number.
  destruct (span is_decimal (drop_bullet (strip line))) as [digits rest] eqn:Hs.
  destruct digits as [|d ds]; [exact Hdb|].
  destruct rest as [|x rest']; [exact Hdb|].
  destruct (existsb _ _); [|exact Hdb].
  apply span_app in Hs. rewrite Hs in Hdb.
  apply free_of_lstrip.
  apply (free_of_suffix newline ((d :: ds) ++ [x]) rest').
  now rewrite <- app_assoc.
Qed.

(** The format metric counts the bullets of a reply. When no bullet
    holds a line break, the text the runner builds from the bullets has
    exactly as many bullet lines as there are bullets, so the format is
    proper exactly when there are at least 3 of them. No bullet holds a
    line break as soon as there are two bullets or more: only the whole
    reply, returned as the single bullet, can. *)
Theorem format_counts_bullets :
  forall raw : list N,
    let bullets := _parse_bullets raw in
    let text := explanation_text bullets in
    (forallb (Shape.free_of newline) bullets = true ->
     num_bullets text = length bullets
     /\ has_proper_format text = (3 <=? length bullets))
    /\ (2 <= length bullets ->
        forallb (Shape.free_of newline) bullets = true).
Proof.
  intros raw bullets text. split.
  - intros Hfree. unfold has_proper_format, text.
    rewrite (bullet_lines_of_text bullets Hfree). split; [reflexivity|].
    pose proof (parse_bullets_at_most_5 raw) as H5. fold bullets in H5.
    apply Nat.leb_le in H5. rewrite H5. apply andb_true_r.
  - unfold bullets. rewrite parse_bullets_eq. unfold parse_bullets_amended.
    intros Hlen. apply forallb_forall. intros b Hb.
    apply In_firstn_inv in Hb.
    destruct (surviving_lines raw) as [|c kept] eqn:Hs.
    + destruct (strip raw); cbn in Hlen; lia.
    + apply (surviving_lines_free raw). rewrite Hs.
      destruct (strip raw); exact Hb.
Qed.

End FormatFacts.

(** The reply of two bulleted lines gives two bullet lines, which is not
    a proper format. *)
Lemma format_counts_bullets_witness :
  Evaluation.num_bullets
     (Evaluation.explanation_text
        (@PostExplainer._parse_bullets ascii_only Examples.bulleted_reply))
  = 2
  /\ Evaluation.has_proper_format
       (Evaluation.explanation_text
          (@PostExplainer._parse_bullets ascii_only Examples.bulleted_reply))
     = false.
Proof.
  destruct (@format_counts_bullets ascii_only Examples.bulleted_reply)
    as [Hcount Hfree].
  assert (H2 : 2 <= length (@PostExplainer._parse_bullets ascii_only
                              Examples.bulleted_reply))
    by (vm_compute; lia).
  destruct (Hcount (Hfree H2)) as [Hn Hp].
  split; [rewrite Hn|rewrite Hp]; reflexivity.
Defined.

Section CitationFacts.
Context {U : UnicodeTables}.
Import PostExplainer Spec Evaluation.

Lemma size_list_to_set_le (l : list N) :
  size (list_to_set l : gset N) <= length l.
Proof.
  induction l as [|x l IH]; [reflexivity|]. cbn [list_to_set length].
  rewrite size_union_alt, size_singleton.
  assert (Hsub : list_to_set l ∖ {[x]} ⊆ (list_to_set l : gset N))
    by (intros y [Hy _]%elem_of_difference; exact Hy).
  apply subseteq_size in Hsub. lia.
Qed.

(** The citation metric in terms of the markers of the text. The metric
    raises exactly when the text holds a marker that int refuses to
    convert, a numeral of more digits than the limit of the interpreter.
    Otherwise: there are citations exactly when the text holds a marker.
    The invalid citations are the numbers of markers above the number of
    sources. The score is 1 exactly when there is a marker and no
    marker's number is above the number of sources, whether or not a
    source bears the number: the marker of number 0 counts as a citation
    and is neither valid nor invalid. The score is 0 exactly when there is
    no marker, and one half otherwise. *)
Theorem citation_quality_by_markers :
  forall (E : Env) (explanation : list N) (num_sources : Z),
    match calculate_citation_quality E explanation num_sources with
    | Ok q =>
        (forall digits n, marker_at digits explanation -> writes digits n ->
                          ~ too_long E digits)
        /\ (has_citations q = true <-> exists n, has_marker n explanation)
        /\ (forall n, n ∈ invalid_citations q
                      <-> has_marker n explanation
                          /\ (num_sources < Z.of_N n)%Z)
        /\ valid_citations q + size (invalid_citations q)
           <= unique_citations q
        /\ unique_citations q <= total_citations q
        /\ (score q = 1%Q
            <-> (exists n, has_marker n explanation)
                /\ forall n, has_marker n explanation ->
                             (Z.of_N n <= num_sources)%Z)
        /\ (score q = 0%Q <-> ~ exists n, has_marker n explanation)
        /\ (score q = 1%Q \/ score q = (1 # 2)%Q \/ score q = 0%Q)
    | Raise e =>
        exists digits n,
          marker_at digits explanation /\ writes digits n
          /\ too_long E digits /\ e = int_limit_error E (length digits)
    end.
Proof.
  intros E explanation num_sources.
  unfold calculate_citation_quality.
  set (found := Re.findall match_citation explanation).
  pose proof (citations_spec E explanation) as Hc.
  unfold citations in Hc. fold found in Hc.
  pose proof (ints_cases E found) as Hnum.
  destruct (ints E found) as [numbers|e]; [|exact Hc].
  destruct Hc as [Hset Hshort]. destruct Hnum as [Hnum _].
  set (q := {| has_citations := 0 <? length found;
               total_citations := length found |}).
  split; [exact Hshort|].
  assert (Hhas : has_citations q = true <-> exists n, has_marker n explanation).
  { unfold q. cbn [has_citations]. rewrite Nat.ltb_lt. split.
    - intros Hlen. destruct found as [|g gs] eqn:Hf; [simpl in Hlen; lia|].
      exists (int_value g). apply Hset. rewrite Hnum.
      cbn [List.map list_to_set].
      apply elem_of_union_l, elem_of_singleton. reflexivity.
    - intros (n & Hn). apply Hset in Hn. rewrite Hnum in Hn.
      destruct found; [|simpl; lia]. cbn in Hn.
      now apply elem_of_empty in Hn. }
  assert (Hinv : forall n, n ∈ invalid_citations q
                  <-> has_marker n explanation /\ (num_sources < Z.of_N n)%Z).
  { intros n. unfold q. cbn [invalid_citations].
    rewrite elem_of_filter, Hset. tauto. }
  assert (Hempty : invalid_citations q = ∅
                   <-> forall n, has_marker n explanation ->
                                 (Z.of_N n <= num_sources)%Z).
  { split.
    - intros He n Hn. destruct (Z.le_gt_cases (Z.of_N n) num_sources) as [|Hgt];
        [assumption|].
      assert (Hin : n ∈ invalid_citations q)
        by (apply Hinv; split; [assumption|lia]).
      rewrite He in Hin. now apply not_elem_of_empty in Hin.
    - intros Hall. apply leibniz_equiv. apply elem_of_equiv_empty. intros n Hn.
      apply Hinv in Hn as [Hm Hgt]. specialize (Hall n Hm). lia. }
  split; [exact Hhas|]. split; [exact Hinv|].
  split.
  { unfold q. cbn [valid_citations invalid_citations unique_citations].
    set (unique := (list_to_set numbers : gset N)).
    rewrite <- size_union.
    - apply subseteq_size. intros n.
      rewrite elem_of_union, !elem_of_filter. tauto.
    - intros n. rewrite !elem_of_filter. lia. }
  split.
  { unfold q. cbn [unique_citations total_citations].
    rewrite <- (length_map int_value found), <- Hnum.
    apply size_list_to_set_le. }
  assert (Hscore : score q
                   = if has_citations q && bool_decide (invalid_citations q = ∅)
                     then 1%Q else if has_citations q then (1 # 2)%Q else 0%Q)
    by reflexivity.
  split; [|split].
  - rewrite Hscore, <- Hhas, <- Hempty.
    destruct (has_citations q); cbn [andb].
    + destruct (bool_decide_reflect (invalid_citations q = ∅)) as [He|Hne].
      * tauto.
      * split; [discriminate|tauto].
    + split; [discriminate|]. intros [Hf _]. discriminate Hf.
  - rewrite Hscore, <- Hhas.
    destruct (has_citations q); cbn [andb].
    + destruct (bool_decide (invalid_citations q = ∅)); split;
        try discriminate; intros Hn; now destruct Hn.
    + split; [intros _; discriminate|reflexivity].
  - rewrite Hscore.
    destruct (has_citations q); cbn [andb];
      [destruct (bool_decide (invalid_citations q = ∅))|]; tauto.
Qed.

End CitationFacts.

(** The metric on a reply that cites the first source and a source that
    does not exist, and on a reply whose marker has 4301 digits. *)
Example citation_quality_examples :
  let E := Examples.demo true true in
  (exists q,
     @Evaluation.calculate_citation_quality E ascii_only
        (lit "A fact [1]. Another one [7].") 2 = Ok q
     /\ Evaluation.total_citations q = 2
     /\ Evaluation.valid_citations q = 1
     /\ Evaluation.score q = (1 # 2)%Q)
  /\ @Evaluation.calculate_citation_quality E ascii_only
       Examples.reply_long_marker 2
     = Raise (int_limit_error E 4301).
Proof.
  intros E. split.
  - eexists. split; [vm_compute; reflexivity|].
    split; [reflexivity|]. split; vm_compute; reflexivity.
  - vm_compute. reflexivity.
Qed.

(** ** A request repeated in another case *)

Section RepeatFacts.
Variable E : Env.
Context {U : UnicodeTables}.
Import PostExplainer.

Lemma request_key_other_case a post_text image_url :
  forallb is_ascii (a ++ post_text ++ or_empty image_url) = true ->
  forallb isspace a = true ->
  request_key (a ++ lower post_text) image_url
  = request_key post_text image_url.
Proof.
  intros Hascii Ha. rewrite !forallb_app in Hascii.
  apply andb_true_iff in Hascii as [Haa Hascii].
  apply andb_true_iff in Hascii as [Hp Hi].
  unfold request_key, cache_key, CacheService._generate_key. cbv zeta.
  do 4 f_equal.
  assert (Hrest : forallb is_ascii (lit ":" ++ or_empty image_url) = true)
    by (rewrite forallb_app, Hi; reflexivity).
  assert (Hmap : forall l, forallb is_ascii l = true ->
                           forallb is_ascii (List.map lower_ascii_char l) = true).
  { intros l Hl. rewrite forallb_forall in Hl. apply forallb_forall.
    intros x (y & <- & Hy)%in_map_iff. apply lower_ascii_char_ascii. now apply Hl. }
  rewrite (lower_ascii post_text Hp).
  rewrite (lower_ascii (post_text ++ lit ":" ++ or_empty image_url))
    by (rewrite forallb_app, Hp, Hrest; reflexivity).
  rewrite lower_ascii.
  2:{ rewrite <- app_assoc, !forallb_app, Haa, (Hmap _ Hp), Hi. reflexivity. }
  rewrite <- app_assoc, !List.map_app, List.map_map.
  rewrite (List.map_ext _ lower_ascii_char lower_ascii_char_idem).
  match goal with
  | |- strip (?A ++ ?X) = strip ?X =>
      rewrite <- (strip_padded A X []);
        [now rewrite app_nil_r| |reflexivity]
  end.
  rewrite (forallb_map _ _ isspace); [exact Ha|apply lower_ascii_char_space].
Qed.

(** The cache does not tell a post from the same post in another case:
    after a request for an ASCII post has been answered, a request for
    the post in lower case, with or without blanks before it, made later
    in any state of the process that still holds the entry of the first,
    is answered from the cache when the time passed since the store of the
    entry is at most the TTL, with the bullets and sources of the first,
    although its text, which the prompt would quote, is another one. The
    entry was stored at the end of the first request, unless that request
    was itself answered from the cache. *)
Theorem explain_repeat_other_case :
  forall (a post_text : list N) (image_url : option (list N))
         (s : State E) (r : ExplainResponse.t) (s' : State E),
    forallb is_ascii (a ++ post_text ++ or_empty image_url) = true ->
    forallb isspace a = true ->
    explain E post_text image_url true s = (Ok r, s') ->
    exists ts,
      _cache s' !! request_key post_text image_url
      = Some ({| cv_bullets := ExplainResponse.bullets r;
                 cv_sources := ExplainResponse.sources r |}, ts)
      /\ (if ExplainResponse.cached r
          then s' = s /\ (now E (world s) - ts <= cache_ttl E * 1000000)%Z
          else ts = now E (world s'))
      /\ forall s2 : State E,
           _cache s2 !! request_key post_text image_url
           = _cache s' !! request_key post_text image_url ->
           (now E (world s2) - ts <= cache_ttl E * 1000000)%Z ->
           explain E (a ++ lower post_text) image_url true s2
           = (Ok (ExplainResponse.mk (ExplainResponse.bullets r)
                                     (ExplainResponse.sources r) true), s2).
Proof.
  intros a post_text image_url s r s' Hascii Ha Hr.
  destruct (explain_ok_entry E post_text image_url s r s' Hr)
    as (ts & Hl & Ht).
  exists ts. split; [exact Hl|]. split; [exact Ht|].
  intros s2 Hheld Hle. rewrite Hl in Hheld.
  rewrite <- (request_key_other_case a post_text image_url Hascii Ha) in Hheld.
  exact (proj1 (explain_on_entry E (a ++ lower post_text) image_url s2 _ ts
                  Hheld) Hle).
Qed.

End RepeatFacts.

(** In the demo world: Hello, then, five microseconds later, hello behind
    two blanks. *)
Lemma explain_repeat_other_case_witness :
  let E := Examples.demo true true in
  exists r s',
    @PostExplainer.explain E ascii_only (lit "Hello") None true
      (Examples.fresh E 0%Z)
    = (Ok r, s')
    /\ ExplainResponse.cached r = false
    /\ @PostExplainer.explain E ascii_only
         (lit "  " ++ @lower ascii_only (lit "Hello")) None true
         (@set_world E (world s' + 5)%Z s')
       = (Ok (ExplainResponse.mk (ExplainResponse.bullets r)
                                 (ExplainResponse.sources r) true),
          @set_world E (world s' + 5)%Z s').
Proof.
  intros E.
  assert (H : exists r s',
             @PostExplainer.explain E ascii_only (lit "Hello") None true
               (Examples.fresh E 0%Z) = (Ok r, s')
             /\ ExplainResponse.cached r = false)
    by (do 2 eexists; split; vm_compute; reflexivity).
  destruct H as (r & s' & H & Hfresh). exists r, s'.
  split; [exact H|]. split; [exact Hfresh|].
  destruct (@explain_repeat_other_case E ascii_only (lit "  ") (lit "Hello")
              None (Examples.fresh E 0%Z) r s' eq_refl eq_refl H)
    as (ts & _ & Hts & Hlater).
  rewrite Hfresh in Hts.
  apply (Hlater (@set_world E (world s' + 5)%Z s') eq_refl).
  rewrite Hts. change ((world s' + 5 - world s' <= 86400 * 1000000)%Z). lia.
Defined.

(** ** The streamed explanation and the cache *)

Section StreamCache.
Variable E : Env.
Context {U : UnicodeTables}.
Import PostExplainer.

(** The streamed explanation never looks into the cache and never
    stores into it: whatever the cache holds, also a fresh entry for the
    very text, the queries are extracted, the searches are made and the
    model is called, once; the events of a call are the extraction, then
    calls of the search providers only, then the call of the model. The
    cache and the Anthropic provider are left as they were. *)
Theorem explain_stream_bypasses_cache :
  forall (post_text : list N) (s : State E),
    let s' := snd (explain_stream E post_text s) in
    _cache s' = _cache s
    /\ anthropic s' = anthropic s
    /\ exists searches results,
         log s'
         = log s ++ [EvExtract post_text] ++ searches
           ++ [EvStream (Prompts.build_explanation_prompt post_text results)]
         /\ (forall ev, In ev searches -> exists fallback q, ev = EvSearch fallback q)
         /\ fst (SearchService.search E
                   (QueryExtractor.extract_search_queries post_text) 5
                   (add_log (EvExtract post_text) s))
            = Ok results.
Proof.
  intros post_text s s'. subst s'.
  unfold explain_stream, gbind, glift, gyield.
  rewrite extract_queries_eq. cbv beta iota.
  destruct (search_never_raises_aux E 5
              (QueryExtractor.extract_search_queries post_text)
              (add_log (EvExtract post_text) s)) as (found & s1 & Hs & Hh).
  rewrite Hs. cbv beta iota.
  destruct (handled_events E 5 _ _ found s1 Hh)
    as (evs & Hlog & _ & Hin & _ & Hc & Ha).
  unfold gfor. rewrite stream_cases. cbv zeta.
  destruct (openai_create_stream E
              (Prompts.build_explanation_prompt post_text
                 (SearchService.rank E found)) None
              (world (add_log (EvStream (Prompts.build_explanation_prompt
                                           post_text (SearchService.rank E found)))
                              s1))) as [outcome w].
  cbn [snd fst _cache anthropic log set_world add_log].
  split; [exact Hc|]. split; [exact Ha|].
  exists evs, (SearchService.rank E found).
  split; [rewrite Hlog; cbn [log add_log]; now rewrite <- !app_assoc|].
  split; [|reflexivity].
  intros ev Hev. destruct (Hin ev Hev) as (q & _ & [-> | [-> _]]); eauto.
Qed.

End StreamCache.

(** ** A run of the evaluation *)

Section RunnerFacts.
Variable E : Env.
Context {U : UnicodeTables}.
Variable TestCase : Type.
Variable post_text : TestCase -> list N.
Variable calculate_all_metrics : list N -> TestCase -> nat -> result bool.
Import Runner.

Lemma explain_uncached_frame text image_url s :
  _cache (snd (PostExplainer.explain E text image_url false s)) = _cache s.
Proof.
  rewrite explain_factors.
  destruct (explain_to_generate_cases E text image_url false s)
    as (reached & s1 & -> & Hcases).
  destruct reached as [response | image_data results prompt].
  - destruct Hcases as (_ & Hfalse & _). discriminate Hfalse.
  - destruct Hcases as [Hc _].
    destruct (LLMService.generate E prompt image_data s1) as [[raw|e] s2] eqn:Hg;
      apply generate_cache in Hg.
    + rewrite explain_from_reply_cases.
      destruct (PostExplainer._build_sources E results raw);
        cbn [snd]; congruence.
    + cbn [snd]. congruence.
Qed.

Lemma run_single_test_cache test_case s :
  _cache (snd (run_single_test E TestCase post_text calculate_all_metrics
                 test_case s)) = _cache s.
Proof.
  unfold run_single_test.
  pose proof (explain_uncached_frame (post_text test_case) None s) as Hc.
  destruct (PostExplainer.explain E (post_text test_case) None false s)
    as [[response|e] s1]; cbn [snd] in Hc; [|exact Hc].
  destruct (calculate_all_metrics _ test_case _) as [[|]|e]; exact Hc.
Qed.

Lemma status_counts (results : list Status) :
  length (List.filter is_passed results)
  + length (List.filter is_failed results)
  + length (List.filter is_error results)
  = length results.
Proof.
  induction results as [|[| |e] results IH]; cbn; lia.
Qed.

Lemma run_tests_spec test_cases : forall results s,
  length (fst (run_tests E TestCase post_text calculate_all_metrics
                 test_cases results s))
  = length results + length test_cases
  /\ _cache (snd (run_tests E TestCase post_text calculate_all_metrics
                    test_cases results s)) = _cache s.
Proof.
  induction test_cases as [|tc tcs IH]; intros results s.
  - cbn. split; [lia|reflexivity].
  - cbn [run_tests].
    pose proof (run_single_test_cache tc s) as Hc.
    destruct (run_single_test E TestCase post_text calculate_all_metrics tc s)
      as [r s1]. cbn [snd] in Hc.
    destruct (IH (results ++ [r]) s1) as [Hlen Hcache].
    rewrite Hlen, Hcache, length_app. cbn [length]. split; [lia|exact Hc].
Qed.

(** A run of the evaluation gives one result for each test case, each
    one passed, failed or in error, so that the three counts of the
    summary add up to the number of test cases. The run asks for every
    explanation without the cache and leaves the cache as it was. *)
Theorem run_all_tests_summary :
  forall (test_cases : list TestCase) (s : State E),
    let out := run_all_tests E TestCase post_text calculate_all_metrics
                 test_cases s in
    let summary := fst (fst out) in
    length (snd (fst out)) = length test_cases
    /\ total_tests summary = length test_cases
    /\ passed summary + failed summary + errors summary = total_tests summary
    /\ _cache (snd out) = _cache s.
Proof.
  intros test_cases s out summary. subst summary out. unfold run_all_tests.
  destruct (run_tests_spec test_cases [] s) as [Hlen Hcache].
  destruct (run_tests E TestCase post_text calculate_all_metrics test_cases [] s)
    as [results s1]. cbn [fst snd] in *.
  cbn [total_tests passed failed errors].
  rewrite status_counts. repeat split; try assumption; lia.
Qed.

End RunnerFacts.
